(** * Remote-control media player: focus navigation and playback session

    A shallow embedding of the keyboard dispatcher of [src/App.tsx] and of
    the playback session controller of [src/components/Player.tsx],
    followed by the properties the specification states about them.
    Further sections embed the rest of the two files (the glow of the
    focused card, the time labels, the side panels, seeking with the
    pointer, the conversion of captions) and the carousel of
    [src/pages/YouPage.tsx], with properties read off the code.

    Conventions of the embedding.
    - A JavaScript number that is finite is a rational ([Q]); where the
      source meets [Infinity] or [NaN] the model has a constructor for
      it.
    - React state is a record; a handler reads the record it was created
      with (its closure) and returns the record after its setters.  A
      render is taken to be complete before the next event is handled.
    - Asynchronous code is cut at every [await]: each continuation is a
      transition of a step function, driven by an explicit event.
    - Wall-clock time is a natural number of milliseconds; a timer set
      with delay [d] at time [t] runs once the clock shows [t + d]. *)

From Stdlib Require Import QArith Qabs Qminmax Lqa Lia List String Bool Arith.
From stdpp Require Import base gmap sets strings.
From Stdlib Require Import Ascii DecimalString.
Import ListNotations.

(** ** JavaScript helpers *)

Module JS.

(** [x < y] on finite numbers. *)
Definition Qltb (x y : Q) : bool :=
  match (x ?= y)%Q with Lt => true | _ => false end.

(** Truthiness of a possibly missing string: [undefined], [null] and the
    empty string are falsy. *)
Definition truthy_str (s : option string) : bool :=
  match s with
  | Some s => negb (s =? "")%string
  | None => false
  end.

(** [Array.prototype.includes] on an array of strings. *)
Definition includes (l : list string) (s : string) : bool :=
  existsb (String.eqb s) l.

(** [Array.prototype.find]. *)
Definition find {A} (p : A -> bool) (l : list A) : option A := List.find p l.

End JS.

(** ** src/App.tsx: the global key handler *)

Module App.
Import JS.
Local Open Scope Q_scope.

Record DOMRect := { left : Q; top : Q; width : Q; height : Q }.

(** What the handler observes of a DOM element. *)
Record Element := {
  node : nat;                 (* identity of the node, as compared by === *)
  cls_focusable : bool;       (* matches('.focusable') *)
  attr_disabled : bool;       (* matches('[disabled]') *)
  visibility_hidden : bool;   (* getComputedStyle(el).visibility === 'hidden' *)
  display_none : bool;        (* getComputedStyle(el).display === 'none' *)
  rect : DOMRect;             (* getBoundingClientRect() *)
  is_html_element : bool      (* el instanceof HTMLElement *)
}.

(** The snapshot of the live document a keypress is handled against. *)
Record Dom := {
  activeElement : option Element;
  document : list Element;            (* document order *)
  modal : option (list Element);      (* inside '.details-modal-content' *)
  elementFromPoint : Q -> Q -> option Element
}.

Definition navigationScope (d : Dom) : list Element :=
  match modal d with Some m => m | None => document d end.

(** Observable actions of one keypress, in program order. *)
Inductive Effect :=
| PreventDefault
| Focus (el : Element)
| ScrollIntoView (el : Element)
| Click (el : Element).

Inductive TimerAction := ResetEnterPressCount | ClearClickEffect.

Record Timer := { timer_id : positive; deadline : nat; action : TimerAction }.

Record State := {
  enterPressCount : nat;
  showTvCursor : bool;
  enterPressTimeout : option positive;   (* the ref holding the timer id *)
  cursorPosition : Q * Q;
  clickEffect : bool;
  timers : list Timer;                   (* pending, by deadline *)
  nextTimer : positive
}.

Definition set_enterPressCount (n : nat) (s : State) : State :=
  {| enterPressCount := n; showTvCursor := showTvCursor s;
     enterPressTimeout := enterPressTimeout s;
     cursorPosition := cursorPosition s; clickEffect := clickEffect s;
     timers := timers s; nextTimer := nextTimer s |}.

Definition set_showTvCursor (b : bool) (s : State) : State :=
  {| enterPressCount := enterPressCount s; showTvCursor := b;
     enterPressTimeout := enterPressTimeout s;
     cursorPosition := cursorPosition s; clickEffect := clickEffect s;
     timers := timers s; nextTimer := nextTimer s |}.

Definition set_enterPressTimeout (r : option positive) (s : State) : State :=
  {| enterPressCount := enterPressCount s; showTvCursor := showTvCursor s;
     enterPressTimeout := r;
     cursorPosition := cursorPosition s; clickEffect := clickEffect s;
     timers := timers s; nextTimer := nextTimer s |}.

Definition set_clickEffect (b : bool) (s : State) : State :=
  {| enterPressCount := enterPressCount s; showTvCursor := showTvCursor s;
     enterPressTimeout := enterPressTimeout s;
     cursorPosition := cursorPosition s; clickEffect := b;
     timers := timers s; nextTimer := nextTimer s |}.

Definition set_timers (ts : list Timer) (s : State) : State :=
  {| enterPressCount := enterPressCount s; showTvCursor := showTvCursor s;
     enterPressTimeout := enterPressTimeout s;
     cursorPosition := cursorPosition s; clickEffect := clickEffect s;
     timers := ts; nextTimer := nextTimer s |}.

Definition set_nextTimer (p : positive) (s : State) : State :=
  {| enterPressCount := enterPressCount s; showTvCursor := showTvCursor s;
     enterPressTimeout := enterPressTimeout s;
     cursorPosition := cursorPosition s; clickEffect := clickEffect s;
     timers := timers s; nextTimer := p |}.

(** The state [App] mounts with, the cursor at the centre of a window of
    the given size. *)
Definition initial (innerWidth innerHeight : Q) : State :=
  {| enterPressCount := 0; showTvCursor := false; enterPressTimeout := None;
     cursorPosition := (innerWidth / 2, innerHeight / 2);
     clickEffect := false; timers := []; nextTimer := 1%positive |}.

(** *** Timers *)

(** Pending timers are kept by deadline, first set first among equals. *)
Fixpoint enqueue (t : Timer) (ts : list Timer) : list Timer :=
  match ts with
  | [] => [t]
  | u :: us =>
      if (deadline t <? deadline u)%nat then t :: ts else u :: enqueue t us
  end.

(** [window.setTimeout(action, delay)] called at time [now]. *)
Definition setTimeout (now delay : nat) (a : TimerAction) (s : State)
  : positive * State :=
  let id := nextTimer s in
  (id, set_nextTimer (Pos.succ id)
         (set_timers
            (enqueue {| timer_id := id; deadline := (now + delay)%nat;
                        action := a |} (timers s)) s)).

(** [clearTimeout(id)]: nothing happens when the timer already ran. *)
Definition clearTimeout (id : positive) (s : State) : State :=
  set_timers
    (List.filter (fun t => negb (Pos.eqb (timer_id t) id)) (timers s)) s.

Definition fire (a : TimerAction) (s : State) : State :=
  match a with
  | ResetEnterPressCount =>
      set_enterPressCount 0 s            (* Reset if presses are too slow *)
  | ClearClickEffect => set_clickEffect false s
  end.

Definition due (now : nat) (t : Timer) : bool := (deadline t <=? now)%nat.

(** Let the clock reach [now]: every timer whose deadline has come runs. *)
Definition advance (now : nat) (s : State) : State :=
  fold_left (fun s t => fire (action t) s)
    (List.filter (due now) (timers s))
    (set_timers (List.filter (fun t => negb (due now t)) (timers s)) s).

(** *** Spatial navigation *)

Definition arrowKeys : list string :=
  ["ArrowUp"; "ArrowDown"; "ArrowLeft"; "ArrowRight"]%string.

Definition centerX (r : DOMRect) : Q := left r + width r / 2.
Definition centerY (r : DOMRect) : Q := top r + height r / 2.

(** [querySelectorAll('.focusable:not([disabled])')] then the visibility
    filter. *)
Definition isShown (el : Element) : bool :=
  negb (visibility_hidden el) && negb (display_none el)
  && Qltb 0 (width (rect el)) && Qltb 0 (height (rect el)).

Definition focusables (scope : list Element) : list Element :=
  List.filter isShown
    (List.filter (fun el => cls_focusable el && negb (attr_disabled el)) scope).

(** [querySelector('.focusable')]. *)
Definition firstFocusable (scope : list Element) : option Element :=
  List.find cls_focusable scope.

Definition same_node (a b : Element) : bool := (node a =? node b)%nat.

(** The loop variables [bestCandidate] and [minDistance]; [None] in the
    second component is [Infinity]. *)
Definition Best : Type := option Element * option Q.

Definition below (distance : Q) (minDistance : option Q) : bool :=
  match minDistance with
  | None => true
  | Some m => Qltb distance m
  end.

Definition improve (candidate : Element) (distance : Q) (acc : Best) : Best :=
  if below distance (snd acc) then (Some candidate, Some distance) else acc.

(** One iteration of [for (const candidate of focusables)]. *)
Definition scan (key : string) (currentElement : Element)
  (acc : Best) (candidate : Element) : Best :=
  if same_node candidate currentElement then acc
  else
    let currentRect := rect currentElement in
    let candidateRect := rect candidate in
    let dx := centerX candidateRect - centerX currentRect in
    let dy := centerY candidateRect - centerY currentRect in
    if (key =? "ArrowRight")%string then
      if Qltb 0 dx then improve candidate (Qabs dy * 2 + dx) acc else acc
    else if (key =? "ArrowLeft")%string then
      if Qltb dx 0 then improve candidate (Qabs dy * 2 + Qabs dx) acc else acc
    else if (key =? "ArrowDown")%string then
      if Qltb 0 dy then improve candidate (Qabs dx * 2 + dy) acc else acc
    else if (key =? "ArrowUp")%string then
      if Qltb dy 0 then improve candidate (Qabs dx * 2 + Qabs dy) acc else acc
    else acc.

Definition bestCandidate (key : string) (currentElement : Element)
  (scope : list Element) : option Element :=
  fst (fold_left (scan key currentElement) (focusables scope) (None, None)).

(** The part of [handleKeyDown] below the comment "Spatial Navigation
    Logic". *)
Definition spatialNavigation (dom : Dom) (key : string) : list Effect :=
  if negb (includes arrowKeys key) then []
  else
    PreventDefault ::
    match activeElement dom with
    | Some currentElement =>
        if cls_focusable currentElement then
          match bestCandidate key currentElement (navigationScope dom) with
          | Some best => [Focus best; ScrollIntoView best]
          | None => []
          end
        else
          match firstFocusable (navigationScope dom) with
          | Some first => [Focus first; ScrollIntoView first]
          | None => []
          end
    | None =>
        match firstFocusable (navigationScope dom) with
        | Some first => [Focus first; ScrollIntoView first]
        | None => []
        end
    end.

(** *** [handleKeyDown] *)

(** The block "Handle triple-enter for cursor".  [enterPressCount] is the
    value of the closure; the ref is read live. *)
Definition countEnter (now : nat) (s : State) : State :=
  let s1 :=
    match enterPressTimeout s with
    | Some id => clearTimeout id s
    | None => s
    end in
  let newCount := S (enterPressCount s) in
  let s2 := set_enterPressCount newCount s1 in
  if (newCount =? 3)%nat then
    set_enterPressCount 0 (set_showTvCursor true s2)
  else
    let '(id, s3) := setTimeout now 500 ResetEnterPressCount s2 in
    set_enterPressTimeout (Some id) s3.

Definition handleKeyDown (now : nat) (dom : Dom) (key : string) (s : State)
  : State * list Effect :=
  let s1 := if (key =? "Enter")%string then countEnter now s else s in
  if showTvCursor s then
    if includes arrowKeys key then
      (* Fall through to spatial nav *)
      (set_showTvCursor false s1, spatialNavigation dom key)
    else if (key =? "Enter")%string then
      let element :=
        elementFromPoint dom (fst (cursorPosition s))
          (snd (cursorPosition s)) in
      let s2 := set_clickEffect true s1 in
      let '(_, s3) := setTimeout now 400 ClearClickEffect s2 in
      (s3,
       PreventDefault ::
       match element with
       | Some el => if is_html_element el then [Click el] else []
       | None => []
       end)
    else (s1, [])
  else (s1, spatialNavigation dom key).

(** The focused element once the effects of a keypress are applied. *)
Definition focusAfter (dom : Dom) (effects : list Effect) : option Element :=
  fold_left
    (fun cur e => match e with Focus el => Some el | _ => cur end)
    effects (activeElement dom).

(** A run of Enter presses: the first at time [now] against the document
    [dom], each later one [gap] milliseconds after the one before and
    against the document of its own time, timers running in between. *)
Fixpoint pressEnters (dom : Dom) (now : nat) (later : list (nat * Dom))
  (s : State) : State :=
  let s1 := fst (handleKeyDown now dom "Enter" (advance now s)) in
  match later with
  | [] => s1
  | (gap, dom') :: rest => pressEnters dom' (now + gap)%nat rest s1
  end.

(** *** The navigator as the specification words it *)

Inductive Direction := Up | Down | Left | Right.

Definition keyOf (d : Direction) : string :=
  match d with
  | Up => "ArrowUp" | Down => "ArrowDown"
  | Left => "ArrowLeft" | Right => "ArrowRight"
  end%string.

Definition deltaX (cur cand : Element) : Q :=
  centerX (rect cand) - centerX (rect cur).
Definition deltaY (cur cand : Element) : Q :=
  centerY (rect cand) - centerY (rect cur).

(** "Right requires dx>0, Left requires dx<0, Down requires dy>0, Up
    requires dy<0." *)
Definition halfPlane (d : Direction) (cur cand : Element) : bool :=
  match d with
  | Right => Qltb 0 (deltaX cur cand)
  | Left => Qltb (deltaX cur cand) 0
  | Down => Qltb 0 (deltaY cur cand)
  | Up => Qltb (deltaY cur cand) 0
  end.

(** "cost = 2*|dy| + dx" and its three siblings. *)
Definition cost (d : Direction) (cur cand : Element) : Q :=
  match d with
  | Right => 2 * Qabs (deltaY cur cand) + deltaX cur cand
  | Left => 2 * Qabs (deltaY cur cand) + Qabs (deltaX cur cand)
  | Down => 2 * Qabs (deltaX cur cand) + deltaY cur cand
  | Up => 2 * Qabs (deltaX cur cand) + Qabs (deltaY cur cand)
  end.

(** The first element of least cost. *)
Fixpoint firstMin {A} (c : A -> Q) (l : list A) : option A :=
  match l with
  | [] => None
  | x :: rest =>
      match firstMin c rest with
      | Some y => if Qltb (c y) (c x) then Some y else Some x
      | None => Some x
      end
  end.

Definition survivors (d : Direction) (cur : Element) (cands : list Element)
  : list Element :=
  List.filter (halfPlane d cur)
    (List.filter (fun c => negb (same_node c cur)) cands).

Definition navigatorSpec (d : Direction) (cur : Element)
  (cands : list Element) : option Element :=
  firstMin (cost d cur) (survivors d cur cands).

End App.

(** ** src/components/Player.tsx: the playback session *)

Module Player.
Import JS.

(** Modelled from the spec: [../types] is not among the sources.  The
    records carry the fields [Player.tsx] reads; the specification names
    them StreamLink {url, quality label, provider} and SubtitleDescriptor
    {language, sourceUrl, displayLabel}. *)
Record StreamLink := { url : string; quality : string; provider : string }.
Record SubtitleTrack :=
  { sub_url : string; language : string; display : string }.
Record Movie := { movie_id : nat; backdrop_path : option string }.

(** A converted caption track; [vtt_url] names the object URL it owns. *)
Record VttTrack := { lang : string; vtt_url : nat; label : string }.

Record Toast := { message : string; type : string }.

(** What [fetchStreamUrl] resolves to. *)
Record StreamData := {
  links : option (list StreamLink);
  data_subtitles : option (list SubtitleTrack);
  data_provider : string
}.

(** The media element: [currentTime] is always finite; [duration] is
    [NaN] until metadata is known and [Infinity] for an unbounded stream.
    [loadeddata_once] holds the resume times captured by the pending
    one-shot 'loadeddata' listeners, [playCalls] counts calls of play(). *)
Inductive Duration := NaN | PosInfinity | Finite (d : Q).

Record Video := {
  currentTime : Q;
  duration : Duration;
  paused : bool;
  src : option string;
  loadeddata_once : list Q;
  playCalls : nat
}.

(** One [Hls] instance: the source it loads and the resume time captured
    by its MANIFEST_PARSED handler, if it was given one. *)
Record HlsInstance := { hls_source : string; hls_resume : Q }.

Record Session := {
  fetchIdRef : nat;
  timeOnSwitchRef : Q;
  streamLinks : list StreamLink;
  activeStreamUrl : option string;
  activeQuality : option string;
  recommendations : list Movie;
  isBuffering : bool;
  subtitles : list SubtitleTrack;
  vttTracks : list VttTrack;
  activeSubtitleLang : option string;
  video : option Video;                 (* videoRef.current *)
  hls : option HlsInstance;             (* the engine attached by Effect 2 *)
  toasts : list Toast;                  (* calls of setToast, oldest first *)
  fetchStateLog : list bool;            (* calls of onStreamFetchStateChange *)
  providerLog : list string             (* calls of onProviderSelected *)
}.

Definition set_fetchIdRef (x : nat) (s : Session) : Session :=
  {| fetchIdRef := x; timeOnSwitchRef := timeOnSwitchRef s;
     streamLinks := streamLinks s; activeStreamUrl := activeStreamUrl s;
     activeQuality := activeQuality s; recommendations := recommendations s;
     isBuffering := isBuffering s; subtitles := subtitles s;
     vttTracks := vttTracks s; activeSubtitleLang := activeSubtitleLang s;
     video := video s; hls := hls s; toasts := toasts s;
     fetchStateLog := fetchStateLog s; providerLog := providerLog s |}.

Definition set_timeOnSwitchRef (x : Q) (s : Session) : Session :=
  {| fetchIdRef := fetchIdRef s; timeOnSwitchRef := x;
     streamLinks := streamLinks s; activeStreamUrl := activeStreamUrl s;
     activeQuality := activeQuality s; recommendations := recommendations s;
     isBuffering := isBuffering s; subtitles := subtitles s;
     vttTracks := vttTracks s; activeSubtitleLang := activeSubtitleLang s;
     video := video s; hls := hls s; toasts := toasts s;
     fetchStateLog := fetchStateLog s; providerLog := providerLog s |}.

Definition setStreamLinks (x : list StreamLink) (s : Session) : Session :=
  {| fetchIdRef := fetchIdRef s; timeOnSwitchRef := timeOnSwitchRef s;
     streamLinks := x; activeStreamUrl := activeStreamUrl s;
     activeQuality := activeQuality s; recommendations := recommendations s;
     isBuffering := isBuffering s; subtitles := subtitles s;
     vttTracks := vttTracks s; activeSubtitleLang := activeSubtitleLang s;
     video := video s; hls := hls s; toasts := toasts s;
     fetchStateLog := fetchStateLog s; providerLog := providerLog s |}.

Definition setActiveStreamUrl (x : option string) (s : Session) : Session :=
  {| fetchIdRef := fetchIdRef s; timeOnSwitchRef := timeOnSwitchRef s;
     streamLinks := streamLinks s; activeStreamUrl := x;
     activeQuality := activeQuality s; recommendations := recommendations s;
     isBuffering := isBuffering s; subtitles := subtitles s;
     vttTracks := vttTracks s; activeSubtitleLang := activeSubtitleLang s;
     video := video s; hls := hls s; toasts := toasts s;
     fetchStateLog := fetchStateLog s; providerLog := providerLog s |}.

Definition setActiveQuality (x : option string) (s : Session) : Session :=
  {| fetchIdRef := fetchIdRef s; timeOnSwitchRef := timeOnSwitchRef s;
     streamLinks := streamLinks s; activeStreamUrl := activeStreamUrl s;
     activeQuality := x; recommendations := recommendations s;
     isBuffering := isBuffering s; subtitles := subtitles s;
     vttTracks := vttTracks s; activeSubtitleLang := activeSubtitleLang s;
     video := video s; hls := hls s; toasts := toasts s;
     fetchStateLog := fetchStateLog s; providerLog := providerLog s |}.

Definition setRecommendations (x : list Movie) (s : Session) : Session :=
  {| fetchIdRef := fetchIdRef s; timeOnSwitchRef := timeOnSwitchRef s;
     streamLinks := streamLinks s; activeStreamUrl := activeStreamUrl s;
     activeQuality := activeQuality s; recommendations := x;
     isBuffering := isBuffering s; subtitles := subtitles s;
     vttTracks := vttTracks s; activeSubtitleLang := activeSubtitleLang s;
     video := video s; hls := hls s; toasts := toasts s;
     fetchStateLog := fetchStateLog s; providerLog := providerLog s |}.

Definition setIsBuffering (x : bool) (s : Session) : Session :=
  {| fetchIdRef := fetchIdRef s; timeOnSwitchRef := timeOnSwitchRef s;
     streamLinks := streamLinks s; activeStreamUrl := activeStreamUrl s;
     activeQuality := activeQuality s; recommendations := recommendations s;
     isBuffering := x; subtitles := subtitles s;
     vttTracks := vttTracks s; activeSubtitleLang := activeSubtitleLang s;
     video := video s; hls := hls s; toasts := toasts s;
     fetchStateLog := fetchStateLog s; providerLog := providerLog s |}.

Definition setSubtitles (x : list SubtitleTrack) (s : Session) : Session :=
  {| fetchIdRef := fetchIdRef s; timeOnSwitchRef := timeOnSwitchRef s;
     streamLinks := streamLinks s; activeStreamUrl := activeStreamUrl s;
     activeQuality := activeQuality s; recommendations := recommendations s;
     isBuffering := isBuffering s; subtitles := x;
     vttTracks := vttTracks s; activeSubtitleLang := activeSubtitleLang s;
     video := video s; hls := hls s; toasts := toasts s;
     fetchStateLog := fetchStateLog s; providerLog := providerLog s |}.

Definition setVttTracks (x : list VttTrack) (s : Session) : Session :=
  {| fetchIdRef := fetchIdRef s; timeOnSwitchRef := timeOnSwitchRef s;
     streamLinks := streamLinks s; activeStreamUrl := activeStreamUrl s;
     activeQuality := activeQuality s; recommendations := recommendations s;
     isBuffering := isBuffering s; subtitles := subtitles s;
     vttTracks := x; activeSubtitleLang := activeSubtitleLang s;
     video := video s; hls := hls s; toasts := toasts s;
     fetchStateLog := fetchStateLog s; providerLog := providerLog s |}.

Definition setActiveSubtitleLang (x : option string) (s : Session) : Session :=
  {| fetchIdRef := fetchIdRef s; timeOnSwitchRef := timeOnSwitchRef s;
     streamLinks := streamLinks s; activeStreamUrl := activeStreamUrl s;
     activeQuality := activeQuality s; recommendations := recommendations s;
     isBuffering := isBuffering s; subtitles := subtitles s;
     vttTracks := vttTracks s; activeSubtitleLang := x;
     video := video s; hls := hls s; toasts := toasts s;
     fetchStateLog := fetchStateLog s; providerLog := providerLog s |}.

Definition set_video (x : option Video) (s : Session) : Session :=
  {| fetchIdRef := fetchIdRef s; timeOnSwitchRef := timeOnSwitchRef s;
     streamLinks := streamLinks s; activeStreamUrl := activeStreamUrl s;
     activeQuality := activeQuality s; recommendations := recommendations s;
     isBuffering := isBuffering s; subtitles := subtitles s;
     vttTracks := vttTracks s; activeSubtitleLang := activeSubtitleLang s;
     video := x; hls := hls s; toasts := toasts s;
     fetchStateLog := fetchStateLog s; providerLog := providerLog s |}.

Definition set_hls (x : option HlsInstance) (s : Session) : Session :=
  {| fetchIdRef := fetchIdRef s; timeOnSwitchRef := timeOnSwitchRef s;
     streamLinks := streamLinks s; activeStreamUrl := activeStreamUrl s;
     activeQuality := activeQuality s; recommendations := recommendations s;
     isBuffering := isBuffering s; subtitles := subtitles s;
     vttTracks := vttTracks s; activeSubtitleLang := activeSubtitleLang s;
     video := video s; hls := x; toasts := toasts s;
     fetchStateLog := fetchStateLog s; providerLog := providerLog s |}.

(** [setToast(toast)]: the notification sink receives one more toast. *)
Definition setToast (x : Toast) (s : Session) : Session :=
  {| fetchIdRef := fetchIdRef s; timeOnSwitchRef := timeOnSwitchRef s;
     streamLinks := streamLinks s; activeStreamUrl := activeStreamUrl s;
     activeQuality := activeQuality s; recommendations := recommendations s;
     isBuffering := isBuffering s; subtitles := subtitles s;
     vttTracks := vttTracks s; activeSubtitleLang := activeSubtitleLang s;
     video := video s; hls := hls s; toasts := toasts s ++ [x];
     fetchStateLog := fetchStateLog s; providerLog := providerLog s |}.

Definition onStreamFetchStateChange (x : bool) (s : Session) : Session :=
  {| fetchIdRef := fetchIdRef s; timeOnSwitchRef := timeOnSwitchRef s;
     streamLinks := streamLinks s; activeStreamUrl := activeStreamUrl s;
     activeQuality := activeQuality s; recommendations := recommendations s;
     isBuffering := isBuffering s; subtitles := subtitles s;
     vttTracks := vttTracks s; activeSubtitleLang := activeSubtitleLang s;
     video := video s; hls := hls s; toasts := toasts s;
     fetchStateLog := fetchStateLog s ++ [x]; providerLog := providerLog s |}.

Definition onProviderSelected (x : string) (s : Session) : Session :=
  {| fetchIdRef := fetchIdRef s; timeOnSwitchRef := timeOnSwitchRef s;
     streamLinks := streamLinks s; activeStreamUrl := activeStreamUrl s;
     activeQuality := activeQuality s; recommendations := recommendations s;
     isBuffering := isBuffering s; subtitles := subtitles s;
     vttTracks := vttTracks s; activeSubtitleLang := activeSubtitleLang s;
     video := video s; hls := hls s; toasts := toasts s;
     fetchStateLog := fetchStateLog s; providerLog := providerLog s ++ [x] |}.

(** The session a freshly mounted player starts from. *)
Definition mount (initialStreamUrl : option string) (initialTime : option Q)
  : Session :=
  {| fetchIdRef := 0; timeOnSwitchRef := 0;
     streamLinks := [];
     activeStreamUrl :=
       if truthy_str initialStreamUrl then initialStreamUrl else None;
     activeQuality := None; recommendations := [];
     isBuffering := true; subtitles := []; vttTracks := [];
     activeSubtitleLang := None;
     video := Some {| currentTime := 0; duration := NaN; paused := true;
                      src := None; loadeddata_once := []; playCalls := 0 |};
     hls := None; toasts := []; fetchStateLog := []; providerLog := [] |}.

(** *** Effect 1: source resolution *)

Inductive Phase := AwaitRecommendations | AwaitStream.

(** The closure of one call of [fetchData]: the epoch it drew, the prop it
    captured, and the [await] it is suspended at. *)
Record Request :=
  { fetchId : nat; req_initialStreamUrl : option string; phase : Phase }.

Record Net := { session : Session; inflight : list Request }.

Inductive Event :=
| Trigger (initialStreamUrl : option string)
| RecsResolved (id : nat) (results : list Movie)
| RecsRejected (id : nat) (error_message : string)
| StreamResolved (id : nat) (data : StreamData)
| StreamRejected (id : nat) (error_message : string).

Section Resolution.

(** The text-lookup service. *)
Variable t : string -> string.

(** The body of Effect 1 up to the first [await] of [fetchData]. *)
Definition startFetch (initialStreamUrl : option string) (n : Net) : Net :=
  let s := session n in
  let s :=
    if truthy_str initialStreamUrl
    then setActiveStreamUrl initialStreamUrl s else s in
  let fetchId := S (fetchIdRef s) in
  let s := set_fetchIdRef fetchId s in
  let s := onStreamFetchStateChange true s in
  let s := setIsBuffering true s in
  let s :=
    if negb (truthy_str initialStreamUrl)
    then setActiveStreamUrl None s else s in
  let s := setSubtitles [] s in
  let s := setVttTracks [] s in
  {| session := s;
     inflight := inflight n ++
       [{| fetchId := fetchId; req_initialStreamUrl := initialStreamUrl;
           phase := AwaitRecommendations |}] |}.

(** The [catch] block. *)
Definition catchBlock (id : nat) (error_message : string) (s : Session)
  : Session :=
  if (fetchIdRef s =? id)%nat
  then setToast {| message := error_message; type := "error" |} s
  else s.

(** The [finally] block. *)
Definition finallyBlock (id : nat) (s : Session) : Session :=
  if (fetchIdRef s =? id)%nat then onStreamFetchStateChange false s else s.

Definition hasBackdrop (m : Movie) : bool := truthy_str (backdrop_path m).

(** From the resolution of [fetchStreamUrl] to the end of [fetchData]. *)
Definition streamResolved (id : nat) (data : StreamData) (s : Session)
  : Session :=
  if negb (fetchIdRef s =? id)%nat then finallyBlock id s   (* return *)
  else
    match links data with
    | Some (initialLink :: rest) =>
        let s := setStreamLinks (initialLink :: rest) s in
        let s := setActiveStreamUrl (Some (url initialLink)) s in
        let s := setActiveQuality (Some (quality initialLink)) s in
        let s :=
          match data_subtitles data with
          | Some subs => setSubtitles subs s
          | None => s
          end in
        let s := onProviderSelected (data_provider data) s in
        finallyBlock id s
    | _ =>
        (* throw new Error(t('noStreamLinks')) *)
        finallyBlock id (catchBlock id (t "noStreamLinks") s)
    end.

Definition takeRequest (id : nat) (p : Phase) (rs : list Request)
  : option (Request * list Request) :=
  match List.find (fun r => (fetchId r =? id)%nat) rs with
  | Some r =>
      match phase r, p with
      | AwaitRecommendations, AwaitRecommendations
      | AwaitStream, AwaitStream =>
          Some (r, List.filter (fun r => negb (fetchId r =? id)%nat) rs)
      | _, _ => None
      end
  | None => None
  end.

(** One transition; [None] when the event answers no pending [await]. *)
Definition step (e : Event) (n : Net) : option Net :=
  match e with
  | Trigger initialStreamUrl => Some (startFetch initialStreamUrl n)
  | RecsResolved id results =>
      match takeRequest id AwaitRecommendations (inflight n) with
      | Some (r, others) =>
          let s := setRecommendations (List.filter hasBackdrop results)
                     (session n) in
          if negb (truthy_str (req_initialStreamUrl r)) then
            Some {| session := s;
                    inflight := others ++
                      [{| fetchId := id;
                          req_initialStreamUrl := req_initialStreamUrl r;
                          phase := AwaitStream |}] |}
          else Some {| session := finallyBlock id s; inflight := others |}
      | None => None
      end
  | RecsRejected id error_message =>
      match takeRequest id AwaitRecommendations (inflight n) with
      | Some (_, others) =>
          Some {| session :=
                    finallyBlock id (catchBlock id error_message (session n));
                  inflight := others |}
      | None => None
      end
  | StreamResolved id data =>
      match takeRequest id AwaitStream (inflight n) with
      | Some (_, others) =>
          Some {| session := streamResolved id data (session n);
                  inflight := others |}
      | None => None
      end
  | StreamRejected id error_message =>
      match takeRequest id AwaitStream (inflight n) with
      | Some (_, others) =>
          Some {| session :=
                    finallyBlock id (catchBlock id error_message (session n));
                  inflight := others |}
      | None => None
      end
  end.

Fixpoint run (es : list Event) (n : Net) : option Net :=
  match es with
  | [] => Some n
  | e :: rest =>
      match step e n with
      | Some n' => run rest n'
      | None => None
      end
  end.

End Resolution.

(** *** Effect 2: attaching the active source *)

Local Open Scope Q_scope.

(** [String.prototype.includes]. *)
Definition str_includes (pattern s : string) : bool :=
  match String.index 0 pattern s with Some _ => true | None => false end.

(** [video.play()]: the call is counted and the element leaves the paused
    state.  A rejection by the platform is not modelled: Effect 2 only
    logs it, and the toast [togglePlay] raises for it plays no part in
    the properties below. *)
Definition play (v : Video) : Video :=
  {| currentTime := currentTime v; duration := duration v; paused := false;
     src := src v; loadeddata_once := loadeddata_once v;
     playCalls := S (playCalls v) |}.

Definition pause (v : Video) : Video :=
  {| currentTime := currentTime v; duration := duration v; paused := true;
     src := src v; loadeddata_once := loadeddata_once v;
     playCalls := playCalls v |}.

Definition set_currentTime (x : Q) (v : Video) : Video :=
  {| currentTime := x; duration := duration v; paused := paused v;
     src := src v; loadeddata_once := loadeddata_once v;
     playCalls := playCalls v |}.

(** Giving the element a new resource, by [video.src = url] or by
    [hls.attachMedia(video)], starts its load: the position goes back to
    zero and the duration is unknown until the resource has loaded. *)
Definition load (source : string) (v : Video) : Video :=
  {| currentTime := 0; duration := NaN; paused := paused v;
     src := Some source; loadeddata_once := loadeddata_once v;
     playCalls := playCalls v |}.

Definition addLoadedDataOnce (savedTime : Q) (v : Video) : Video :=
  {| currentTime := currentTime v; duration := duration v; paused := paused v;
     src := src v; loadeddata_once := loadeddata_once v ++ [savedTime];
     playCalls := playCalls v |}.

(** The body of Effect 2, run when [activeStreamUrl] has changed; the
    cleanup of its previous run, [hls.destroy()], goes first. *)
Definition attach (initialTime : option Q) (hlsSupported : bool)
  (s : Session) : Session :=
  let s := set_hls None s in
  match video s with
  | Some v =>
      if truthy_str (activeStreamUrl s) then
        let source := default ""%string (activeStreamUrl s) in
        let savedTime :=
          if Qltb 0 (timeOnSwitchRef s) then timeOnSwitchRef s
          else default 0 initialTime in
        let s := set_timeOnSwitchRef 0 s in
        if str_includes ".m3u8" source && hlsSupported then
          set_hls (Some {| hls_source := source; hls_resume := savedTime |})
            (set_video (Some (load source v)) s)
        else
          set_video (Some (addLoadedDataOnce savedTime (load source v))) s
      else setIsBuffering true s
  | None => setIsBuffering true s
  end.

(** The engine reports MANIFEST_PARSED. *)
Definition manifestParsed (s : Session) : Session :=
  match hls s, video s with
  | Some h, Some v =>
      set_video (Some (play (set_currentTime (hls_resume h) v))) s
  | _, _ => s
  end.

(** The element reports 'loadeddata': every pending one-shot listener
    runs, in the order they were added, and is removed. *)
Definition loadedData (s : Session) : Session :=
  match video s with
  | Some v =>
      let v' :=
        fold_left (fun v savedTime => play (set_currentTime savedTime v))
          (loadeddata_once v)
          {| currentTime := currentTime v; duration := duration v;
             paused := paused v; src := src v; loadeddata_once := [];
             playCalls := playCalls v |} in
      set_video (Some v') s
  | None => s
  end.

(** The event that ends the attach sequence: MANIFEST_PARSED of the
    engine when one was attached, 'loadeddata' of the element otherwise. *)
Definition sourceReady (s : Session) : Session :=
  match hls s with
  | Some _ => manifestParsed s
  | None => loadedData s
  end.

(** *** The quality effect *)

Definition url_differs (u : string) (active : option string) : bool :=
  match active with
  | Some a => negb (u =? a)%string
  | None => true
  end.

Definition qualityEffect (s : Session) : Session :=
  match video s with
  | Some v =>
      if negb (truthy_str (activeQuality s)) then s
      else if (length (streamLinks s) =? 0)%nat then s
      else
        let wanted := default ""%string (activeQuality s) in
        match find (fun link => (quality link =? wanted)%string)
                (streamLinks s) with
        | Some newLink =>
            if url_differs (url newLink) (activeStreamUrl s) then
              (* Save current time to resume playback smoothly *)
              setActiveStreamUrl (Some (url newLink))
                (set_timeOnSwitchRef (currentTime v) s)
            else s
        | None => s
        end
  | None => s
  end.



(** *** Default caption selection *)

Definition defaultSubtitleEffect (userLanguage : string) (s : Session)
  : Session :=
  if (userLanguage =? "ar")%string && (0 <? length (vttTracks s))%nat then
    match find (fun track => (lang track =? "ar")%string) (vttTracks s) with
    | Some arabicTrack => setActiveSubtitleLang (Some "ar"%string) s
    | None => setActiveSubtitleLang None s
    end
  else s.

(** A batch of converted tracks arrives and the effect runs on it. *)
Definition batchProduced (userLanguage : string) (batch : list VttTrack)
  (s : Session) : Session :=
  defaultSubtitleEffect userLanguage (setVttTracks batch s).

(** *** Panels *)

Inductive View := ViewMain | ViewSpeed | ViewQuality | ViewSubtitleSettings.

Record Overlay := {
  showSettingsPanel : bool;
  showSubtitlesPanel : bool;
  isOverlayVisible : bool;
  isRecsFocused : bool;
  view : View                      (* state of SettingsPanel *)
}.

Definition setShowSettingsPanel (b : bool) (o : Overlay) : Overlay :=
  {| showSettingsPanel := b; showSubtitlesPanel := showSubtitlesPanel o;
     isOverlayVisible := isOverlayVisible o;
     isRecsFocused := isRecsFocused o; view := view o |}.

Definition setShowSubtitlesPanel (b : bool) (o : Overlay) : Overlay :=
  {| showSettingsPanel := showSettingsPanel o; showSubtitlesPanel := b;
     isOverlayVisible := isOverlayVisible o;
     isRecsFocused := isRecsFocused o; view := view o |}.

Definition setIsOverlayVisible (b : bool) (o : Overlay) : Overlay :=
  {| showSettingsPanel := showSettingsPanel o;
     showSubtitlesPanel := showSubtitlesPanel o;
     isOverlayVisible := b;
     isRecsFocused := isRecsFocused o; view := view o |}.

Definition setIsRecsFocused (b : bool) (o : Overlay) : Overlay :=
  {| showSettingsPanel := showSettingsPanel o;
     showSubtitlesPanel := showSubtitlesPanel o;
     isOverlayVisible := isOverlayVisible o;
     isRecsFocused := b; view := view o |}.

Definition setView (v : View) (o : Overlay) : Overlay :=
  {| showSettingsPanel := showSettingsPanel o;
     showSubtitlesPanel := showSubtitlesPanel o;
     isOverlayVisible := isOverlayVisible o;
     isRecsFocused := isRecsFocused o; view := v |}.

Definition overlayOnMount : Overlay :=
  {| showSettingsPanel := false; showSubtitlesPanel := false;
     isOverlayVisible := true; isRecsFocused := false; view := ViewMain |}.

Inductive PanelCommand :=
| SettingsClick              (* onSettingsClick *)
| SubtitlesClick             (* onSubtitlesClick *)
| SubtitlesClose             (* onClose of SubtitlesPanel *)
| SettingsBack               (* onClose handed to SidePanel by SettingsPanel *)
| SelectView (v : View)      (* a button of the settings panel *)
| ViewResetTimer.            (* the 300 ms timer set when the panel hides *)

Definition panelStep (c : PanelCommand) (o : Overlay) : Overlay :=
  match c with
  | SettingsClick =>
      setShowSubtitlesPanel false
        (setShowSettingsPanel (negb (showSettingsPanel o)) o)
  | SubtitlesClick =>
      setShowSettingsPanel false
        (setShowSubtitlesPanel (negb (showSubtitlesPanel o)) o)
  | SubtitlesClose => setShowSubtitlesPanel false o
  | SettingsBack =>
      match view o with
      | ViewMain => setShowSettingsPanel false o
      | _ => setView ViewMain o
      end
  | SelectView v => setView v o
  | ViewResetTimer => setView ViewMain o
  end.

Definition panelRun (cs : list PanelCommand) (o : Overlay) : Overlay :=
  fold_left (fun o c => panelStep c o) cs o.

(** *** The key handler of the player *)

(** Where [document.activeElement] lies: an index into the focusables of
    the info block, of the controls row or of the recommendations row, the
    progress bar, another element, or the body. *)
Inductive Region :=
| InInfo (i : nat)
| InControls (i : nat)
| OnProgressBar
| InRecs (i : nat)
| OtherElement (isInput : bool)
| Body.

(** How many focusables each panel holds at the time of the keypress. *)
Record Layout := {
  infoCount : nat;
  controlsCount : nat;
  recsCount : nat;
  progressMounted : bool
}.

Record Ui := { overlay : Overlay; media : option Video; active : Region }.

Definition with_overlay (o : Overlay) (u : Ui) : Ui :=
  {| overlay := o; media := media u; active := active u |}.
Definition with_media (m : option Video) (u : Ui) : Ui :=
  {| overlay := overlay u; media := m; active := active u |}.
Definition with_active (r : Region) (u : Ui) : Ui :=
  {| overlay := overlay u; media := media u; active := r |}.

(** [list[i]?.focus()]. *)
Definition focusAt (mk : nat -> Region) (count i : nat) (u : Ui) : Ui :=
  if (i <? count)%nat then with_active (mk i) u else u.

(** [progressFocusable?.focus()]. *)
Definition focusProgress (lay : Layout) (u : Ui) : Ui :=
  if progressMounted lay then with_active OnProgressBar u else u.

Definition togglePlay (u : Ui) : Ui :=
  if showSettingsPanel (overlay u) || showSubtitlesPanel (overlay u) then u
  else
    match media u with
    | Some v => with_media (Some (if paused v then play v else pause v)) u
    | None => u
    end.

(** [Math.min] and [Math.max] at the arguments [seek] gives them. *)
Definition math_min (d : Duration) (x : Q) : Duration :=
  match d with
  | NaN => NaN
  | PosInfinity => Finite x
  | Finite y => Finite (Qmin y x)
  end.

Definition math_max (x : Q) (d : Duration) : Duration :=
  match d with
  | NaN => NaN
  | PosInfinity => PosInfinity
  | Finite y => Finite (Qmax x y)
  end.

(** [video.currentTime = value]: a value that is not finite raises a
    TypeError and leaves the position as it was. *)
Definition assignCurrentTime (value : Duration) (v : Video) : Video :=
  match value with
  | Finite x => set_currentTime x v
  | _ => v
  end.

Definition seek (offset : Q) (u : Ui) : Ui :=
  match media u with
  | Some v =>
      with_media
        (Some (assignCurrentTime
                 (math_max 0 (math_min (duration v) (currentTime v + offset)))
                 v)) u
  | None => u
  end.

Definition handledKeys : list string :=
  ["ArrowUp"; "ArrowDown"; "ArrowLeft"; "ArrowRight"; "Enter"; " "]%string.

Definition inTopTier (r : Region) : bool :=
  match r with InInfo _ | InControls _ => true | _ => false end.

Definition isInputElement (r : Region) : bool :=
  match r with OtherElement b => b | _ => false end.

Definition playerKeyDown (lay : Layout) (key : string) (u : Ui) : Ui :=
  let o := overlay u in
  if showSettingsPanel o || showSubtitlesPanel o then u
  else if negb (isOverlayVisible o) then
    if (key =? "ArrowDown")%string then
      with_overlay (setIsOverlayVisible true o) u
    else if (key =? "Enter")%string || (key =? " ")%string then togglePlay u
    else u
  else if negb (includes handledKeys key) || isInputElement (active u) then u
  else if (key =? "ArrowUp")%string && inTopTier (active u) then
    with_active Body (with_overlay (setIsOverlayVisible false o) u)
  else if (key =? "ArrowUp")%string then
    match active u with
    | InRecs _ =>
        with_overlay (setIsRecsFocused false o) (focusProgress lay u)
    | OnProgressBar => focusAt InInfo (infoCount lay) 0 u
    | _ => u
    end
  else if (key =? "ArrowDown")%string then
    match active u with
    | InInfo _ | InControls _ =>
        with_overlay (setIsRecsFocused false o) (focusProgress lay u)
    | OnProgressBar =>
        with_overlay (setIsRecsFocused true o)
          (focusAt InRecs (recsCount lay) 0 u)
    | _ => u
    end
  else if (key =? "ArrowRight")%string then
    match active u with
    | InInfo _ => focusAt InControls (controlsCount lay) 0 u
    | InControls i => focusAt InControls (controlsCount lay) (S i) u
    | OnProgressBar => seek 5 u
    | InRecs i => focusAt InRecs (recsCount lay) (S i) u
    | _ => u
    end
  else if (key =? "ArrowLeft")%string then
    match active u with
    | InControls i =>
        match i with
        | S j => with_active (InControls j) u
        | O => focusAt InInfo (infoCount lay) 0 u
        end
    | OnProgressBar => seek (-5) u
    | InRecs i =>
        match i with
        | S j => with_active (InRecs j) u
        | O => u
        end
    | _ => u
    end
  else u.

(** *** Effect 3: converting captions *)

(** The object URLs of the page: [live] are those created and not yet
    revoked, [revokeLog] lists the calls of [URL.revokeObjectURL]. *)
Record BlobStore :=
  { nextBlob : nat; live : gset nat; revokeLog : list nat }.

Definition createObjectURL (b : BlobStore) : nat * BlobStore :=
  (nextBlob b,
   {| nextBlob := S (nextBlob b); live := live b ∪ {[ nextBlob b ]};
      revokeLog := revokeLog b |}).

Definition revokeObjectURL (u : nat) (b : BlobStore) : BlobStore :=
  {| nextBlob := nextBlob b; live := live b ∖ {[ u ]};
     revokeLog := revokeLog b ++ [u] |}.

Inductive Await := AwaitFetch | AwaitText | Settled.

(** One run of Effect 3: its variables [active] and [createdUrls], and the
    state of its call of [processSubtitles]: the tracks made so far, the
    descriptors from the current one on, and the pending [await]. *)
Record Pass := {
  active_flag : bool;
  createdUrls : list nat;
  newTracks : list VttTrack;
  remaining : list SubtitleTrack;
  awaiting : Await
}.

Record Captions := {
  passes : list Pass;          (* every run so far, by number *)
  mounted : option nat;        (* the run whose cleanup is still to come *)
  store : BlobStore;
  tracks : list VttTrack       (* the state [vttTracks] *)
}.

Inductive CaptionEvent :=
| SubtitlesChanged (subs : list SubtitleTrack)
| Unmount
| FetchSettled (pass : nat) (ok : option bool)        (* None: rejected *)
| TextSettled (pass : nat) (srtText : option string). (* None: rejected *)

Definition captionsOnMount : Captions :=
  {| passes := []; mounted := None;
     store := {| nextBlob := 0; live := ∅; revokeLog := [] |};
     tracks := [] |}.

(** The cleanup returned by a run. *)
Definition cleanup (i : nat) (c : Captions) : Captions :=
  match passes c !! i with
  | Some p =>
      {| passes :=
           <[ i := {| active_flag := false; createdUrls := createdUrls p;
                      newTracks := newTracks p; remaining := remaining p;
                      awaiting := awaiting p |} ]> (passes c);
         mounted := None;
         store := fold_left (fun b u => revokeObjectURL u b)
                    (createdUrls p) (store c);
         tracks := tracks c |}
  | None => c
  end.

(** The body of the effect for a new [subtitles] array. *)
Definition runEffect3 (subs : list SubtitleTrack) (c : Captions) : Captions :=
  let i := length (passes c) in
  match subs with
  | [] =>
      {| passes := passes c ++
           [{| active_flag := true; createdUrls := []; newTracks := [];
               remaining := []; awaiting := Settled |}];
         mounted := Some i; store := store c; tracks := [] |}
  | _ =>
      {| passes := passes c ++
           [{| active_flag := true; createdUrls := []; newTracks := [];
               remaining := subs; awaiting := AwaitFetch |}];
         mounted := Some i; store := store c; tracks := tracks c |}
  end.

(** [processSubtitles] moves on to the descriptors [rest]: the next
    [fetch], or the end of the loop. *)
Definition continueWith (i : nat) (p : Pass) (created : list nat)
  (made : list VttTrack) (rest : list SubtitleTrack) (b : BlobStore)
  (c : Captions) : Captions :=
  match rest with
  | [] =>
      {| passes :=
           <[ i := {| active_flag := active_flag p; createdUrls := created;
                      newTracks := made; remaining := [];
                      awaiting := Settled |} ]> (passes c);
         mounted := mounted c; store := b;
         tracks := if active_flag p then made else tracks c |}
  | _ =>
      {| passes :=
           <[ i := {| active_flag := active_flag p; createdUrls := created;
                      newTracks := made; remaining := rest;
                      awaiting := AwaitFetch |} ]> (passes c);
         mounted := mounted c; store := b; tracks := tracks c |}
  end.

Definition captionStep (e : CaptionEvent) (c : Captions) : option Captions :=
  match e with
  | SubtitlesChanged subs =>
      Some (runEffect3 subs
              match mounted c with
              | Some i => cleanup i c
              | None => c
              end)
  | Unmount =>
      match mounted c with
      | Some i => Some (cleanup i c)
      | None => None
      end
  | FetchSettled i ok =>
      match passes c !! i with
      | Some p =>
          match awaiting p, remaining p with
          | AwaitFetch, sub :: rest =>
              match ok with
              | Some true =>
                  if active_flag p then
                    Some {| passes :=
                              <[ i := {| active_flag := active_flag p;
                                         createdUrls := createdUrls p;
                                         newTracks := newTracks p;
                                         remaining := remaining p;
                                         awaiting := AwaitText |} ]>
                                (passes c);
                            mounted := mounted c; store := store c;
                            tracks := tracks c |}
                  else
                    Some (continueWith i p (createdUrls p) (newTracks p) rest
                            (store c) c)
              | _ =>
                  Some (continueWith i p (createdUrls p) (newTracks p) rest
                          (store c) c)
              end
          | _, _ => None
          end
      | None => None
      end
  | TextSettled i srtText =>
      match passes c !! i with
      | Some p =>
          match awaiting p, remaining p with
          | AwaitText, sub :: rest =>
              match srtText with
              | Some _ =>
                  let '(vttUrl, b) := createObjectURL (store c) in
                  Some (continueWith i p (createdUrls p ++ [vttUrl])
                          (newTracks p ++
                             [{| lang := language sub; vtt_url := vttUrl;
                                 label := display sub |}])
                          rest b c)
              | None =>
                  Some (continueWith i p (createdUrls p) (newTracks p) rest
                          (store c) c)
              end
          | _, _ => None
          end
      | None => None
      end
  end.

Fixpoint captionRun (es : list CaptionEvent) (c : Captions)
  : option Captions :=
  match es with
  | [] => Some c
  | e :: rest =>
      match captionStep e c with
      | Some c' => captionRun rest c'
      | None => None
      end
  end.

(** Whether the mounted run is suspended at [await res.text()]. *)
Definition readingText (c : Captions) : bool :=
  match mounted c with
  | Some i =>
      match passes c !! i with
      | Some p => match awaiting p with AwaitText => true | _ => false end
      | None => false
      end
  | None => false
  end.

(** A schedule is calm when the descriptors change, and the player
    unmounts, only while no caption text is being read. *)
Definition calm (e : CaptionEvent) (c : Captions) : bool :=
  match e with
  | SubtitlesChanged _ | Unmount => negb (readingText c)
  | _ => true
  end.

Fixpoint calmRun (es : list CaptionEvent) (c : Captions) : option Captions :=
  match es with
  | [] => Some c
  | e :: rest =>
      if calm e c then
        match captionStep e c with
        | Some c' => calmRun rest c'
        | None => None
        end
      else None
  end.

End Player.

(** ** src/App.tsx: sequences of keypresses *)

Module Keys.
Import JS App.

(** One keydown event: the time since the event before it, the document
    it is handled against, and [e.key]. *)
Record KeyEvent := { gap : nat; doc : Dom; key : string }.

(** The listener over a sequence of events that starts at time [now]:
    before each event the timers that are due run; the effects of all
    events are collected in order. *)
Fixpoint handleKeys (now : nat) (events : list KeyEvent) (s : State)
  : State * list Effect :=
  match events with
  | [] => (s, [])
  | e :: rest =>
      let now' := (now + gap e)%nat in
      let r := handleKeyDown now' (doc e) (key e) (advance now' s) in
      let r' := handleKeys now' rest (fst r) in
      (fst r', snd r ++ snd r')
  end.

End Keys.


(** ** src/components/Player.tsx: the time labels *)

Module Clock.
Import JS Player.
Local Open Scope Q_scope.

(** A number that may be [NaN]: a component of a date. *)
Definition Component := option Z.

(** [Number.prototype.toString] on what a date component can be: [NaN]
    or an integer that is not negative. *)
Definition toString (c : Component) : string :=
  match c with
  | Some z => NilEmpty.string_of_uint (N.to_uint (Z.to_N z))
  | None => "NaN"
  end.

(** [String.prototype.padStart] with a filler of one character. *)
Definition padStart (targetLength : nat) (fill : Ascii.ascii) (s : string)
  : string :=
  string_of_list_ascii (repeat fill (targetLength - String.length s)) +:+ s.

(** [seconds * 1000]. *)
Definition times1000 (seconds : Duration) : Duration :=
  match seconds with
  | Finite q => Finite (q * 1000)
  | other => other
  end.

(** [new Date(value)]: the time value is [NaN] when [value] is not
    finite or lies more than 8.64e15 ms from the epoch, and [value]
    truncated to an integer otherwise. *)
Definition newDate (value : Duration) : Component :=
  match value with
  | Finite q =>
      if Qltb 8640000000000000 (Qabs q) then None
      else Some (Z.quot (Qnum q) (Z.pos (Qden q)))
  | _ => None
  end.

Definition getUTCHours (date : Component) : Component :=
  option_map (fun t => ((t / 3600000) mod 24)%Z) date.
Definition getUTCMinutes (date : Component) : Component :=
  option_map (fun t => ((t / 60000) mod 60)%Z) date.
Definition getUTCSeconds (date : Component) : Component :=
  option_map (fun t => ((t / 1000) mod 60)%Z) date.

(** [isNaN(seconds) || seconds < 0]. *)
Definition notATime (seconds : Duration) : bool :=
  match seconds with
  | NaN => true
  | PosInfinity => false
  | Finite q => Qltb q 0
  end.

(** [hh > 0]. *)
Definition positive (c : Component) : bool :=
  match c with Some z => (0 <? z)%Z | None => false end.

Definition formatTime (seconds : Duration) : string :=
  if notATime seconds then "00:00"
  else
    let date := newDate (times1000 seconds) in
    let hh := getUTCHours date in
    let mm := padStart 2 "0"%char (toString (getUTCMinutes date)) in
    let ss := padStart 2 "0"%char (toString (getUTCSeconds date)) in
    if positive hh then
      padStart 2 "0"%char (toString hh) +:+ ":" +:+ mm +:+ ":" +:+ ss
    else mm +:+ ":" +:+ ss.

End Clock.

(** ** src/components/Player.tsx: the focus trap of a side panel *)

Module Trap.
Import JS.
Local Open Scope Z_scope.

(** What the handler observes of a descendant of the panel. *)
Record Descendant := {
  node : nat;               (* identity of the node *)
  selected : bool;          (* matches the selector of the query *)
  hasDisabled : bool        (* hasAttribute('disabled') *)
}.

Inductive Effect :=
| StopPropagation
| OnClose                   (* onCloseRef.current() *)
| PreventDefault
| Focus (n : nat).

(** [querySelectorAll(...)] filtered by the absence of [disabled]. *)
Definition focusableElements (panel : list Descendant) : list nat :=
  map node
    (List.filter (fun el => negb (hasDisabled el))
       (List.filter selected panel)).

(** [Array.prototype.indexOf] with an element that may be [null]. *)
Fixpoint indexFrom (i : Z) (x : nat) (l : list nat) : Z :=
  match l with
  | [] => -1
  | y :: rest => if (y =? x)%nat then i else indexFrom (i + 1) x rest
  end.

Definition indexOf (x : option nat) (l : list nat) : Z :=
  match x with
  | Some n => indexFrom 0 n l
  | None => -1
  end.

(** [document.activeElement === el]. *)
Definition isActive (activeElement : option nat) (el : nat) : bool :=
  match activeElement with
  | Some n => (n =? el)%nat
  | None => false
  end.

(** [list[i]?.focus()]. *)
Definition focusAt (l : list nat) (i : Z) : list Effect :=
  if i <? 0 then []
  else match l !! Z.to_nat i with
       | Some el => [Focus el]
       | None => []
       end.

Definition handleKeyDown (panel : list Descendant)
  (activeElement : option nat) (key : string) (shiftKey : bool)
  : list Effect :=
  StopPropagation ::
  let focusableElements := focusableElements panel in
  match focusableElements with
  | [] => []
  | firstElement :: _ =>
      let lastElement := List.last focusableElements firstElement in
      let currentIndex := indexOf activeElement focusableElements in
      let len := Z.of_nat (length focusableElements) in
      if (key =? "Escape")%string then [OnClose]
      else if (key =? "Tab")%string then
        if shiftKey then
          if isActive activeElement firstElement
          then [PreventDefault; Focus lastElement] else []
        else
          if isActive activeElement lastElement
          then [PreventDefault; Focus firstElement] else []
      else if (key =? "ArrowDown")%string || (key =? "ArrowUp")%string then
        PreventDefault ::
        if currentIndex =? -1 then [Focus firstElement]
        else if (key =? "ArrowDown")%string then
          focusAt focusableElements (Z.rem (currentIndex + 1) len)
        else
          focusAt focusableElements
            (Z.rem (currentIndex - 1 + len) len)
      else []
  end.

(** The focused element once the effects have run. *)
Definition focusAfter (activeElement : option nat) (effects : list Effect)
  : option nat :=
  fold_left (fun a e => match e with Focus n => Some n | _ => a end)
    effects activeElement.

(** A sequence of arrow keys on a panel that does not change. *)
Definition press (panel : list Descendant) (keys : list string)
  (activeElement : option nat) : option nat :=
  fold_left
    (fun a key => focusAfter a (handleKeyDown panel a key false))
    keys activeElement.

End Trap.

(** ** src/components/Player.tsx: seeking with the pointer *)

Module Pointer.
Import JS.
Local Open Scope Q_scope.

(** A JavaScript number.  The sign of a zero is not kept: the zeros that
    reach a division here are a width and a difference, both [+0]. *)
Inductive Number := NaN | NegInfinity | PosInfinity | Finite (q : Q).

(** The sign of a finite number as an order. *)
Definition sign (q : Q) : comparison := q ?= 0.

(** [x / y]. *)
Definition div (x y : Number) : Number :=
  match x, y with
  | NaN, _ | _, NaN => NaN
  | Finite a, Finite b =>
      match sign b with
      | Eq =>
          match sign a with
          | Eq => NaN
          | Gt => PosInfinity
          | Lt => NegInfinity
          end
      | _ => Finite (a / b)
      end
  | Finite _, _ => Finite 0
  | PosInfinity, Finite b =>
      match sign b with Lt => NegInfinity | _ => PosInfinity end
  | NegInfinity, Finite b =>
      match sign b with Lt => PosInfinity | _ => NegInfinity end
  | _, _ => NaN
  end.

(** [x * y]. *)
Definition mul (x y : Number) : Number :=
  let scale (positive : bool) (q : Q) :=
    match sign q with
    | Eq => NaN
    | Gt => if positive then PosInfinity else NegInfinity
    | Lt => if positive then NegInfinity else PosInfinity
    end in
  match x, y with
  | NaN, _ | _, NaN => NaN
  | Finite a, Finite b => Finite (a * b)
  | Finite a, PosInfinity | PosInfinity, Finite a => scale true a
  | Finite a, NegInfinity | NegInfinity, Finite a => scale false a
  | PosInfinity, PosInfinity | NegInfinity, NegInfinity => PosInfinity
  | _, _ => NegInfinity
  end.

(** [Math.min(x, y)] and [Math.max(x, y)]. *)
Definition min (x y : Number) : Number :=
  match x, y with
  | NaN, _ | _, NaN => NaN
  | NegInfinity, _ | _, NegInfinity => NegInfinity
  | PosInfinity, other | other, PosInfinity => other
  | Finite a, Finite b => Finite (Qmin a b)
  end.

Definition max (x y : Number) : Number :=
  match x, y with
  | NaN, _ | _, NaN => NaN
  | PosInfinity, _ | _, PosInfinity => PosInfinity
  | NegInfinity, other | other, NegInfinity => other
  | Finite a, Finite b => Finite (Qmax a b)
  end.

(** [duration === 0]. *)
Definition isZero (x : Number) : bool :=
  match x with
  | Finite q => match sign q with Eq => true | _ => false end
  | _ => false
  end.

(** What a call of the handler does: whether the event was stopped,
    the media element afterwards, and whether the assignment of
    [currentTime] raised a TypeError for a value that is not finite. *)
Record Outcome := {
  stopped : bool;
  element : option Player.Video;
  typeError : bool
}.

(** [progressBar] tells whether [progressBarRef.current] is set;
    [left] and [width] are those of its bounding rectangle; [video] is
    the element found from the bar, if any. *)
Definition handleProgressInteraction (progressBar : bool)
  (duration : Number) (clientX left width : Q)
  (video : option Player.Video) : Outcome :=
  if negb progressBar || isZero duration then
    {| stopped := false; element := video; typeError := false |}
  else
    let clickX := clientX - left in
    let newTime := mul (div (Finite clickX) (Finite width)) duration in
    let newTime := max (Finite 0) (min newTime duration) in
    match video with
    | Some v =>
        match newTime with
        | Finite x =>
            {| stopped := true;
               element := Some (Player.set_currentTime x v);
               typeError := false |}
        | _ => {| stopped := true; element := video; typeError := true |}
        end
    | None => {| stopped := true; element := None; typeError := false |}
    end.

End Pointer.

(** ** src/components/Player.tsx: from SubRip to WebVTT *)

Module Vtt.
Local Open Scope N_scope.

(** A string is the list of its UTF-16 code units, which is what the
    regular expressions of [processSrtToVtt] work on. *)
Definition Text := list N.

(** [\d]. *)
Definition isDigit (c : N) : bool := (48 <=? c) && (c <=? 57).

(** [\s]: the white space and the line terminators of ECMAScript. *)
Definition isSpace (c : N) : bool :=
  existsb (N.eqb c)
    [9; 10; 11; 12; 13; 32; 160; 5760; 8232; 8233; 8239; 8287; 12288;
     65279]
  || ((8192 <=? c) && (c <=? 8202)).

(** A sequence of classes, each matching one unit: what is matched at
    the head of the text, and what follows. *)
Fixpoint units (classes : list (N -> bool)) (l : Text)
  : option (Text * Text) :=
  match classes with
  | [] => Some ([], l)
  | class :: classes =>
      match l with
      | c :: rest =>
          if class c then
            match units classes rest with
            | Some (matched, rest) => Some (c :: matched, rest)
            | None => None
            end
          else None
      | [] => None
      end
  end.

(** [\d{2}:\d{2}:\d{2}[,.]\d{3}]. *)
Definition timestampClasses : list (N -> bool) :=
  [isDigit; isDigit; N.eqb 58; isDigit; isDigit; N.eqb 58; isDigit; isDigit;
   (fun c => (c =? 44) || (c =? 46)); isDigit; isDigit; isDigit].

Definition timestamp (l : Text) : option (Text * Text) :=
  units timestampClasses l.

(** [\s*]: what is left after the longest run of white space.  The
    star is greedy, and in this expression what follows it is never
    white space, so giving back part of the run cannot help a match. *)
Fixpoint spaces (l : Text) : Text :=
  match l with
  | c :: rest => if isSpace c then spaces rest else l
  | [] => []
  end.

(** [-->]. *)
Definition arrow (l : Text) : option Text :=
  option_map snd (units [N.eqb 45; N.eqb 45; N.eqb 62] l).

(** [srtTimestampLineRegex] at the head of the text: the two groups
    and what follows the match. *)
Definition srtTimestampLineRegex (l : Text) : option (Text * Text * Text) :=
  match timestamp l with
  | Some (s, afterStart) =>
      match arrow (spaces afterStart) with
      | Some afterArrow =>
          match timestamp (spaces afterArrow) with
          | Some (e, rest) => Some (s, e, rest)
          | None => None
          end
      | None => None
      end
  | None => None
  end.

(** [x.replace(',', '.')]: the first comma only. *)
Fixpoint replaceComma (x : Text) : Text :=
  match x with
  | [] => []
  | c :: rest => if c =? 44 then 46 :: rest else c :: replaceComma rest
  end.

(** The replacer: [`${s.replace(',', '.')} --> ${e.replace(',', '.')}`]. *)
Definition replacer (s e : Text) : Text :=
  replaceComma s ++ [32; 45; 45; 62; 32] ++ replaceComma e.

(** [text.replace(srtTimestampLineRegex, replacer)] with the flag [g]:
    the matches are looked for from left to right, each search
    starting where the previous match ended.  [fuel] bounds the number
    of positions visited. *)
Fixpoint replaceFrom (fuel : nat) (l : Text) : Text :=
  match fuel with
  | O => l
  | S fuel =>
      match l with
      | [] => []
      | c :: tail =>
          match srtTimestampLineRegex l with
          | Some (s, e, rest) => replacer s e ++ replaceFrom fuel rest
          | None => c :: replaceFrom fuel tail
          end
      end
  end.

Definition replaceTimestampLines (text : Text) : Text :=
  replaceFrom (length text) text.

(** [text.replace(/\r/g, '')]. *)
Definition removeCarriageReturns (text : Text) : Text :=
  List.filter (fun c => negb (c =? 13)) text.

(** "WEBVTT\n\n". *)
Definition header : Text := [87; 69; 66; 86; 84; 84; 10; 10].

(** The content of the blob [processSrtToVtt] makes. *)
Definition vttContent (srtText : Text) : Text :=
  header ++ replaceTimestampLines (removeCarriageReturns srtText).

End Vtt.

(** ** src/App.tsx: the glow behind the focused card *)

Module Glow.
Import JS.

(** What [handleFocusIn] observes of the element that took the focus:
    its identity, and of [target.closest('.focusable')], if there is
    one, the identity and the [src] of its first [img], if it has one.
    The position of the glow, which the handler also sets, is left
    out.  [extractColorFromImage] is called for URLs that are not in
    the cache only, so its answer from the cache is never taken. *)
Record Card := { card_node : nat; img_src : option string }.
Record Target := { target_node : nat; focusableCard : option Card }.

(** An image being loaded by [extractColorFromImage], with what the
    continuation of [handleFocusIn] has captured. *)
Record Load := {
  load_id : nat;
  imageUrl : string;
  target : nat;
  card : nat
}.

Record State := {
  colorCache : gmap string string;
  glowColor : option string;        (* the CSS variable --glow-color *)
  glowActive : bool;                (* the class glow-active of the body *)
  activeElement : option nat;       (* document.activeElement *)
  loading : list Load;
  nextLoad : nat
}.

Definition initial : State :=
  {| colorCache := ∅; glowColor := None; glowActive := false;
     activeElement := None; loading := []; nextLoad := 0 |}.

Definition defaultColor : string := "rgba(128, 128, 128, 0.2)".

(** A component of a pixel as a decimal numeral. *)
Definition decimal (n : N) : string :=
  NilEmpty.string_of_uint (N.to_uint n).

(** [`rgba(${data[0]}, ${data[1]}, ${data[2]}, 0.75)`]. *)
Definition rgba (r g b : N) : string :=
  "rgba(" +:+ decimal r +:+ ", " +:+ decimal g +:+ ", " +:+ decimal b
    +:+ ", 0.75)".

(** [colorCache.get(imageUrl) || defaultColor]. *)
Definition immediateColor (cache : gmap string string) (imageUrl : string)
  : string :=
  match cache !! imageUrl with
  | Some color => if truthy_str (Some color) then color else defaultColor
  | None => defaultColor
  end.

(** The element takes the focus, then [handleFocusIn] runs. *)
Definition handleFocusIn (t : Target) (s : State) : State :=
  let focused := Some (target_node t) in
  match focusableCard t with
  | Some c =>
      match img_src c with
      | Some src =>
          if truthy_str (Some src) then
            let cached := bool_decide (is_Some (colorCache s !! src)) in
            {| colorCache := colorCache s;
               glowColor := Some (immediateColor (colorCache s) src);
               glowActive := true;
               activeElement := focused;
               loading :=
                 if cached then loading s
                 else loading s ++
                      [{| load_id := nextLoad s; imageUrl := src;
                          target := target_node t; card := card_node c |}];
               nextLoad := if cached then nextLoad s else S (nextLoad s) |}
          else
            {| colorCache := colorCache s; glowColor := Some defaultColor;
               glowActive := true; activeElement := focused;
               loading := loading s; nextLoad := nextLoad s |}
      | None =>
          {| colorCache := colorCache s; glowColor := glowColor s;
             glowActive := false; activeElement := focused;
             loading := loading s; nextLoad := nextLoad s |}
      end
  | None =>
      {| colorCache := colorCache s; glowColor := glowColor s;
         glowActive := false; activeElement := focused;
         loading := loading s; nextLoad := nextLoad s |}
  end.

(** The element loses the focus, then [handleFocusOut] runs. *)
Definition handleFocusOut (s : State) : State :=
  {| colorCache := colorCache s; glowColor := glowColor s;
     glowActive := false; activeElement := None;
     loading := loading s; nextLoad := nextLoad s |}.

(** The continuation [then] of [handleFocusIn]. *)
Definition applyColor (l : Load) (color : string) (s : State) : State :=
  let stillFocused :=
    match activeElement s with
    | Some n => (n =? target l)%nat || (n =? card l)%nat
    | None => false
    end in
  {| colorCache := colorCache s;
     glowColor := if stillFocused then Some color else glowColor s;
     glowActive := glowActive s; activeElement := activeElement s;
     loading := loading s; nextLoad := nextLoad s |}.

Definition setCache (imageUrl color : string) (s : State) : State :=
  {| colorCache := <[ imageUrl := color ]> (colorCache s);
     glowColor := glowColor s; glowActive := glowActive s;
     activeElement := activeElement s; loading := loading s;
     nextLoad := nextLoad s |}.

Definition settle (id : nat) (s : State) : State :=
  {| colorCache := colorCache s; glowColor := glowColor s;
     glowActive := glowActive s; activeElement := activeElement s;
     loading := List.filter (fun l => negb (load_id l =? id)%nat) (loading s);
     nextLoad := nextLoad s |}.

Inductive Event :=
| FocusIn (t : Target)
| FocusOut
| ImageLoaded (id : nat) (r g b : N)      (* img.onload, with the pixel *)
| ImageFailed (id : nat).                 (* img.onerror *)

(** One event; [context] tells whether the 2d context of the canvas
    exists.  [None] when no image with that id is being loaded. *)
Definition step (context : bool) (e : Event) (s : State) : option State :=
  match e with
  | FocusIn t => Some (handleFocusIn t s)
  | FocusOut => Some (handleFocusOut s)
  | ImageLoaded id r g b =>
      match List.find (fun l => (load_id l =? id)%nat) (loading s) with
      | Some l =>
          if context then
            Some (applyColor l (rgba r g b)
                    (setCache (imageUrl l) (rgba r g b) (settle id s)))
          else Some (settle id s)       (* reject: the error is logged *)
      | None => None
      end
  | ImageFailed id =>
      match List.find (fun l => (load_id l =? id)%nat) (loading s) with
      | Some l =>
          Some (applyColor l defaultColor
                  (setCache (imageUrl l) defaultColor (settle id s)))
      | None => None
      end
  end.

Fixpoint run (context : bool) (es : list Event) (s : State)
  : option State :=
  match es with
  | [] => Some s
  | e :: rest =>
      match step context e s with
      | Some s' => run context rest s'
      | None => None
      end
  end.

End Glow.

(** ** src/components/Player.tsx: showing and hiding a side panel *)

Module Slide.

(** The state of a [SidePanel]: the prop [show], the two state
    variables, and the timer of the exit animation when the last run of
    the first effect has set one that has neither run nor been
    cleared, with the time it is due. *)
Record Panel := {
  show : bool;
  isRendered : bool;
  isAnimatingOut : bool;
  timer : option nat;
  now : nat
}.

(** The cleanup of the effect, [clearTimeout(timer)], and then its
    body, for the values of the render it belongs to. *)
Definition effect (p : Panel) : Panel :=
  if show p then
    {| show := show p; isRendered := true; isAnimatingOut := false;
       timer := None; now := now p |}
  else if isRendered p then
    {| show := show p; isRendered := isRendered p; isAnimatingOut := true;
       timer := Some (now p + 300); now := now p |}
  else
    {| show := show p; isRendered := isRendered p;
       isAnimatingOut := isAnimatingOut p; timer := None; now := now p |}.

(** The effect depends on [show] and [isRendered]: it runs again when
    its own run has changed [isRendered]. *)
Definition commit (p : Panel) : Panel :=
  let p' := effect p in
  if Bool.eqb (isRendered p') (isRendered p) then p' else effect p'.

(** The component mounts. *)
Definition mount (show : bool) (now : nat) : Panel :=
  commit {| show := show; isRendered := false; isAnimatingOut := false;
            timer := None; now := now |}.

(** The parent renders the panel with a new value of [show]. *)
Definition setShow (b : bool) (p : Panel) : Panel :=
  if Bool.eqb b (show p) then p
  else commit {| show := b; isRendered := isRendered p;
                 isAnimatingOut := isAnimatingOut p; timer := timer p;
                 now := now p |}.

(** The callback of the timer, and the effect that the change of
    [isRendered] brings about. *)
Definition timeout (p : Panel) : Panel :=
  commit {| show := show p; isRendered := false; isAnimatingOut := false;
            timer := None; now := now p |}.

(** Time passes; the timer runs once it is due. *)
Definition wait (d : nat) (p : Panel) : Panel :=
  let p' := {| show := show p; isRendered := isRendered p;
               isAnimatingOut := isAnimatingOut p; timer := timer p;
               now := now p + d |} in
  match timer p with
  | Some due => if due <=? now p + d then timeout p' else p'
  | None => p'
  end.

Inductive Event := SetShow (b : bool) | Wait (d : nat).

Definition step (e : Event) (p : Panel) : Panel :=
  match e with
  | SetShow b => setShow b p
  | Wait d => wait d p
  end.

Definition run (es : list Event) (p : Panel) : Panel :=
  fold_left (fun p e => step e p) es p.

(** Whether the component returns the panel rather than [null], and
    whether the second effect has its key handler on the document. *)
Definition inDocument (p : Panel) : bool := isRendered p.
Definition trapping (p : Panel) : bool :=
  isRendered p && negb (isAnimatingOut p).

End Slide.

(** ** src/pages/YouPage.tsx: films of the followed actors *)

Module You.
Import JS.
Local Open Scope Q_scope.

(** A film credit as the carousel reads it. *)
Record Credit := {
  id : nat;
  title : string;
  poster_path : option string;
  popularity : Q
}.

(** [res.cast || []]. *)
Definition castOf (res : option (list Credit)) : list Credit :=
  match res with Some cast => cast | None => [] end.

(** [Array.prototype.sort] with the comparator
    [(a, b) => b.popularity - a.popularity].  The sort is stable, and
    with finite popularities the comparator is a total preorder, so the
    result is the one of any stable sort: here, insertion from the
    right. *)
Fixpoint insert (a : Credit) (sorted : list Credit) : list Credit :=
  match sorted with
  | [] => [a]
  | b :: rest =>
      if Qle_bool (popularity b) (popularity a) then a :: sorted
      else b :: insert a rest
  end.

Definition sort (l : list Credit) : list Credit := fold_right insert [] l.

(** [Map.prototype.set] on the entries in insertion order: the value
    of a key that is present is replaced where it stands. *)
Fixpoint mapSet (key : nat) (value : Credit) (m : list (nat * Credit))
  : list (nat * Credit) :=
  match m with
  | [] => [(key, value)]
  | (k, v) :: rest =>
      if (k =? key)%nat then (k, value) :: rest
      else (k, v) :: mapSet key value rest
  end.

(** [new Map(entries)]. *)
Definition newMap (entries : list (nat * Credit)) : list (nat * Credit) :=
  fold_left (fun m entry => mapSet (fst entry) (snd entry) m) entries [].

Definition allMovies (results : list (option (list Credit)))
  : list Credit :=
  sort (List.filter (fun m => truthy_str (poster_path m))
          (flat_map castOf results)).

(** What [setMovies] receives. *)
Definition uniqueMovies (results : list (option (list Credit)))
  : list Credit :=
  firstn 10
    (map snd (newMap (map (fun m => (id m, m)) (allMovies results)))).

End You.

(** * Properties *)

(** ** The global key handler *)

Module AppProps.
Import JS App.
Local Open Scope Q_scope.

Lemma Qltb_lt (x y : Q) : Qltb x y = true <-> x < y.
Proof.
  unfold Qltb. rewrite Qlt_alt.
  destruct (x ?= y); split; congruence.
Qed.

Lemma Qltb_ge (x y : Q) : Qltb x y = false <-> y <= x.
Proof.
  split; intros H.
  - apply Qnot_lt_le. intros L. apply Qltb_lt in L. congruence.
  - destruct (Qltb x y) eqn:E; [|reflexivity].
    apply Qltb_lt in E. exfalso. apply (Qlt_not_le _ _ E H).
Qed.

Lemma Qltb_ext (x x' y y' : Q) : x == x' -> y == y' -> Qltb x y = Qltb x' y'.
Proof.
  intros Hx Hy. unfold Qltb. now rewrite Hx, Hy.
Qed.

(** *** The first minimum *)

Section FirstMin.
Context {A : Type} (f : A -> Q).

Lemma firstMin_None (l : list A) : firstMin f l = None <-> l = [].
Proof.
  destruct l as [|x l]; cbn; [tauto|].
  destruct (firstMin f l); [destruct (Qltb _ _)|]; split; congruence.
Qed.

(** [firstMin] returns an element that splits the list into strictly
    costlier predecessors and successors that are not cheaper. *)
Lemma firstMin_split (l : list A) (b : A) :
  firstMin f l = Some b ->
  exists l1 l2, l = l1 ++ b :: l2
    /\ Forall (fun c => f b < f c) l1
    /\ Forall (fun c => f b <= f c) l2.
Proof.
  revert b. induction l as [|x l IH]; cbn; intros b H; [discriminate|].
  destruct (firstMin f l) as [y|] eqn:E.
  - destruct (IH y eq_refl) as (l1 & l2 & -> & H1 & H2).
    destruct (Qltb (f y) (f x)) eqn:L; injection H as <-.
    + apply Qltb_lt in L.
      exists (x :: l1), l2. repeat split; auto.
    + apply Qltb_ge in L.
      exists [], (l1 ++ y :: l2). repeat split; auto.
      apply Forall_app. split.
      * eapply List.Forall_impl; [|exact H1]. cbn. intros c Hc.
        apply Qlt_le_weak. eapply Qle_lt_trans; eauto.
      * constructor; auto.
        eapply List.Forall_impl; [|exact H2]. cbn. intros c Hc.
        eapply Qle_trans; eauto.
  - injection H as <-. apply firstMin_None in E. subst l.
    exists [], []. repeat split; auto.
Qed.


End FirstMin.

Lemma firstMin_ext {A} (f g : A -> Q) (l : list A) :
  (forall x, f x == g x) -> firstMin f l = firstMin g l.
Proof.
  intros E. induction l as [|x l IH]; cbn; [reflexivity|].
  rewrite IH. destruct (firstMin g l) as [y|]; [|reflexivity].
  now rewrite (Qltb_ext _ (g y) _ (g x)).
Qed.


Lemma firstMin_le {A} (f : A -> Q) (l : list A) (r : A) :
  firstMin f l = Some r -> Forall (fun c => f r <= f c) l.
Proof.
  intros H. apply firstMin_split in H.
  destruct H as (l1 & l2 & -> & H1 & H2).
  apply Forall_app. split.
  - eapply List.Forall_impl; [|exact H1]. cbn. intros c. apply Qlt_le_weak.
  - constructor; [apply Qle_refl|exact H2].
Qed.

(** *** The loop of [handleKeyDown] *)

(** The distance the loop computes for a candidate that passed the test
    of its direction. *)
Definition distance (d : Direction) (cur cand : Element) : Q :=
  match d with
  | Right => Qabs (deltaY cur cand) * 2 + deltaX cur cand
  | Left => Qabs (deltaY cur cand) * 2 + Qabs (deltaX cur cand)
  | Down => Qabs (deltaX cur cand) * 2 + deltaY cur cand
  | Up => Qabs (deltaX cur cand) * 2 + Qabs (deltaY cur cand)
  end.

Lemma distance_cost d cur cand : distance d cur cand == cost d cur cand.
Proof. destruct d; cbn; ring. Qed.

Lemma scan_direction d cur acc c :
  scan (keyOf d) cur acc c =
  if negb (same_node c cur) && halfPlane d cur c
  then improve c (distance d cur c) acc else acc.
Proof.
  unfold scan. destruct (same_node c cur); [reflexivity|].
  destruct d; cbn; reflexivity.
Qed.

Section Loop.
Context {A : Type} (p : A -> bool) (f : A -> Q).

Definition visit (acc : option A * option Q) (x : A) : option A * option Q :=
  if p x
  then (if below (f x) (snd acc) then (Some x, Some (f x)) else acc)
  else acc.

Definition consistent (acc : option A * option Q) : Prop :=
  snd acc = option_map f (fst acc).

Lemma firstMin_drop_head (x y : A) (R : list A) :
  f x < f y -> firstMin f (y :: x :: R) = firstMin f (x :: R).
Proof.
  intros L. change (firstMin f (y :: x :: R)) with
    (match firstMin f (x :: R) with
     | Some r => if Qltb (f r) (f y) then Some r else Some y
     | None => Some y
     end).
  destruct (firstMin f (x :: R)) as [r|] eqn:E.
  - apply firstMin_le in E. inversion E as [|? ? Hr _]; subst.
    assert (f r < f y) as Hlt by (eapply Qle_lt_trans; eauto).
    apply Qltb_lt in Hlt. now rewrite Hlt.
  - apply firstMin_None in E. discriminate.
Qed.

Lemma firstMin_drop_second (x y : A) (R : list A) :
  f y <= f x -> firstMin f (y :: x :: R) = firstMin f (y :: R).
Proof.
  intros L. cbn. destruct (firstMin f R) as [r|].
  - destruct (Qltb (f r) (f x)) eqn:E1; [reflexivity|].
    apply Qltb_ge in E1.
    assert (Qltb (f x) (f y) = false) as -> by now apply Qltb_ge.
    assert (Qltb (f r) (f y) = false) as ->; [|reflexivity].
    apply Qltb_ge. eapply Qle_trans; eauto.
  - assert (Qltb (f x) (f y) = false) as -> by now apply Qltb_ge.
    reflexivity.
Qed.

Lemma fold_visit (l : list A) (acc : option A * option Q) :
  consistent acc ->
  fst (fold_left visit l acc) =
  firstMin f (match fst acc with Some y => [y] | None => [] end
              ++ List.filter p l).
Proof.
  revert acc. induction l as [|x l IH]; intros [b m] Hc;
    unfold consistent in Hc; cbn in Hc; subst m.
  - cbn. destruct b; reflexivity.
  - cbn [fold_left List.filter]. unfold visit at 2.
    destruct (p x) eqn:Px; [|now apply IH].
    destruct b as [y|]; cbn [snd option_map below fst].
    + destruct (Qltb (f x) (f y)) eqn:L.
      * rewrite IH by reflexivity. cbn [fst app].
        apply Qltb_lt in L. symmetry. now apply firstMin_drop_head.
      * rewrite IH by reflexivity. cbn [fst app].
        apply Qltb_ge in L. symmetry. now apply firstMin_drop_second.
    + rewrite IH by reflexivity. reflexivity.
Qed.

End Loop.

Lemma fold_left_pointwise {A B} (g h : A -> B -> A) (l : list B) (a : A) :
  (forall a b, g a b = h a b) -> fold_left g l a = fold_left h l a.
Proof.
  intros E. revert a. induction l as [|x l IH]; intros a; cbn; [reflexivity|].
  now rewrite E, IH.
Qed.

Lemma filter_andb {A} (p q : A -> bool) (l : list A) :
  List.filter (fun x => p x && q x) l = List.filter q (List.filter p l).
Proof.
  induction l as [|x l IH]; cbn; [reflexivity|].
  destruct (p x); cbn; [destruct (q x)|]; now rewrite IH.
Qed.

(** The loop returns the candidate of the reference algorithm. *)
Lemma bestCandidate_navigatorSpec d cur scope :
  bestCandidate (keyOf d) cur scope = navigatorSpec d cur (focusables scope).
Proof.
  unfold bestCandidate, navigatorSpec, survivors.
  transitivity
    (fst (fold_left
            (visit (fun c => negb (same_node c cur) && halfPlane d cur c)
               (distance d cur))
            (focusables scope) (None, None))).
  - f_equal. apply fold_left_pointwise. intros acc c.
    rewrite scan_direction. reflexivity.
  - rewrite fold_visit by reflexivity. cbn [fst app].
    rewrite filter_andb. apply firstMin_ext, distance_cost.
Qed.

Lemma arrow_key_included d : includes arrowKeys (keyOf d) = true.
Proof. destruct d; reflexivity. Qed.

Lemma arrow_key_not_enter d : (keyOf d =? "Enter")%string = false.
Proof. destruct d; reflexivity. Qed.

(** An arrow key reaches the navigation logic whether or not the cursor
    is armed; an armed cursor is put away on the way. *)
Lemma handleKeyDown_arrow now dom d s :
  handleKeyDown now dom (keyOf d) s =
  (if showTvCursor s then set_showTvCursor false s else s,
   spatialNavigation dom (keyOf d)).
Proof.
  unfold handleKeyDown.
  rewrite arrow_key_not_enter, arrow_key_included.
  destruct (showTvCursor s); reflexivity.
Qed.

(** The example of the specification: A at rect(100,100,50,50), B at
    rect(200,100,50,50), C at rect(160,140,50,50). *)
Definition box (n : nat) (x y w h : Q) : Element :=
  {| node := n; cls_focusable := true; attr_disabled := false;
     visibility_hidden := false; display_none := false;
     rect := {| left := x; top := y; width := w; height := h |};
     is_html_element := true |}.

Definition elA : Element := box 1 100 100 50 50.
Definition elB : Element := box 2 200 100 50 50.
Definition elC : Element := box 3 160 140 50 50.

Definition exampleDom : Dom :=
  {| activeElement := Some elA; document := [elA; elC; elB];
     modal := None; elementFromPoint := fun _ _ => None |}.



(** *** The armed cursor *)

Lemma enqueue_In (t x : Timer) (ts : list Timer) :
  In x (enqueue t ts) <-> x = t \/ In x ts.
Proof.
  induction ts as [|u us IH]; cbn [enqueue In].
  - split; intros [H|H]; try tauto; subst; auto.
  - destruct (deadline t <? deadline u)%nat; cbn [In].
    + split; intros [H|H]; subst; auto.
    + rewrite IH. tauto.
Qed.

Lemma fire_all_clickEffect (ts : list Timer) (s : State) :
  clickEffect
    (fold_left (fun s t => fire (action t) s) ts s) =
  clickEffect s && forallb (fun t => match action t with
                                     | ClearClickEffect => false
                                     | ResetEnterPressCount => true
                                     end) ts.
Proof.
  revert s. induction ts as [|t ts IH]; intros s; cbn [fold_left forallb].
  - now rewrite andb_true_r.
  - rewrite IH. destruct (action t); cbn; [reflexivity|].
    now rewrite andb_false_r.
Qed.

(** Once the clock shows the deadline of a pending click-effect timer the
    pulse is over. *)
Lemma advance_clears_clickEffect (now : nat) (s : State) (t : Timer) :
  In t (timers s) -> action t = ClearClickEffect ->
  (deadline t <= now)%nat ->
  clickEffect (advance now s) = false.
Proof.
  intros Hin Ha Hd. unfold advance. rewrite fire_all_clickEffect.
  apply andb_false_iff. right.
  apply not_true_is_false. intros Hall.
  rewrite forallb_forall in Hall.
  specialize (Hall t). rewrite Ha in Hall.
  assert (In t (List.filter (due now) (timers s))) as Hin'.
  { apply filter_In. split; [exact Hin|]. unfold due. now apply Nat.leb_le. }
  specialize (Hall Hin'). discriminate.
Qed.

Lemma countEnter_showTvCursor now s :
  showTvCursor s = true -> showTvCursor (countEnter now s) = true.
Proof.
  intros H. unfold countEnter.
  destruct (S (enterPressCount s) =? 3)%nat; [reflexivity|].
  destruct (enterPressTimeout s); cbn; exact H.
Qed.

Lemma countEnter_count now s :
  enterPressCount (countEnter now s) =
  if (S (enterPressCount s) =? 3)%nat then 0%nat else S (enterPressCount s).
Proof.
  unfold countEnter.
  destruct (S (enterPressCount s) =? 3)%nat; [reflexivity|].
  destruct (enterPressTimeout s); reflexivity.
Qed.

Lemma countEnter_timer now s :
  (S (enterPressCount s) =? 3)%nat = false ->
  exists id,
    enterPressTimeout (countEnter now s) = Some id
    /\ In {| timer_id := id; deadline := now + 500;
             action := ResetEnterPressCount |} (timers (countEnter now s)).
Proof.
  intros H. unfold countEnter. rewrite H.
  destruct (enterPressTimeout s) as [old|]; cbn;
    eexists; (split; [reflexivity|]); apply enqueue_In; now left.
Qed.

Lemma handleKeyDown_enter_armed now dom s :
  showTvCursor s = true ->
  showTvCursor (fst (handleKeyDown now dom "Enter" s)) = true.
Proof.
  intros H. unfold handleKeyDown. rewrite H.
  cbn [String.eqb Ascii.eqb Bool.eqb].
  change (includes arrowKeys "Enter") with false. cbn.
  now apply countEnter_showTvCursor.
Qed.

Definition armedState : State := set_showTvCursor true (initial 1920 1080).

(** C5, as the code has it.  An Enter that arrives while the cursor is
    armed is hit-tested at the stored cursor position, the element found
    there is clicked when it is an HTMLElement, the click effect is
    switched on with a timer that ends it 400 ms later, the default action
    is prevented and the navigation logic is not reached, so the focus
    stays and the cursor stays armed.  The same press has first gone
    through the triple-press block: the counter is advanced (and is back at
    0 when this was the third count), and unless it was the third count the
    500 ms reset timer is started anew. *)
Theorem armed_enter_clicks now dom s :
  showTvCursor s = true ->
  let s' := fst (handleKeyDown now dom "Enter" s) in
  let effects := snd (handleKeyDown now dom "Enter" s) in
  effects =
    PreventDefault ::
    match elementFromPoint dom (fst (cursorPosition s))
            (snd (cursorPosition s)) with
    | Some el => if is_html_element el then [Click el] else []
    | None => []
    end
  /\ focusAfter dom effects = activeElement dom
  /\ showTvCursor s' = true
  /\ clickEffect s' = true
  /\ (exists id,
        In {| timer_id := id; deadline := now + 400;
              action := ClearClickEffect |} (timers s'))
  /\ clickEffect (advance (now + 400) s') = false
  /\ enterPressCount s' =
     (if (S (enterPressCount s) =? 3)%nat then 0%nat
      else S (enterPressCount s))
  /\ ((S (enterPressCount s) =? 3)%nat = false ->
      exists id,
        enterPressTimeout s' = Some id
        /\ In {| timer_id := id; deadline := now + 500;
                 action := ResetEnterPressCount |} (timers s')).
Proof.
  intros Harmed s' effects. subst s' effects.
  unfold handleKeyDown. rewrite Harmed. cbn [String.eqb Ascii.eqb Bool.eqb].
  change (includes arrowKeys "Enter") with false. cbn iota.
  set (s1 := countEnter now s).
  assert (Htimer :
    In {| timer_id := nextTimer (set_clickEffect true s1);
          deadline := now + 400; action := ClearClickEffect |}
       (timers (snd (setTimeout now 400 ClearClickEffect
                       (set_clickEffect true s1))))).
  { cbn. apply enqueue_In. now left. }
  cbn [setTimeout fst snd] in *.
  split; [reflexivity|]. split.
  { unfold focusAfter.
    destruct (elementFromPoint dom _ _) as [el|]; [|reflexivity].
    destruct (is_html_element el); reflexivity. }
  split; [cbn; now apply countEnter_showTvCursor|].
  split; [reflexivity|].
  split; [eexists; exact Htimer|].
  split.
  { eapply advance_clears_clickEffect; [exact Htimer|reflexivity|cbn; lia]. }
  split; [cbn; apply countEnter_count|].
  intros H3. destruct (countEnter_timer now s H3) as (id & Hid & Hin).
  exists id. split; [exact Hid|]. cbn. apply enqueue_In. now right.
Qed.

Lemma armed_enter_clicks_witness :
  enterPressCount (fst (handleKeyDown 1000 exampleDom "Enter" armedState))
  = 1%nat.
Proof.
  pose proof (armed_enter_clicks 1000 exampleDom armedState eq_refl) as H.
  cbv zeta in H.
  exact (proj1 (proj2 (proj2 (proj2 (proj2 (proj2 (proj2 H))))))).
Defined.

(** C5, as the specification words it, fails: the press of an armed Enter
    does advance the triple-press counter and does start the 500 ms
    timer. *)
Lemma armed_enter_advances_counter :
  let s' := fst (handleKeyDown 1000 exampleDom "Enter" armedState) in
  showTvCursor armedState = true
  /\ enterPressCount armedState = 0%nat /\ timers armedState = []
  /\ enterPressCount s' <> enterPressCount armedState
  /\ enterPressTimeout s' <> enterPressTimeout armedState
  /\ In {| timer_id := 1; deadline := 1500; action := ResetEnterPressCount |}
       (timers s').
Proof.
  cbv zeta. repeat split; try reflexivity; try discriminate.
  vm_compute. right. now left.
Qed.

(** *** The triple press *)

(** A gap shorter than the 500 ms of the reset timer. *)
Definition quick (gap : nat) : bool := (gap <? 500)%nat.

(** Whether presses separated by [gaps] arm the cursor, when the counter
    stands at [c] after the press before them. *)
Fixpoint armsFrom (c : nat) (gaps : list nat) : bool :=
  match gaps with
  | [] => false
  | g :: rest =>
      if quick g then (if (c =? 2)%nat then true else armsFrom (S c) rest)
      else armsFrom 1 rest
  end.

(** Two quick gaps in a row, that is three presses in quick succession. *)
Fixpoint tripleWithin (gaps : list nat) : bool :=
  match gaps with
  | g1 :: rest =>
      match rest with
      | g2 :: _ => quick g1 && quick g2 || tripleWithin rest
      | [] => false
      end
  | [] => false
  end.

Lemma armsFrom_tripleWithin (gaps : list nat) :
  armsFrom 1 gaps = tripleWithin gaps
  /\ armsFrom 2 gaps =
     match gaps with g :: _ => quick g | [] => false end || tripleWithin gaps.
Proof.
  induction gaps as [|g rest [IH1 IH2]]; [split; reflexivity|].
  cbn [armsFrom tripleWithin Nat.eqb]. rewrite IH1, IH2.
  destruct (quick g); cbn [andb orb].
  - split; [|reflexivity]. destruct rest; reflexivity.
  - split; destruct rest; reflexivity.
Qed.

Lemma tripleWithin_spec (gaps : list nat) :
  tripleWithin gaps = true <->
  exists i g1 g2,
    gaps !! i = Some g1 /\ gaps !! S i = Some g2
    /\ (g1 < 500)%nat /\ (g2 < 500)%nat.
Proof.
  induction gaps as [|g1 rest IH].
  - cbn. split; [discriminate|]. intros (i & a & b & H & _). discriminate.
  - cbn [tripleWithin]. destruct rest as [|g2 rest'].
    + split; [discriminate|]. intros (i & a & b & _ & H & _). discriminate.
    + rewrite orb_true_iff, andb_true_iff, IH. unfold quick.
      rewrite !Nat.ltb_lt. split.
      * intros [[H1 H2]|(i & a & b & Ha & Hb & Hlt)].
        -- exists 0%nat, g1, g2. auto.
        -- exists (S i), a, b. auto.
      * intros (i & a & b & Ha & Hb & Hlt). destruct i as [|i].
        -- left. cbn in Ha, Hb. injection Ha as <-. injection Hb as <-.
           exact Hlt.
        -- right. exists i, a, b. auto.
Qed.

(** The three situations of the cursor controller. *)
Definition Idle (s : State) : Prop :=
  showTvCursor s = false /\ enterPressCount s = 0%nat /\ timers s = [].

Definition Counting (c t : nat) (s : State) : Prop :=
  showTvCursor s = false /\ enterPressCount s = c
  /\ exists id,
       enterPressTimeout s = Some id
       /\ timers s = [{| timer_id := id; deadline := t + 500;
                         action := ResetEnterPressCount |}].

Lemma advance_no_timers now s : timers s = [] -> advance now s = s.
Proof.
  intros H. unfold advance. rewrite H. cbn. destruct s; cbn in *. now subst.
Qed.

Lemma handleKeyDown_enter_idle now dom s :
  showTvCursor s = false ->
  fst (handleKeyDown now dom "Enter" s) = countEnter now s.
Proof. intros H. unfold handleKeyDown. now rewrite H. Qed.

Lemma press_from_idle now dom s :
  Idle s ->
  Counting 1 now (fst (handleKeyDown now dom "Enter" (advance now s))).
Proof.
  intros (Ha & Hc & Ht). rewrite (advance_no_timers _ _ Ht).
  rewrite handleKeyDown_enter_idle by exact Ha.
  unfold countEnter. rewrite Hc. cbn [Nat.eqb].
  destruct s as [c a r p e ts n]; cbn in *; subst.
  destruct r; cbn; (split; [reflexivity|split; [reflexivity|]]);
    eexists; split; reflexivity.
Qed.

(** The reset timer runs before a press that comes 500 ms or more after
    the one that set it. *)
Lemma timeout_resets c t now s :
  Counting c t s -> (t + 500 <= now)%nat -> Idle (advance now s).
Proof.
  intros (Ha & Hc & id & Hr & Ht) Hle. unfold advance. rewrite Ht.
  cbn [List.filter]. unfold due. cbn [deadline].
  apply Nat.leb_le in Hle. rewrite Hle. cbn.
  repeat split. exact Ha.
Qed.

Lemma press_while_counting c t now dom s :
  Counting c t s -> (now < t + 500)%nat ->
  let s' := fst (handleKeyDown now dom "Enter" (advance now s)) in
  if (c =? 2)%nat then showTvCursor s' = true else Counting (S c) now s'.
Proof.
  intros (Ha & Hc & id & Hr & Ht) Hlt s'. subst s'.
  assert (advance now s = s) as ->.
  { unfold advance. rewrite Ht. cbn [List.filter]. unfold due. cbn [deadline].
    apply Nat.leb_gt in Hlt. rewrite Hlt. cbn.
    destruct s; cbn in *. now subst. }
  rewrite handleKeyDown_enter_idle by exact Ha.
  unfold countEnter. rewrite Hc, Hr.
  destruct s as [c0 a r p e ts n]; cbn in Ha, Hc, Hr, Ht; subst.
  unfold clearTimeout. cbn [timers List.filter timer_id negb].
  rewrite Pos.eqb_refl. cbn [negb].
  destruct c as [|[|[|c]]]; cbn [Nat.eqb]; try reflexivity;
    (split; [reflexivity|split; [reflexivity|]]); eexists; split; reflexivity.
Qed.

Lemma fire_all_showTvCursor (ts : list Timer) (s : State) :
  showTvCursor (fold_left (fun s t => fire (action t) s) ts s)
  = showTvCursor s.
Proof.
  revert s. induction ts as [|t ts IH]; intros s; cbn [fold_left];
    [reflexivity|].
  rewrite IH. destruct (action t); reflexivity.
Qed.

(** No Enter press and no timer puts an armed cursor away. *)
Lemma armed_stays now dom s :
  showTvCursor s = true ->
  showTvCursor (fst (handleKeyDown now dom "Enter" (advance now s))) = true.
Proof.
  intros H. apply handleKeyDown_enter_armed.
  unfold advance. rewrite fire_all_showTvCursor. exact H.
Qed.

Lemma pressEnters_armed later :
  forall dom now s,
    showTvCursor s = true ->
    showTvCursor (pressEnters dom now later s) = true.
Proof.
  induction later as [|[g dom'] rest IH]; intros dom now s H;
    cbn [pressEnters].
  - now apply armed_stays.
  - apply IH. now apply armed_stays.
Qed.

Lemma pressEnters_counting later :
  forall dom c t g s,
    Counting c t s -> (c = 1 \/ c = 2)%nat ->
    showTvCursor (pressEnters dom (t + g) later s)
    = armsFrom c (g :: map fst later).
Proof.
  induction later as [|[g' dom'] rest IH]; intros dom c t g s Hs Hc.
  - cbn [pressEnters armsFrom map]. unfold quick.
    destruct (Nat.ltb_spec g 500) as [Hq|Hq].
    + pose proof (press_while_counting c t (t + g) dom s Hs ltac:(lia)) as H.
      cbv zeta in H. destruct Hc as [-> | ->]; cbn [Nat.eqb] in *.
      * now destruct H as (-> & _).
      * exact H.
    + pose proof (timeout_resets c t (t + g) s Hs ltac:(lia)) as Hi.
      pose proof (press_from_idle (t + g) dom _ Hi) as H.
      rewrite advance_no_timers in H by apply Hi.
      now destruct H as (-> & _).
  - cbn [pressEnters map fst]. cbn [armsFrom].
    fold (armsFrom 1 (g' :: map fst rest)).
    unfold quick at 1.
    destruct (Nat.ltb_spec g 500) as [Hq|Hq].
    + pose proof (press_while_counting c t (t + g) dom s Hs ltac:(lia)) as H.
      cbv zeta in H. destruct Hc as [-> | ->]; cbn [Nat.eqb] in *.
      * rewrite (IH dom' 2%nat (t + g)%nat g' _ H) by auto. reflexivity.
      * now apply pressEnters_armed.
    + pose proof (timeout_resets c t (t + g) s Hs ltac:(lia)) as Hi.
      pose proof (press_from_idle (t + g) dom _ Hi) as H.
      rewrite advance_no_timers in H by apply Hi.
      rewrite (IH dom' 1%nat (t + g)%nat g' _ H) by auto. reflexivity.
Qed.

Lemma pressEnters_idle dom now later s :
  Idle s ->
  showTvCursor (pressEnters dom now later s) = armsFrom 1 (map fst later).
Proof.
  intros Hi. pose proof (press_from_idle now dom s Hi) as H.
  destruct later as [|[g dom'] rest]; cbn [pressEnters map fst].
  - now destruct H as (-> & _).
  - now apply pressEnters_counting; [|left].
Qed.

(** C6. Starting from an idle controller, a sequence of Enter presses
    arms the cursor exactly when it holds three consecutive presses whose
    two gaps are both shorter than 500 ms; a gap of 500 ms or more lets the
    timer put the counter back to 0, and the press after it counts as a
    first press which alone does not arm the cursor. *)
Theorem triple_enter_arms dom innerWidth innerHeight now later :
  (showTvCursor (pressEnters dom now later (initial innerWidth innerHeight))
   = true
   <-> exists i g1 g2,
         map fst later !! i = Some g1 /\ map fst later !! S i = Some g2
         /\ (g1 < 500)%nat /\ (g2 < 500)%nat)
  /\ (forall c t late s,
        Counting c t s -> (t + 500 <= late)%nat ->
        enterPressCount (advance late s) = 0%nat
        /\ Counting 1 late
             (fst (handleKeyDown late dom "Enter" (advance late s)))).
Proof.
  split.
  - rewrite pressEnters_idle by (repeat split).
    rewrite (proj1 (armsFrom_tripleWithin (map fst later))).
    apply tripleWithin_spec.
  - intros c t late s Hs Hlate.
    pose proof (timeout_resets c t late s Hs Hlate) as Hi.
    split; [apply Hi|].
    pose proof (press_from_idle late dom _ Hi) as H.
    now rewrite advance_no_timers in H by apply Hi.
Qed.

(** Three presses 100 ms and 200 ms apart arm the cursor; with a pause of
    500 ms in the middle four presses do not; and 500 ms after the second
    of two presses the counter is back at 0. *)
Lemma triple_enter_arms_witness :
  showTvCursor
    (pressEnters exampleDom 1000
       [(100%nat, exampleDom); (200%nat, exampleDom)] (initial 1920 1080))
  = true
  /\ showTvCursor
       (pressEnters exampleDom 1000
          [(100%nat, exampleDom); (500%nat, exampleDom);
           (100%nat, exampleDom)] (initial 1920 1080)) = false
  /\ enterPressCount
       (advance 1600
          (pressEnters exampleDom 1000 [(100%nat, exampleDom)]
             (initial 1920 1080)))
     = 0%nat.
Proof.
  split; [|split].
  - apply (proj1 (triple_enter_arms exampleDom 1920 1080 1000
                    [(100%nat, exampleDom); (200%nat, exampleDom)])).
    exists 0%nat, 100%nat, 200%nat.
    repeat split; apply Nat.ltb_lt; reflexivity.
  - reflexivity.
  - apply (proj2 (triple_enter_arms exampleDom 1920 1080 1000 [])
             2%nat 1100%nat 1600%nat).
    + repeat split. eexists. split; reflexivity.
    + apply Nat.leb_le. reflexivity.
Defined.

End AppProps.

(** ** The playback session *)

Module PlayerProps.
Import JS Player.
#[local] Set Warnings "-clear-no-such-hyp".

(** *** Effect 1: epochs *)

Section Epochs.
Variable t : string -> string.

(** Every trigger draws a fresh, larger epoch. *)
Lemma startFetch_epoch initialStreamUrl n :
  fetchIdRef (session (startFetch initialStreamUrl n))
  = S (fetchIdRef (session n)).
Proof.
  unfold startFetch.
  destruct (truthy_str initialStreamUrl); reflexivity.
Qed.

Lemma catchBlock_epoch id msg s :
  fetchIdRef (catchBlock id msg s) = fetchIdRef s.
Proof. unfold catchBlock. destruct (_ =? _)%nat; reflexivity. Qed.

Lemma finallyBlock_epoch id s :
  fetchIdRef (finallyBlock id s) = fetchIdRef s.
Proof. unfold finallyBlock. destruct (_ =? _)%nat; reflexivity. Qed.

Lemma streamResolved_epoch id data s :
  fetchIdRef (streamResolved t id data s) = fetchIdRef s.
Proof.
  unfold streamResolved. destruct (negb _).
  - apply finallyBlock_epoch.
  - destruct (links data) as [[|l ls]|];
      rewrite finallyBlock_epoch; try apply catchBlock_epoch.
    destruct (data_subtitles data); reflexivity.
Qed.

(** Only a trigger moves the epoch, and it moves it up by one. *)
Lemma step_epoch e n n' :
  step t e n = Some n' ->
  fetchIdRef (session n') =
  match e with
  | Trigger _ => S (fetchIdRef (session n))
  | _ => fetchIdRef (session n)
  end.
Proof.
  destruct e as [i|id rs|id msg|id data|id msg]; cbn [step]; intros H.
  - injection H as <-. apply startFetch_epoch.
  - destruct (takeRequest _ _ _) as [[r others]|]; [|discriminate].
    destruct (negb _); injection H as <-; cbn [session];
      [reflexivity|now rewrite finallyBlock_epoch].
  - destruct (takeRequest _ _ _) as [[r others]|]; [|discriminate].
    injection H as <-. cbn [session].
    now rewrite finallyBlock_epoch, catchBlock_epoch.
  - destruct (takeRequest _ _ _) as [[r others]|]; [|discriminate].
    injection H as <-. apply streamResolved_epoch.
  - destruct (takeRequest _ _ _) as [[r others]|]; [|discriminate].
    injection H as <-. cbn [session].
    now rewrite finallyBlock_epoch, catchBlock_epoch.
Qed.

(** A stale outcome of the stream request, a stale failure of either
    request, and the end of a stale call change nothing. *)
Lemma stale_streamResolved id data s :
  fetchIdRef s <> id -> streamResolved t id data s = s.
Proof.
  intros H. unfold streamResolved, finallyBlock.
  apply Nat.eqb_neq in H. now rewrite H.
Qed.

Lemma stale_failure id msg s :
  fetchIdRef s <> id -> finallyBlock id (catchBlock id msg s) = s.
Proof.
  intros H. unfold finallyBlock, catchBlock.
  apply Nat.eqb_neq in H. now rewrite H, H.
Qed.

(** The outcome of the recommendations request is stored whatever the
    epoch. *)
Lemma recsResolved_unguarded id results n n' :
  step t (RecsResolved id results) n = Some n' ->
  recommendations (session n') = List.filter hasBackdrop results.
Proof.
  cbn [step]. destruct (takeRequest _ _ _) as [[r others]|]; [|discriminate].
  destruct (negb _); intros H; injection H as <-; cbn [session];
    [reflexivity|].
  unfold finallyBlock. destruct (_ =? _)%nat; reflexivity.
Qed.

(** What a completion that carries a stale epoch does to the session:
    nothing, unless it is the resolution of the recommendations, which
    writes them. *)
Lemma stale_completion e n n' :
  step t e n = Some n' ->
  match e with
  | Trigger _ => True
  | RecsResolved id results =>
      fetchIdRef (session n) <> id ->
      session n' =
      setRecommendations (List.filter hasBackdrop results) (session n)
  | RecsRejected id _ | StreamResolved id _ | StreamRejected id _ =>
      fetchIdRef (session n) <> id -> session n' = session n
  end.
Proof.
  destruct e as [i|id rs|id msg|id data|id msg]; cbn [step];
    [trivial|..];
    (destruct (takeRequest _ _ _) as [[r others]|]; [|discriminate]).
  - destruct (negb _); intros H Hid; injection H as <-; cbn [session];
      [reflexivity|].
    unfold finallyBlock. cbn [fetchIdRef setRecommendations].
    apply Nat.eqb_neq in Hid. now rewrite Hid.
  - intros H Hid. injection H as <-. now apply stale_failure.
  - intros H Hid. injection H as <-. now apply stale_streamResolved.
  - intros H Hid. injection H as <-. now apply stale_failure.
Qed.

End Epochs.

Definition lookupText (key : string) : string := key.

Definition netOnMount : Net :=
  {| session := mount None None; inflight := [] |}.

Definition movieA : Movie :=
  {| movie_id := 1; backdrop_path := Some "/a.jpg"%string |}.
Definition movieB : Movie :=
  {| movie_id := 2; backdrop_path := Some "/b.jpg"%string |}.

(** What C1 speaks of: the epoch and the state a completion may write. *)
Definition observed (n : option Net) :=
  option_map
    (fun n =>
       let s := session n in
       (fetchIdRef s, recommendations s, activeStreamUrl s, streamLinks s,
        subtitles s, isBuffering s, toasts s, fetchStateLog s))
    n.

Definition overlapping : list Event :=
  [Trigger None; Trigger None; RecsResolved 2 [movieB]].

(** C1 at the failing schedule.  Request 1 is started for one item and
    request 2 for the next before anything has come back; the
    recommendations of request 2 arrive, then those of request 1.  The
    epoch is 2 throughout, and yet the late answer of request 1 replaces
    the recommendations. *)
Theorem stale_recommendations_applied :
  observed (run lookupText overlapping netOnMount)
  = Some (2%nat, [movieB], None, [], [], true, [], [true; true])
  /\ observed
       (run lookupText (overlapping ++ [RecsResolved 1 [movieA]]) netOnMount)
     = Some (2%nat, [movieA], None, [], [], true, [], [true; true]).
Proof. split; vm_compute; reflexivity. Qed.

Definition link1080 : StreamLink :=
  {| url := "https://cdn/1080.m3u8"; quality := "1080p"; provider := "p" |}.
Definition link720 : StreamLink :=
  {| url := "https://cdn/720.m3u8"; quality := "720p"; provider := "p" |}.

(** The rest of C1 holds on the stream request: of two overlapping
    requests only the later one decides the source, whatever the earlier
    one brings back afterwards. *)
Lemma stale_stream_discarded (late : StreamData) :
  let fresh := {| links := Some [link1080; link720];
                  data_subtitles := None; data_provider := "p" |} in
  let before :=
    run lookupText
      [Trigger None; Trigger None; RecsResolved 1 []; RecsResolved 2 [];
       StreamResolved 2 fresh] netOnMount in
  observed before
  = Some (2%nat, [], Some (url link1080), [link1080; link720], [], true, [],
          [true; true; false])
  /\ run lookupText
       [Trigger None; Trigger None; RecsResolved 1 []; RecsResolved 2 [];
        StreamResolved 2 fresh; StreamResolved 1 late] netOnMount
     = option_map (fun n => {| session := session n; inflight := [] |}) before.
Proof. split; vm_compute; reflexivity. Qed.

(** *** Effect 1: a resolution without links *)





(** Effect 2 does not touch the element while there is no source. *)
Lemma attach_without_source initialTime hlsSupported s :
  activeStreamUrl s = None ->
  attach initialTime hlsSupported s = setIsBuffering true (set_hls None s).
Proof.
  intros H. unfold attach. cbn [video set_hls activeStreamUrl]. rewrite H.
  destruct (video s); reflexivity.
Qed.





(** *** Default caption selection *)

Definition trackEn : VttTrack :=
  {| lang := "en"; vtt_url := 0; label := "English" |}.
Definition trackAr : VttTrack :=
  {| lang := "ar"; vtt_url := 1; label := "Arabic" |}.

(** C4, as the specification words it, fails: with the locale "en" and a
    converted English track the selection stays empty. *)
Lemma default_caption_not_for_en :
  In trackEn [trackEn; trackAr]
  /\ lang trackEn = "en"%string
  /\ activeSubtitleLang (mount None None) = None
  /\ activeSubtitleLang
       (batchProduced "en" [trackEn; trackAr] (mount None None))
     <> Some "en"%string.
Proof. repeat split; try (now left). vm_compute. discriminate. Qed.

(** C4, as the code has it.  The default selection is made for the locale
    "ar" only, and only on a batch that is not empty: the selection becomes
    "ar" when the batch holds an Arabic track and none otherwise.  For any
    other locale, and for an empty batch, the selection is left as it
    was. *)
Theorem default_caption_selection userLanguage batch s :
  (userLanguage = "ar"%string -> batch <> [] ->
   (exists track, In track batch /\ lang track = "ar"%string) ->
   activeSubtitleLang (batchProduced userLanguage batch s) = Some "ar"%string)
  /\ (userLanguage = "ar"%string -> batch <> [] ->
      (forall track, In track batch -> lang track <> "ar"%string) ->
      activeSubtitleLang (batchProduced userLanguage batch s) = None)
  /\ (userLanguage <> "ar"%string \/ batch = [] ->
      activeSubtitleLang (batchProduced userLanguage batch s)
      = activeSubtitleLang s)
  /\ vttTracks (batchProduced userLanguage batch s) = batch.
Proof.
  unfold batchProduced, defaultSubtitleEffect. cbn [vttTracks setVttTracks].
  repeat split.
  - intros -> Hne (track & Hin & Hl). cbn [String.eqb Ascii.eqb Bool.eqb andb].
    destruct batch as [|b0 rest]; [contradiction|].
    cbn [length Nat.ltb Nat.leb].
    destruct (find _ (b0 :: rest)) as [y|] eqn:E; [reflexivity|].
    unfold find in E. apply (find_none _ _ E) in Hin.
    apply String.eqb_neq in Hin. contradiction.
  - intros -> Hne Hall. cbn [String.eqb Ascii.eqb Bool.eqb andb].
    destruct batch as [|b0 rest]; [contradiction|].
    cbn [length Nat.ltb Nat.leb].
    destruct (find _ (b0 :: rest)) as [y|] eqn:E; [|reflexivity].
    unfold find in E. apply find_some in E. destruct E as [Hin Hl].
    apply String.eqb_eq in Hl. now apply Hall in Hin.
  - intros [Hne | ->].
    + apply String.eqb_neq in Hne. rewrite Hne. reflexivity.
    + cbn [length Nat.ltb Nat.leb]. rewrite andb_false_r. reflexivity.
  - destruct (_ && _); [|reflexivity].
    destruct (find _ batch); reflexivity.
Qed.

Lemma default_caption_selection_witness :
  activeSubtitleLang (batchProduced "ar" [trackEn; trackAr] (mount None None))
  = Some "ar"%string
  /\ activeSubtitleLang (batchProduced "ar" [trackEn] (mount None None))
     = None.
Proof.
  split.
  - apply (proj1 (default_caption_selection "ar" [trackEn; trackAr]
                    (mount None None))).
    + reflexivity.
    + discriminate.
    + exists trackAr. split; [right; now left|reflexivity].
  - apply (proj1 (proj2 (default_caption_selection "ar" [trackEn]
                           (mount None None)))).
    + reflexivity.
    + discriminate.
    + intros track [<-|H]; [discriminate|destruct H].
Defined.

(** *** Panels *)

Definition exclusive (o : Overlay) : Prop :=
  showSettingsPanel o = false \/ showSubtitlesPanel o = false.

Lemma panelStep_exclusive c o : exclusive o -> exclusive (panelStep c o).
Proof.
  unfold exclusive. destruct c; cbn; try tauto.
  - destruct (view o); cbn; tauto.
Qed.

(** The key handler of the player leaves the panels as they are. *)
Lemma playerKeyDown_panels lay key u :
  showSettingsPanel (overlay (playerKeyDown lay key u))
  = showSettingsPanel (overlay u)
  /\ showSubtitlesPanel (overlay (playerKeyDown lay key u))
     = showSubtitlesPanel (overlay u).
Proof.
  unfold playerKeyDown, togglePlay, focusAt, focusProgress, seek.
  repeat match goal with
         | |- context [if ?b then _ else _] => destruct b
         | |- context [match ?x with _ => _ end] => destruct x
         end; split; reflexivity.
Qed.

(** What can happen to the overlay of a mounted player. *)
Inductive Reachable : Ui -> Prop :=
| reach_mount m r :
    Reachable {| overlay := overlayOnMount; media := m; active := r |}
| reach_panel c u :
    Reachable u -> Reachable (with_overlay (panelStep c (overlay u)) u)
| reach_key lay key u :
    Reachable u -> Reachable (playerKeyDown lay key u)
| reach_focus r u : Reachable u -> Reachable (with_active r u)
| reach_media m u : Reachable u -> Reachable (with_media m u).

(** C9. In every reachable state of the overlay at most one of the
    Settings panel and the Subtitles panel is open; the click that toggles
    Settings closes Subtitles in the same step and the click that toggles
    Subtitles closes Settings; and so the exclusion holds after any
    sequence of panel commands. *)
Theorem panels_exclusive :
  (forall u, Reachable u -> exclusive (overlay u))
  /\ (forall cs, exclusive (panelRun cs overlayOnMount))
  /\ (forall o,
        showSettingsPanel (panelStep SettingsClick o)
        = negb (showSettingsPanel o)
        /\ showSubtitlesPanel (panelStep SettingsClick o) = false)
  /\ (forall o,
        showSubtitlesPanel (panelStep SubtitlesClick o)
        = negb (showSubtitlesPanel o)
        /\ showSettingsPanel (panelStep SubtitlesClick o) = false).
Proof.
  repeat split.
  - intros u H. induction H as [m r|c u H IH|lay key u H IH|r u H IH|m u H IH].
    + left. reflexivity.
    + now apply panelStep_exclusive.
    + destruct (playerKeyDown_panels lay key u) as [E1 E2].
      unfold exclusive. now rewrite E1, E2.
    + exact IH.
    + exact IH.
  - intros cs. unfold panelRun.
    assert (G : forall o, exclusive o ->
                exclusive (fold_left (fun o c => panelStep c o) cs o)).
    { induction cs as [|c cs IH]; intros o Ho; cbn [fold_left]; [exact Ho|].
      apply IH. now apply panelStep_exclusive. }
    apply G. left. reflexivity.
Qed.

(** Subtitles is opened, then Settings: Subtitles is closed by the
    second click. *)
Lemma panels_exclusive_witness :
  let o := panelRun [SubtitlesClick; SettingsClick] overlayOnMount in
  exclusive o
  /\ showSettingsPanel o = true /\ showSubtitlesPanel o = false.
Proof.
  split; [|split; reflexivity].
  apply (proj1 panels_exclusive
           {| overlay := panelRun [SubtitlesClick; SettingsClick]
                           overlayOnMount;
              media := None; active := Body |}).
  apply (reach_panel SettingsClick
           {| overlay := panelStep SubtitlesClick overlayOnMount;
              media := None; active := Body |}).
  apply (reach_panel SubtitlesClick
           {| overlay := overlayOnMount; media := None; active := Body |}).
  apply reach_mount.
Defined.

(** *** Seeking from the progress bar *)

Local Open Scope Q_scope.


(** While the duration is not a number the assignment of [seek] throws
    and the position stays. *)
Lemma seek_nan offset u v :
  media u = Some v -> duration v = NaN -> seek offset u = u.
Proof.
  intros Hm Hd. unfold seek. rewrite Hm, Hd. cbn.
  destruct u; cbn in *. now subst.
Qed.

(** On a stream without end only the start bounds the position. *)
Lemma seek_unbounded offset u v :
  media u = Some v -> duration v = PosInfinity ->
  seek offset u =
  with_media (Some (set_currentTime (Qmax 0 (currentTime v + offset)) v)) u.
Proof. intros Hm Hd. unfold seek. rewrite Hm, Hd. reflexivity. Qed.










Definition someLayout : Layout :=
  {| infoCount := 1; controlsCount := 5; recsCount := 3;
     progressMounted := true |}.


(** *** Switching the quality *)

Lemma truthy_nonempty (x : string) :
  x <> ""%string -> truthy_str (Some x) = true.
Proof.
  intros H. cbn. apply String.eqb_neq in H. now rewrite H.
Qed.

Lemma find_some_length {A} (p : A -> bool) (l : list A) (x : A) :
  find p l = Some x -> (length l =? 0)%nat = false.
Proof. destruct l; [discriminate|reflexivity]. Qed.

(** The quality effect when the wanted link is there and is not the
    active one: the position is saved, then the source is replaced. *)
Lemma qualityEffect_switch q s v newLink :
  video s = Some v ->
  activeQuality s = Some q ->
  q <> ""%string ->
  find (fun link => (quality link =? q)%string) (streamLinks s)
  = Some newLink ->
  url_differs (url newLink) (activeStreamUrl s) = true ->
  qualityEffect s =
  setActiveStreamUrl (Some (url newLink))
    (set_timeOnSwitchRef (currentTime v) s).
Proof.
  intros Hv Hq Hne Hf Hd. unfold qualityEffect.
  rewrite Hv, Hq, (truthy_nonempty q Hne), (find_some_length _ _ _ Hf).
  cbn [negb]. cbv zeta. cbn [default from_option id]. now rewrite Hf, Hd.
Qed.




(** The time Effect 2 resumes at. *)
Definition resumeTime (initialTime : option Q) (pending : Q) : Q :=
  if Qltb 0 pending then pending else default 0 initialTime.

Lemma attach_source initialTime hlsSupported s v u :
  video s = Some v -> activeStreamUrl s = Some u -> u <> ""%string ->
  attach initialTime hlsSupported s =
  let savedTime := resumeTime initialTime (timeOnSwitchRef s) in
  if str_includes ".m3u8" u && hlsSupported then
    set_hls (Some {| hls_source := u; hls_resume := savedTime |})
      (set_video (Some (load u v)) (set_timeOnSwitchRef 0 (set_hls None s)))
  else
    set_video (Some (addLoadedDataOnce savedTime (load u v)))
      (set_timeOnSwitchRef 0 (set_hls None s)).
Proof.
  intros Hv Hu Hne. unfold attach.
  cbn [video set_hls activeStreamUrl timeOnSwitchRef].
  rewrite Hv, Hu, (truthy_nonempty u Hne). cbn [default from_option id].
  reflexivity.
Qed.







(** *** Effect 3: the object URLs of the captions *)

Local Close Scope Q_scope.

Lemma revoke_all_live (us : list nat) (b : BlobStore) (u : nat) :
  u ∈ live (fold_left (fun b u => revokeObjectURL u b) us b)
  <-> u ∈ live b /\ u ∉ us.
Proof.
  revert b. induction us as [|x us IH]; intros b; cbn [fold_left].
  - set_solver.
  - rewrite IH. cbn [live revokeObjectURL]. set_solver.
Qed.

Lemma revoke_all_next (us : list nat) (b : BlobStore) :
  nextBlob (fold_left (fun b u => revokeObjectURL u b) us b) = nextBlob b.
Proof.
  revert b. induction us as [|x us IH]; intros b; cbn [fold_left];
    [reflexivity|].
  now rewrite IH.
Qed.

Lemma revoke_all_log (us : list nat) (b : BlobStore) :
  revokeLog (fold_left (fun b u => revokeObjectURL u b) us b)
  = revokeLog b ++ us.
Proof.
  revert b. induction us as [|x us IH]; intros b; cbn [fold_left].
  - now rewrite app_nil_r.
  - rewrite IH. cbn [revokeLog revokeObjectURL]. now rewrite <- app_assoc.
Qed.

(** The cleanup of a run revokes every URL the run has created so far,
    each once. *)
Lemma cleanup_revokes i p c :
  passes c !! i = Some p ->
  revokeLog (store (cleanup i c)) = revokeLog (store c) ++ createdUrls p
  /\ forall u, u ∈ createdUrls p -> u ∉ live (store (cleanup i c)).
Proof.
  intros Hp. unfold cleanup. rewrite Hp. cbn [store]. split.
  - apply revoke_all_log.
  - intros u Hu Hlive. apply revoke_all_live in Hlive. tauto.
Qed.

(** An object URL is orphaned when it is live and the run that will be
    cleaned up next does not list it. *)
Definition orphaned (u : nat) (c : Captions) : Prop :=
  (u ∈ live (store c))
  /\ (u < nextBlob (store c))
  /\ (u ∉ revokeLog (store c))
  /\ (forall i p, mounted c = Some i -> passes c !! i = Some p ->
                  u ∉ createdUrls p).

Lemma cleanup_orphaned u i c : orphaned u c -> mounted c = Some i ->
  orphaned u (cleanup i c).
Proof.
  intros (Hl & Hn & Hr & Hm) Hi. unfold cleanup.
  destruct (passes c !! i) as [p|] eqn:Hp; [|repeat split; assumption].
  specialize (Hm i p Hi Hp).
  repeat split; cbn [store mounted].
  - apply revoke_all_live. tauto.
  - now rewrite revoke_all_next.
  - rewrite revoke_all_log. set_solver.
  - discriminate.
Qed.

Lemma runEffect3_orphaned u subs c :
  u ∈ live (store c) -> u < nextBlob (store c) -> u ∉ revokeLog (store c) ->
  orphaned u (runEffect3 subs c).
Proof.
  intros Hl Hn Hr. unfold runEffect3.
  destruct subs as [|sub subs]; (repeat split; cbn [store mounted passes];
    [exact Hl|exact Hn|exact Hr|]);
    intros i p Hi Hp; injection Hi as <-;
    rewrite list_lookup_middle in Hp by reflexivity;
    injection Hp as <-; cbn; set_solver.
Qed.

(** A run moves on: the URL stays orphaned as long as the run, if it is
    the mounted one, does not come to list it. *)
Lemma continueWith_orphaned u i p created made rest b c :
  passes c !! i = Some p ->
  u ∈ live b -> u < nextBlob b -> u ∉ revokeLog b ->
  (mounted c = Some i -> u ∉ created) ->
  (forall j q, mounted c = Some j -> passes c !! j = Some q ->
               u ∉ createdUrls q) ->
  orphaned u (continueWith i p created made rest b c).
Proof.
  intros Hp Hl Hn Hr Hc Hm. unfold continueWith.
  destruct rest as [|sub rest];
    (split; [exact Hl|split; [exact Hn|split; [exact Hr|]]]);
    cbn [mounted passes]; intros j q Hj Hq;
    apply list_lookup_insert_Some in Hq;
    destruct Hq as [(<- & <- & _)|(_ & Hq)]; cbn [createdUrls];
    [now apply Hc|exact (Hm _ _ Hj Hq)|now apply Hc|exact (Hm _ _ Hj Hq)].
Qed.

(** No later event revokes an orphaned URL: it stays live for good. *)
Lemma orphaned_step u e c c' :
  orphaned u c -> captionStep e c = Some c' -> orphaned u c'.
Proof.
  intros Ho. pose proof Ho as (Hl & Hn & Hr & Hm).
  destruct e as [subs| |i ok|i srtText]; cbn [captionStep].
  - intros H. injection H as <-.
    destruct (mounted c) as [i|] eqn:Hi.
    + apply (cleanup_orphaned u i c Ho) in Hi. destruct Hi as (? & ? & ? & _).
      now apply runEffect3_orphaned.
    + now apply runEffect3_orphaned.
  - destruct (mounted c) as [i|] eqn:Hi; [|discriminate].
    intros H. injection H as <-. now apply cleanup_orphaned.
  - destruct (passes c !! i) as [p|] eqn:Hp; [|discriminate].
    destruct (awaiting p); try discriminate.
    destruct (remaining p) as [|sub rest]; [discriminate|].
    assert (Hskip : orphaned u
              (continueWith i p (createdUrls p) (newTracks p) rest
                 (store c) c)).
    { apply continueWith_orphaned; try assumption.
      intros Hi. exact (Hm _ _ Hi Hp). }
    destruct ok as [[|]|]; [destruct (active_flag p)|..];
      intros H; injection H as <-; try exact Hskip.
    split; [exact Hl|split; [exact Hn|split; [exact Hr|]]].
    cbn [mounted passes]. intros j q Hj Hq.
    apply list_lookup_insert_Some in Hq.
    destruct Hq as [(<- & <- & _)|(_ & Hq)]; cbn [createdUrls];
      [exact (Hm _ _ Hj Hp)|exact (Hm _ _ Hj Hq)].
  - destruct (passes c !! i) as [p|] eqn:Hp; [|discriminate].
    destruct (awaiting p); try discriminate.
    destruct (remaining p) as [|sub rest]; [discriminate|].
    destruct srtText as [text|]; cbn [createObjectURL];
      intros H; injection H as <-.
    + apply continueWith_orphaned;
        cbn [live nextBlob revokeLog]; try assumption.
      * set_solver.
      * lia.
      * intros Hi. specialize (Hm _ _ Hi Hp).
        rewrite elem_of_app, list_elem_of_singleton. intros [?|?];
          [contradiction|lia].
    + apply continueWith_orphaned; try assumption.
      intros Hi. exact (Hm _ _ Hi Hp).
Qed.

Lemma orphaned_run u es c c' :
  orphaned u c -> captionRun es c = Some c' -> orphaned u c'.
Proof.
  revert c. induction es as [|e es IH]; intros c Ho; cbn [captionRun].
  - intros H. now injection H as <-.
  - destruct (captionStep e c) as [c1|] eqn:E; [|discriminate].
    apply IH. now apply (orphaned_step u e c).
Qed.

Definition subEn : SubtitleTrack :=
  {| sub_url := "https://subs/en.srt"; language := "en";
     display := "English" |}.

(** The descriptors change while the text of the first caption file is
    still being read. *)
Definition supersededWhileReading : list CaptionEvent :=
  [SubtitlesChanged [subEn]; FetchSettled 0 (Some true);
   SubtitlesChanged []; TextSettled 0 (Some "1"%string)].

(** The state this schedule ends in: both runs have finished, the first
    one holding the URL 0 it created after its cleanup. *)
Definition leaked : Captions :=
  {| passes :=
       [{| active_flag := false; createdUrls := [0];
           newTracks := [{| lang := "en"; vtt_url := 0; label := "English" |}];
           remaining := []; awaiting := Settled |};
        {| active_flag := true; createdUrls := []; newTracks := [];
           remaining := []; awaiting := Settled |}];
     mounted := Some 1;
     store := {| nextBlob := 1; live := {[ 0 ]}; revokeLog := [] |};
     tracks := [] |}.

(** C8 at the failing schedule.  The run for one descriptor has passed its
    check of [active] and waits for the text when the descriptor list
    changes; its cleanup revokes nothing, as nothing is created yet.  When
    the text arrives the run creates an object URL, which no cleanup will
    see again: the latest batch is empty, one URL is allocated, it was
    never revoked, and whatever happens afterwards it stays allocated. *)
Theorem superseded_pass_leaks :
  captionRun supersededWhileReading captionsOnMount = Some leaked
  /\ tracks leaked = []
  /\ elements (live (store leaked)) = [0]
  /\ revokeLog (store leaked) = []
  /\ length (tracks leaked) < size (live (store leaked))
  /\ forall es c',
       captionRun es leaked = Some c' ->
       0 ∈ live (store c') /\ 0 ∉ revokeLog (store c').
Proof.
  split; [vm_compute; reflexivity|].
  split; [reflexivity|]. split; [vm_compute; reflexivity|].
  split; [reflexivity|].
  split; [vm_compute; lia|].
  intros es c' Hrun.
  apply (orphaned_run 0) in Hrun.
  - destruct Hrun as (Hl & _ & Hr & _). split; assumption.
  - unfold orphaned, leaked.
    cbn [store live nextBlob revokeLog mounted passes].
    split; [set_solver|]. split; [lia|]. split; [set_solver|].
    intros i p Hi Hp. injection Hi as <-. cbn in Hp. injection Hp as <-.
    cbn. set_solver.
Qed.

(** *** Effect 3 on calm schedules *)

(** The bookkeeping of object URLs on a calm schedule. *)
Record tidy (c : Captions) : Prop := {
  tidy_old : forall i p,
    passes c !! i = Some p -> mounted c <> Some i ->
    active_flag p = false /\ awaiting p <> AwaitText;
  tidy_mounted : forall i,
    mounted c = Some i ->
    exists p,
      passes c !! i = Some p /\ active_flag p = true
      /\ live (store c) = list_to_set (createdUrls p)
      /\ NoDup (createdUrls p)
      /\ length (newTracks p) = length (createdUrls p)
      /\ (awaiting p = Settled -> tracks c = newTracks p);
  tidy_unmounted : mounted c = None -> live (store c) = ∅;
  tidy_bound : forall u, u ∈ live (store c) -> u < nextBlob (store c);
  tidy_log : NoDup (revokeLog (store c));
  tidy_log_bound : forall u,
    u ∈ revokeLog (store c) -> u < nextBlob (store c);
  tidy_disjoint : forall u,
    u ∈ live (store c) -> u ∉ revokeLog (store c);
  tidy_cover : forall u,
    u < nextBlob (store c) ->
    u ∈ live (store c) \/ u ∈ revokeLog (store c)
}.

Lemma tidy_on_mount : tidy captionsOnMount.
Proof.
  split; cbn.
  - intros i p H. discriminate.
  - intros i H. discriminate.
  - reflexivity.
  - set_solver.
  - constructor.
  - set_solver.
  - set_solver.
  - lia.
Qed.

Lemma tidy_cleanup c i :
  tidy c -> mounted c = Some i -> readingText c = false ->
  tidy (cleanup i c).
Proof.
  intros T Hi Hr.
  destruct (tidy_mounted c T i Hi) as (p & Hp & Ha & Hlive & Hnd & Hlen & Hs).
  unfold readingText in Hr. rewrite Hi, Hp in Hr.
  unfold cleanup. rewrite Hp.
  assert (Hempty : live (fold_left (fun b u => revokeObjectURL u b)
                          (createdUrls p) (store c)) = ∅).
  { apply leibniz_equiv. intros u. rewrite revoke_all_live, Hlive.
    set_solver. }
  split; cbn [passes mounted store tracks].
  - intros j q Hq _. apply list_lookup_insert_Some in Hq.
    destruct Hq as [(<- & <- & _)|(Hne & Hq)]; cbn [active_flag awaiting].
    + split; [reflexivity|]. intros E. now rewrite E in Hr.
    + apply (tidy_old c T j q Hq). congruence.
  - discriminate.
  - intros _. exact Hempty.
  - rewrite Hempty. set_solver.
  - rewrite revoke_all_log. apply NoDup_app.
    split; [apply (tidy_log c T)|].
    split; [|exact Hnd].
    intros u Hu Hc. apply (tidy_disjoint c T u); [|exact Hu].
    rewrite Hlive. set_solver.
  - intros u. rewrite revoke_all_log, revoke_all_next, elem_of_app.
    intros [Hu|Hu]; [now apply (tidy_log_bound c T)|].
    apply (tidy_bound c T). rewrite Hlive. set_solver.
  - rewrite Hempty. set_solver.
  - intros u. rewrite revoke_all_log, revoke_all_next, elem_of_app.
    intros Hu. right. destruct (tidy_cover c T u Hu) as [H|H]; [|now left].
    right. rewrite Hlive in H. set_solver.
Qed.

Lemma tidy_runEffect3 subs c :
  tidy c -> mounted c = None -> tidy (runEffect3 subs c).
Proof.
  intros T Hm. pose proof (tidy_unmounted c T Hm) as Hempty.
  unfold runEffect3.
  destruct subs as [|sub subs]; split; cbn [passes mounted store tracks];
    try apply T;
    try (intros j q Hq Hne; apply lookup_snoc_Some in Hq;
         destruct Hq as [(_ & Hq)|(-> & _)]; [|congruence];
         apply (tidy_old c T j q Hq); congruence);
    try discriminate;
    intros i Hi; injection Hi as <-; eexists;
    (split; [apply list_lookup_middle; reflexivity|]);
    cbn [active_flag createdUrls newTracks awaiting];
    repeat split; try assumption; try constructor; try discriminate.
Qed.

(** A run is rewritten without creating a URL. *)
Lemma tidy_rewrite c i p p' tr :
  tidy c -> passes c !! i = Some p ->
  active_flag p' = active_flag p ->
  createdUrls p' = createdUrls p ->
  newTracks p' = newTracks p ->
  (active_flag p = false -> awaiting p' <> AwaitText /\ tr = tracks c) ->
  (active_flag p = true -> awaiting p' = Settled -> tr = newTracks p') ->
  (awaiting p' <> Settled -> tr = tracks c) ->
  tidy {| passes := <[ i := p' ]> (passes c); mounted := mounted c;
          store := store c; tracks := tr |}.
Proof.
  intros T Hp Ea Ec En Hoff Hon Hkeep.
  split; cbn [passes mounted store tracks]; try apply T.
  - intros j q Hq Hne. apply list_lookup_insert_Some in Hq.
    destruct Hq as [(<- & <- & _)|(_ & Hq)].
    + destruct (tidy_old c T i p Hp Hne) as [Hf _].
      rewrite Ea. split; [exact Hf|]. now apply Hoff.
    + now apply (tidy_old c T j q).
  - intros j Hj.
    destruct (tidy_mounted c T j Hj) as (q & Hq & Ha & Hl & Hnd & Hlen & Hs).
    destruct (decide (i = j)) as [->|Hne].
    + assert (q = p) as -> by congruence.
      exists p'. split.
      { apply list_lookup_insert_Some. left.
        repeat split. now apply lookup_lt_Some in Hp. }
      rewrite Ea, Ec, En. repeat split; try assumption.
      rewrite <- En. now apply Hon.
    + exists q. split.
      { apply list_lookup_insert_Some. right. now split. }
      repeat split; try assumption.
      intros Hset. rewrite <- (Hs Hset).
      assert (mounted c <> Some i) as Hni by congruence.
      destruct (tidy_old c T i p Hp Hni) as [Hf _].
      now apply Hoff.
Qed.

Lemma tidy_continue_same c i p rest :
  tidy c -> passes c !! i = Some p ->
  tidy (continueWith i p (createdUrls p) (newTracks p) rest (store c) c).
Proof.
  intros T Hp. unfold continueWith.
  destruct rest as [|sub rest];
    apply (tidy_rewrite c i p); try assumption; try reflexivity;
    cbn [awaiting newTracks active_flag].
  - intros ->. split; [discriminate|reflexivity].
  - intros -> _. reflexivity.
  - congruence.
  - intros _. split; [discriminate|reflexivity].
  - discriminate.
Qed.

(** The mounted run creates a URL. *)
Lemma tidy_create c i p p' tr :
  tidy c -> passes c !! i = Some p -> mounted c = Some i ->
  active_flag p' = true ->
  createdUrls p' = createdUrls p ++ [nextBlob (store c)] ->
  length (newTracks p') = S (length (newTracks p)) ->
  (awaiting p' = Settled -> tr = newTracks p') ->
  tidy {| passes := <[ i := p' ]> (passes c); mounted := mounted c;
          store := snd (createObjectURL (store c)); tracks := tr |}.
Proof.
  intros T Hp Hi Ha Ec En Hs.
  destruct (tidy_mounted c T i Hi)
    as (q & Hq & _ & Hlive & Hnd & Hlen & _).
  assert (q = p) as -> by congruence.
  assert (Hnew : nextBlob (store c) ∉ createdUrls p).
  { intros Hin.
    assert (nextBlob (store c) ∈ live (store c)) as Hl
      by (rewrite Hlive; set_solver).
    apply (tidy_bound c T) in Hl. lia. }
  split; cbn [passes mounted store tracks createObjectURL snd
              live nextBlob revokeLog].
  - intros j r Hr Hne. apply list_lookup_insert_Some in Hr.
    destruct Hr as [(<- & _ & _)|(_ & Hr)]; [congruence|].
    now apply (tidy_old c T j r).
  - intros j Hj. assert (j = i) as -> by congruence.
    exists p'. split.
    { apply list_lookup_insert_Some. left.
      repeat split. now apply lookup_lt_Some in Hp. }
    split; [exact Ha|]. rewrite Ec. split.
    { rewrite Hlive, list_to_set_app_L. set_solver. }
    split.
    { apply NoDup_app. repeat split;
        [exact Hnd|set_solver|apply NoDup_singleton]. }
    split; [|exact Hs].
    rewrite En, length_app, Hlen. cbn. lia.
  - congruence.
  - intros u Hu. apply elem_of_union in Hu. destruct Hu as [Hu|Hu].
    + apply (tidy_bound c T) in Hu. lia.
    + apply elem_of_singleton in Hu. lia.
  - apply (tidy_log c T).
  - intros u Hu. apply (tidy_log_bound c T) in Hu. lia.
  - intros u Hu Hr. apply elem_of_union in Hu. destruct Hu as [Hu|Hu].
    + now apply (tidy_disjoint c T u).
    + apply elem_of_singleton in Hu. subst u.
      apply (tidy_log_bound c T) in Hr. lia.
  - intros u Hu.
    destruct (decide (u = nextBlob (store c))) as [->|Hne].
    + left. set_solver.
    + destruct (tidy_cover c T u ltac:(lia)) as [H|H];
        [left; set_solver|now right].
Qed.

Lemma tidy_step e c c' :
  tidy c -> calm e c = true -> captionStep e c = Some c' -> tidy c'.
Proof.
  intros T Hcalm.
  destruct e as [subs| |i ok|i srtText]; cbn [captionStep calm] in *.
  - apply negb_true_iff in Hcalm. intros H. injection H as <-.
    destruct (mounted c) as [i|] eqn:Hi.
    + apply tidy_runEffect3; [now apply tidy_cleanup|].
      destruct (tidy_mounted c T i Hi) as (p & Hp & _).
      unfold cleanup. now rewrite Hp.
    + now apply tidy_runEffect3.
  - apply negb_true_iff in Hcalm.
    destruct (mounted c) as [i|] eqn:Hi; [|discriminate].
    intros H. injection H as <-. now apply tidy_cleanup.
  - destruct (passes c !! i) as [p|] eqn:Hp; [|discriminate].
    destruct (awaiting p) eqn:Hw; try discriminate.
    destruct (remaining p) as [|sub rest]; [discriminate|].
    destruct ok as [[|]|]; [destruct (active_flag p) eqn:Ha|..];
      intros H; injection H as <-; try now apply tidy_continue_same.
    apply (tidy_rewrite c i p); try assumption; try reflexivity;
      cbn [awaiting active_flag]; congruence.
  - destruct (passes c !! i) as [p|] eqn:Hp; [|discriminate].
    destruct (awaiting p) eqn:Hw; try discriminate.
    destruct (remaining p) as [|sub rest]; [discriminate|].
    destruct srtText as [text|]; cbn [createObjectURL];
      intros H; injection H as <-; [|now apply tidy_continue_same].
    assert (Hi : mounted c = Some i).
    { destruct (decide (mounted c = Some i)) as [E|E]; [exact E|].
      destruct (tidy_old c T i p Hp E) as [_ Hn]. congruence. }
    destruct (tidy_mounted c T i Hi) as (q & Hq & Ha & _).
    assert (q = p) as -> by congruence.
    unfold continueWith. rewrite Ha.
    destruct rest as [|sub' rest];
      apply (tidy_create c i p); try assumption;
      cbn [active_flag createdUrls newTracks awaiting];
      try reflexivity; try discriminate;
      rewrite length_app; cbn; lia.
Qed.

Lemma calmRun_tidy es :
  forall c c', tidy c -> calmRun es c = Some c' -> tidy c'.
Proof.
  induction es as [|e es IH]; intros c c' T; cbn [calmRun].
  - intros H. now injection H as <-.
  - destruct (calm e c) eqn:Hc; [|discriminate].
    destruct (captionStep e c) as [c1|] eqn:E; [|discriminate].
    apply IH. now apply (tidy_step e c).
Qed.

(** What C8 asks for holds on calm schedules: no URL is revoked twice,
    none is revoked while its run is mounted, every URL ever created is
    either owned by the mounted run or revoked, and the URLs allocated are
    as many as the tracks the mounted run has made, which is the size of
    the batch once the run has finished. *)
Lemma calm_schedule_hygiene es c :
  calmRun es captionsOnMount = Some c ->
  NoDup (revokeLog (store c))
  /\ (forall u, u ∈ live (store c) -> u ∉ revokeLog (store c))
  /\ (forall u, u < nextBlob (store c) ->
                u ∈ live (store c) \/ u ∈ revokeLog (store c))
  /\ match mounted c with
     | Some i =>
         exists p,
           passes c !! i = Some p
           /\ size (live (store c)) = length (newTracks p)
           /\ (awaiting p = Settled ->
               size (live (store c)) = length (tracks c))
     | None => size (live (store c)) = 0
     end.
Proof.
  intros Hrun. pose proof (calmRun_tidy es _ _ tidy_on_mount Hrun) as T.
  split; [apply (tidy_log c T)|]. split; [apply (tidy_disjoint c T)|].
  split; [apply (tidy_cover c T)|].
  destruct (mounted c) as [i|] eqn:Hi.
  - destruct (tidy_mounted c T i Hi)
      as (p & Hp & Ha & Hlive & Hnd & Hlen & Hs).
    exists p. split; [exact Hp|].
    assert (size (live (store c)) = length (newTracks p)) as E.
    { rewrite Hlive, Hlen. now apply size_list_to_set. }
    split; [exact E|]. intros Hset. now rewrite (Hs Hset).
  - rewrite (tidy_unmounted c T Hi). apply size_empty.
Qed.

End PlayerProps.

(** ** The key handler over sequences of events *)

Module KeysProps.
Import JS App Keys.
Local Open Scope Q_scope.

Lemma arrow_key_direction key :
  includes arrowKeys key = true -> exists d, key = keyOf d.
Proof.
  unfold includes, arrowKeys. cbn [existsb]. rewrite !orb_true_iff.
  intros [H|[H|[H|[H|H]]]]; try discriminate; apply String.eqb_eq in H.
  - now exists Up.
  - now exists Down.
  - now exists Left.
  - now exists Right.
Qed.

Lemma spatialNavigation_focus dom key el :
  In (Focus el) (spatialNavigation dom key) ->
  includes arrowKeys key = true
  /\ spatialNavigation dom key = [PreventDefault; Focus el; ScrollIntoView el]
  /\ match activeElement dom with
     | Some cur =>
         if cls_focusable cur
         then bestCandidate key cur (navigationScope dom) = Some el
         else firstFocusable (navigationScope dom) = Some el
     | None => firstFocusable (navigationScope dom) = Some el
     end.
Proof.
  unfold spatialNavigation.
  destruct (includes arrowKeys key); cbn [negb]; [|intros []].
  intros [H|H]; [discriminate|].
  destruct (activeElement dom) as [cur|].
  - destruct (cls_focusable cur).
    + destruct (bestCandidate _ _ _) as [b|]; [|destruct H].
      destruct H as [H|[H|[]]]; [|discriminate]. injection H as ->. auto.
    + destruct (firstFocusable _) as [b|]; [|destruct H].
      destruct H as [H|[H|[]]]; [|discriminate]. injection H as ->. auto.
  - destruct (firstFocusable _) as [b|]; [|destruct H].
    destruct H as [H|[H|[]]]; [|discriminate]. injection H as ->. auto.
Qed.

Lemma handleKeyDown_focus now dom key s el :
  In (Focus el) (snd (handleKeyDown now dom key s)) ->
  snd (handleKeyDown now dom key s) = spatialNavigation dom key
  /\ In (Focus el) (spatialNavigation dom key).
Proof.
  unfold handleKeyDown. destruct (showTvCursor s).
  - destruct (includes arrowKeys key); cbn [snd]; [auto|].
    destruct (key =? "Enter")%string; cbn [snd]; [|intros []].
    intros [H|H]; [discriminate|].
    destruct (elementFromPoint dom _ _) as [e|]; [|destruct H].
    destruct (is_html_element e); [|destruct H].
    destruct H as [H|[]]. discriminate.
  - cbn [snd]. auto.
Qed.


Lemma In_focusables el scope :
  In el (focusables scope) <->
  In el scope /\ cls_focusable el = true /\ attr_disabled el = false
  /\ isShown el = true.
Proof.
  unfold focusables. rewrite !filter_In, andb_true_iff, negb_true_iff. tauto.
Qed.

Lemma navigatorSpec_survivor d cur cands el :
  navigatorSpec d cur cands = Some el ->
  In el cands /\ same_node el cur = false /\ halfPlane d cur el = true.
Proof.
  unfold navigatorSpec. intros H. apply AppProps.firstMin_split in H.
  destruct H as (l1 & l2 & E & _).
  assert (Hin : In el (survivors d cur cands)).
  { rewrite E. apply in_or_app. right. now left. }
  unfold survivors in Hin. rewrite !filter_In, negb_true_iff in Hin. tauto.
Qed.

(** X1. Whatever the state of the cursor and whatever the key, an element
    that receives focus from the global key handler lies in the navigation
    scope (the modal's content when a modal is open) and carries the class
    focusable, the key is an arrow key, and the keypress does exactly:
    preventDefault, focus, scrollIntoView.  When the focused element was a
    focusable itself, the new one is moreover enabled, visible with a
    non-empty box, another node than the current one, and its centre lies
    strictly on the side of the arrow. *)
Theorem focus_target_sound now dom key s el :
  In (Focus el) (snd (handleKeyDown now dom key s)) ->
  In el (navigationScope dom)
  /\ cls_focusable el = true
  /\ (exists d, key = keyOf d)
  /\ snd (handleKeyDown now dom key s)
     = [PreventDefault; Focus el; ScrollIntoView el]
  /\ (forall m, modal dom = Some m -> In el m)
  /\ (forall cur,
        activeElement dom = Some cur -> cls_focusable cur = true ->
        attr_disabled el = false /\ isShown el = true
        /\ node el <> node cur
        /\ exists d, key = keyOf d /\ halfPlane d cur el = true).
Proof.
  intros H. apply handleKeyDown_focus in H. destruct H as [E H].
  rewrite E. apply spatialNavigation_focus in H.
  destruct H as (Hk & Hs & Ht).
  destruct (arrow_key_direction key Hk) as [d ->].
  assert (Hbase : In el (navigationScope dom) /\ cls_focusable el = true).
  { destruct (activeElement dom) as [cur|];
      [destruct (cls_focusable cur)|].
    - rewrite AppProps.bestCandidate_navigatorSpec in Ht.
      apply navigatorSpec_survivor in Ht. destruct Ht as (Hin & _).
      apply In_focusables in Hin. tauto.
    - unfold firstFocusable in Ht. apply find_some in Ht. tauto.
    - unfold firstFocusable in Ht. apply find_some in Ht. tauto. }
  destruct Hbase as [Hin Hc].
  split; [exact Hin|]. split; [exact Hc|]. split; [now exists d|].
  split; [exact Hs|]. split.
  - intros m Hm. unfold navigationScope in Hin. now rewrite Hm in Hin.
  - intros cur Hcur Hf. rewrite Hcur, Hf in Ht.
    rewrite AppProps.bestCandidate_navigatorSpec in Ht.
    apply navigatorSpec_survivor in Ht. destruct Ht as (Hi & Hn & Hh).
    apply In_focusables in Hi. destruct Hi as (_ & _ & Hd & Hv).
    split; [exact Hd|]. split; [exact Hv|]. split.
    + unfold same_node in Hn. now apply Nat.eqb_neq in Hn.
    + now exists d.
Qed.

Lemma focus_target_sound_witness :
  In AppProps.elB (navigationScope AppProps.exampleDom)
  /\ node AppProps.elB <> node AppProps.elA.
Proof.
  destruct (focus_target_sound 0 AppProps.exampleDom "ArrowRight"
              (initial 1920 1080) AppProps.elB)
    as (Hin & _ & _ & _ & _ & Hcur).
  - right. now left.
  - split; [exact Hin|].
    destruct (Hcur AppProps.elA eq_refl eq_refl) as (_ & _ & Hn & _).
    exact Hn.
Defined.







(** *** Timers *)

Definition isReset (t : Timer) : bool :=
  match action t with
  | ResetEnterPressCount => true
  | ClearClickEffect => false
  end.

Lemma fire_all (l : list Timer) (s : State) :
  fold_left (fun s t => fire (action t) s) l s =
  {| enterPressCount := if existsb isReset l then 0%nat else enterPressCount s;
     showTvCursor := showTvCursor s;
     enterPressTimeout := enterPressTimeout s;
     cursorPosition := cursorPosition s;
     clickEffect := clickEffect s && forallb isReset l;
     timers := timers s; nextTimer := nextTimer s |}.
Proof.
  revert s. induction l as [|t l IH]; intros s; cbn [fold_left].
  - cbn. rewrite andb_true_r. now destruct s.
  - rewrite IH. cbn [existsb forallb].
    destruct (action t) eqn:Ea.
    + assert (isReset t = true) as -> by (unfold isReset; now rewrite Ea).
      cbn [fire orb andb]. unfold set_enterPressCount.
      cbn [enterPressCount showTvCursor enterPressTimeout cursorPosition
           clickEffect timers nextTimer].
      now destruct (existsb isReset l).
    + assert (isReset t = false) as -> by (unfold isReset; now rewrite Ea).
      cbn [fire orb andb]. unfold set_clickEffect.
      cbn [enterPressCount showTvCursor enterPressTimeout cursorPosition
           clickEffect timers nextTimer].
      now rewrite andb_false_r.
Qed.

(** What letting the clock run does to the state. *)
Lemma advance_eq now s :
  advance now s =
  {| enterPressCount :=
       if existsb isReset (List.filter (due now) (timers s))
       then 0%nat else enterPressCount s;
     showTvCursor := showTvCursor s;
     enterPressTimeout := enterPressTimeout s;
     cursorPosition := cursorPosition s;
     clickEffect :=
       clickEffect s && forallb isReset (List.filter (due now) (timers s));
     timers := List.filter (fun t => negb (due now t)) (timers s);
     nextTimer := nextTimer s |}.
Proof. unfold advance. rewrite fire_all. reflexivity. Qed.

(** Letting the clock run in two steps is letting it run in one. *)
Lemma advance_advance t1 t2 s :
  (t1 <= t2)%nat -> advance t2 (advance t1 s) = advance t2 s.
Proof.
  intros Hle. rewrite (advance_eq t2 (advance t1 s)), (advance_eq t1 s).
  rewrite (advance_eq t2 s). cbn [timers enterPressCount clickEffect
    showTvCursor enterPressTimeout cursorPosition nextTimer].
  generalize (timers s) as l. intros l.
  assert (Hdue : forall t, due t1 t = true -> due t2 t = true).
  { intros t. unfold due. rewrite !Nat.leb_le. lia. }
  f_equal.
  - induction l as [|t l IH]; [reflexivity|]. cbn [List.filter].
    destruct (due t1 t) eqn:D1; cbn [negb].
    + rewrite (Hdue t D1). cbn [existsb]. destruct (isReset t); cbn [orb].
      * now destruct (existsb isReset (List.filter (due t2) _)).
      * exact IH.
    + cbn [List.filter]. destruct (due t2 t); cbn [existsb]; [|exact IH].
      destruct (isReset t); cbn [orb]; [reflexivity|exact IH].
  - induction l as [|t l IH]; [cbn; now rewrite !andb_true_r|].
    cbn [List.filter].
    destruct (due t1 t) eqn:D1; cbn [negb].
    + rewrite (Hdue t D1). cbn [forallb]. destruct (isReset t); cbn [andb].
      * exact IH.
      * now rewrite !andb_false_r.
    + cbn [List.filter]. destruct (due t2 t); cbn [forallb]; [|exact IH].
      destruct (isReset t); cbn [andb]; [exact IH|].
      now rewrite !andb_false_r.
  - induction l as [|t l IH]; [reflexivity|]. cbn [List.filter].
    destruct (due t1 t) eqn:D1; cbn [negb].
    + now rewrite (Hdue t D1).
    + cbn [List.filter]. destruct (due t2 t); cbn [negb]; [exact IH|].
      now rewrite IH.
Qed.

(** *** The armed cursor over sequences *)

Definition harmless (e : Effect) : Prop :=
  match e with
  | PreventDefault | Click _ => True
  | Focus _ | ScrollIntoView _ => False
  end.

Lemma advance_showTvCursor now s :
  showTvCursor (advance now s) = showTvCursor s.
Proof. now rewrite advance_eq. Qed.

Lemma handleKeyDown_armed_no_arrow now dom key s :
  showTvCursor s = true -> includes arrowKeys key = false ->
  showTvCursor (fst (handleKeyDown now dom key s)) = true
  /\ Forall harmless (snd (handleKeyDown now dom key s))
  /\ ((key =? "Enter")%string = false -> handleKeyDown now dom key s = (s, [])).
Proof.
  intros Ha Hk. unfold handleKeyDown. rewrite Ha, Hk.
  destruct (key =? "Enter")%string eqn:He.
  - cbn [fst snd setTimeout]. split; [|split; [|discriminate]].
    + cbn. now apply AppProps.countEnter_showTvCursor.
    + constructor; [exact I|].
      destruct (elementFromPoint dom _ _) as [el|]; [|constructor].
      destruct (is_html_element el); repeat constructor.
  - cbn [fst snd]. split; [exact Ha|]. split; [constructor|reflexivity].
Qed.

(** The time of the last event of a sequence that starts at [now]. *)
Definition endTime (now : nat) (events : list KeyEvent) : nat :=
  fold_left (fun t e => (t + gap e)%nat) events now.

Lemma endTime_le events : forall now, (now <= endTime now events)%nat.
Proof.
  unfold endTime. induction events as [|e rest IH]; intros now; cbn; [lia|].
  specialize (IH (now + gap e)%nat). lia.
Qed.

(** X3. While the cursor is armed, keys other than the arrows never reach
    the navigation logic: over any sequence of such keypresses, with any
    pauses and timers in between, the cursor stays armed and nothing is
    ever focused or scrolled; and a sequence without Enter leaves the
    state as the passing of time alone would have left it.  An arrow key,
    in any state, leaves the cursor put away, touches neither the press
    counter nor a timer, and is navigated as if the cursor had not been
    armed. *)
Theorem armed_swallows_keys :
  (forall events now s,
     showTvCursor s = true ->
     Forall (fun e => includes arrowKeys (key e) = false) events ->
     showTvCursor (fst (handleKeys now events s)) = true
     /\ Forall harmless (snd (handleKeys now events s))
     /\ (Forall (fun e => (key e =? "Enter")%string = false) events ->
         events <> [] ->
         handleKeys now events s = (advance (endTime now events) s, [])))
  /\ (forall now dom d s,
        showTvCursor (fst (handleKeyDown now dom (keyOf d) s)) = false
        /\ enterPressCount (fst (handleKeyDown now dom (keyOf d) s))
           = enterPressCount s
        /\ timers (fst (handleKeyDown now dom (keyOf d) s)) = timers s
        /\ snd (handleKeyDown now dom (keyOf d) s)
           = snd (handleKeyDown now dom (keyOf d)
                    (set_showTvCursor false s))).
Proof.
  split.
  - induction events as [|e rest IH]; intros now s Ha Hk.
    + cbn. split; [exact Ha|]. split; [constructor|]. intros _ H.
      now contradiction H.
    + inversion Hk as [|? ? Hk1 Hk2]; subst. cbn [handleKeys].
      assert (Ha' : showTvCursor (advance (now + gap e) s) = true)
        by now rewrite advance_showTvCursor.
      destruct (handleKeyDown_armed_no_arrow (now + gap e) (doc e) (key e)
                  _ Ha' Hk1) as (H1 & H2 & H3).
      destruct (IH (now + gap e)%nat _ H1 Hk2) as (I1 & I2 & I3).
      cbn [fst snd]. split; [exact I1|]. split.
      * apply Forall_app. now split.
      * intros He _. inversion He as [|? ? He1 He2]; subst.
        specialize (H3 He1). rewrite H3 in *. cbn [fst snd] in *.
        destruct rest as [|e' rest'].
        -- reflexivity.
        -- rewrite (I3 He2) by discriminate. cbn [fst snd].
           change (endTime now (e :: e' :: rest'))
             with (endTime (now + gap e) (e' :: rest')).
           rewrite advance_advance; [reflexivity|apply endTime_le].
  - intros now dom d s. rewrite !AppProps.handleKeyDown_arrow. cbn [fst snd].
    destruct (showTvCursor s) eqn:E; cbn; rewrite ?E; repeat split.
Qed.

Definition otherKey (g : nat) (k : string) : KeyEvent :=
  {| gap := g; doc := AppProps.exampleDom; key := k |}.

Lemma armed_swallows_keys_witness :
  showTvCursor
    (fst (handleKeys 0 [otherKey 10 "Enter"; otherKey 700 "a"]
            AppProps.armedState)) = true.
Proof.
  apply (proj1 armed_swallows_keys
           [otherKey 10 "Enter"; otherKey 700 "a"] 0%nat AppProps.armedState).
  - reflexivity.
  - repeat constructor.
Defined.


(** *** What every reachable state of the cursor controller satisfies *)

Record steady (s : State) : Prop := {
  steady_count : (enterPressCount s <= 2)%nat;
  steady_ids :
    Forall (fun t => (timer_id t < nextTimer s)%positive) (timers s);
  steady_nodup : NoDup (map timer_id (timers s));
  steady_ref : forall id,
    enterPressTimeout s = Some id -> (id < nextTimer s)%positive;
  steady_ref_reset : forall t,
    In t (timers s) -> enterPressTimeout s = Some (timer_id t) ->
    isReset t = true;
  steady_reset : forall t,
    In t (timers s) -> isReset t = true ->
    enterPressTimeout s = Some (timer_id t) /\ (0 < enterPressCount s)%nat;
  steady_counting :
    (0 < enterPressCount s)%nat ->
    exists t, In t (timers s) /\ isReset t = true;
  steady_click :
    clickEffect s = true -> exists t, In t (timers s) /\ isReset t = false
}.

Lemma steady_initial w h : steady (initial w h).
Proof.
  split; cbn; try constructor; try discriminate; try lia; try tauto.
Qed.

Lemma NoDup_map_filter {A B} (f : A -> B) (p : A -> bool) (l : list A) :
  NoDup (map f l) -> NoDup (map f (List.filter p l)).
Proof.
  induction l as [|x l IH]; cbn; [auto|].
  intros H. apply NoDup_cons in H. destruct H as [Hx Hl].
  destruct (p x); cbn; [|auto].
  apply NoDup_cons. split; [|auto].
  intros Hin. apply Hx. rewrite list_elem_of_In, in_map_iff in *.
  destruct Hin as (y & Ey & Hy). exists y. split; [exact Ey|].
  apply filter_In in Hy. tauto.
Qed.

(** Two pending timers with the same id are one timer. *)
Lemma same_id_same_timer (l : list Timer) (a b : Timer) :
  NoDup (map timer_id l) -> In a l -> In b l -> timer_id a = timer_id b ->
  a = b.
Proof.
  induction l as [|x l IH]; cbn; [tauto|].
  intros H. apply NoDup_cons in H. destruct H as [Hx Hl].
  intros [->|Ha] [->|Hb] E; auto.
  - exfalso. apply Hx. rewrite list_elem_of_In, in_map_iff.
    exists b. now split.
  - exfalso. apply Hx. rewrite list_elem_of_In, in_map_iff.
    exists a. now split.
Qed.

Lemma steady_advance now s : steady s -> steady (advance now s).
Proof.
  intros St. rewrite advance_eq.
  split; cbn [enterPressCount timers nextTimer enterPressTimeout clickEffect].
  - pose proof (steady_count s St). destruct (existsb _ _); lia.
  - pose proof (steady_ids s St) as H. rewrite List.Forall_forall in *.
    intros t Ht. apply filter_In in Ht. now apply H.
  - apply NoDup_map_filter, (steady_nodup s St).
  - apply (steady_ref s St).
  - intros t Ht. apply filter_In in Ht. now apply (steady_ref_reset s St).
  - intros t Ht Hr. apply filter_In in Ht. destruct Ht as [Ht Hd].
    destruct (steady_reset s St t Ht Hr) as [E Hc]. split; [exact E|].
    destruct (existsb isReset _) eqn:Ex; [|exact Hc].
    apply existsb_exists in Ex. destruct Ex as (t' & Ht' & Hr').
    apply filter_In in Ht'. destruct Ht' as [Ht' Hd'].
    destruct (steady_reset s St t' Ht' Hr') as [E' _].
    assert (t = t').
    { apply (same_id_same_timer (timers s)); try assumption.
      apply (steady_nodup s St). congruence. }
    subst t'. rewrite Hd' in Hd. discriminate.
  - destruct (existsb isReset _) eqn:Ex; [lia|]. intros Hc.
    destruct (steady_counting s St Hc) as (t & Ht & Hr).
    exists t. split; [|exact Hr]. apply filter_In. split; [exact Ht|].
    destruct (due now t) eqn:Hd; [|reflexivity].
    assert (existsb isReset (List.filter (due now) (timers s)) = true)
      as Hex; [|congruence].
    apply existsb_exists. exists t. split; [|exact Hr].
    apply filter_In. now split.
  - intros Hc. apply andb_true_iff in Hc. destruct Hc as [Hc Hall].
    destruct (steady_click s St Hc) as (t & Ht & Hr).
    exists t. split; [|exact Hr]. apply filter_In. split; [exact Ht|].
    destruct (due now t) eqn:Hd; [|reflexivity].
    rewrite forallb_forall in Hall.
    rewrite (Hall t) in Hr; [discriminate|]. apply filter_In. now split.
Qed.

Lemma enqueue_ids (t : Timer) (ts : list Timer) :
  NoDup (map timer_id ts) ->
  Forall (fun u => (timer_id u < timer_id t)%positive) ts ->
  NoDup (map timer_id (enqueue t ts)).
Proof.
  induction ts as [|u us IH]; intros Hn Hlt; cbn [enqueue map].
  - apply NoDup_singleton.
  - cbn [map] in Hn. apply NoDup_cons in Hn. destruct Hn as [Hu Hn].
    inversion Hlt as [|? ? Hu' Hus]; subst.
    destruct (deadline t <? deadline u)%nat; cbn [map].
    + apply NoDup_cons. split; [|apply NoDup_cons; now split].
      rewrite list_elem_of_In. intros [E|Hin].
      * rewrite E in Hu'. lia.
      * apply in_map_iff in Hin. destruct Hin as (x & Ex & Hx).
        rewrite List.Forall_forall in Hus. specialize (Hus x Hx). lia.
    + apply NoDup_cons. split; [|now apply IH].
      rewrite list_elem_of_In, in_map_iff.
      intros (x & Ex & Hx). apply AppProps.enqueue_In in Hx.
      destruct Hx as [->|Hx]; [lia|].
      apply Hu. rewrite list_elem_of_In, in_map_iff. now exists x.
Qed.

(** The first step of the triple-press block, [clearTimeout] of the id in
    the ref, removes the pending reset timer and nothing else. *)
Definition cleared (s : State) : State :=
  match enterPressTimeout s with
  | Some id => clearTimeout id s
  | None => s
  end.

Lemma cleared_timers s :
  steady s ->
  timers (cleared s) = List.filter (fun t => negb (isReset t)) (timers s).
Proof.
  intros St. unfold cleared.
  destruct (enterPressTimeout s) as [id|] eqn:E; cbn [timers clearTimeout
    set_timers].
  - apply filter_ext_in. intros t Ht. f_equal.
    destruct (isReset t) eqn:Hr.
    + destruct (steady_reset s St t Ht Hr) as [E' _].
      rewrite E in E'. injection E' as ->. apply Pos.eqb_refl.
    + apply Pos.eqb_neq. intros <-.
      rewrite (steady_ref_reset s St t Ht E) in Hr. discriminate.
  - symmetry. rewrite <- (filter_ext_in (fun _ => true)).
    + induction (timers s) as [|x l IH]; cbn; [reflexivity|]. now rewrite IH.
    + intros t Ht. destruct (isReset t) eqn:Hr; [|reflexivity].
      destruct (steady_reset s St t Ht Hr) as [E' _]. congruence.
Qed.

Lemma cleared_fields s :
  enterPressCount (cleared s) = enterPressCount s
  /\ showTvCursor (cleared s) = showTvCursor s
  /\ enterPressTimeout (cleared s) = enterPressTimeout s
  /\ clickEffect (cleared s) = clickEffect s
  /\ nextTimer (cleared s) = nextTimer s
  /\ cursorPosition (cleared s) = cursorPosition s.
Proof.
  unfold cleared.
  destruct (enterPressTimeout s) eqn:E; cbn; rewrite ?E; repeat split.
Qed.

Lemma countEnter_cleared now s :
  countEnter now s =
  let newCount := S (enterPressCount s) in
  let s2 := set_enterPressCount newCount (cleared s) in
  if (newCount =? 3)%nat then
    set_enterPressCount 0 (set_showTvCursor true s2)
  else
    set_enterPressTimeout (Some (nextTimer s))
      (snd (setTimeout now 500 ResetEnterPressCount s2)).
Proof.
  unfold countEnter, cleared. cbv zeta.
  destruct (S (enterPressCount s) =? 3)%nat; [reflexivity|].
  destruct (enterPressTimeout s); reflexivity.
Qed.

Lemma steady_countEnter now s : steady s -> steady (countEnter now s).
Proof.
  intros St. rewrite countEnter_cleared. cbv zeta.
  pose proof (cleared_timers s St) as Ht.
  destruct (cleared_fields s) as (Fc & Fs & Fr & Fk & Fn & _).
  assert (Hids : Forall (fun t => (timer_id t < nextTimer s)%positive)
                   (timers (cleared s))).
  { rewrite Ht. pose proof (steady_ids s St) as H.
    rewrite List.Forall_forall in *. intros t Hin.
    apply filter_In in Hin. now apply H. }
  assert (Hnd : NoDup (map timer_id (timers (cleared s)))).
  { rewrite Ht. apply NoDup_map_filter, (steady_nodup s St). }
  assert (Hnone : forall t, In t (timers (cleared s)) -> isReset t = false).
  { intros t Hin. rewrite Ht in Hin. apply filter_In in Hin.
    now apply negb_true_iff. }
  assert (Hkeep : forall t, In t (timers s) -> isReset t = false ->
                            In t (timers (cleared s))).
  { intros t Hin Hr. rewrite Ht. apply filter_In. now rewrite Hr. }
  destruct (S (enterPressCount s) =? 3)%nat eqn:E3.
  - split; cbn [enterPressCount timers nextTimer enterPressTimeout
                clickEffect set_enterPressCount set_showTvCursor].
    + lia.
    + now rewrite Fn.
    + exact Hnd.
    + rewrite Fr, Fn. apply (steady_ref s St).
    + intros t Hin E. rewrite Ht in Hin. apply filter_In in Hin.
      apply (steady_ref_reset s St t (proj1 Hin)). now rewrite <- Fr.
    + intros t Hin Hr. rewrite (Hnone t Hin) in Hr. discriminate.
    + lia.
    + rewrite Fk. intros Hc. destruct (steady_click s St Hc) as (t & Hin & Hr).
      exists t. split; [now apply Hkeep|exact Hr].
  - apply Nat.eqb_neq in E3. pose proof (steady_count s St) as Hc2.
    split; cbn [enterPressCount timers nextTimer enterPressTimeout
                clickEffect set_enterPressCount set_enterPressTimeout
                setTimeout snd set_nextTimer set_timers].
    + lia.
    + rewrite Fn. apply List.Forall_forall. intros t Hin.
      apply AppProps.enqueue_In in Hin. destruct Hin as [->|Hin].
      * cbn. lia.
      * rewrite List.Forall_forall in Hids. specialize (Hids t Hin). lia.
    + apply enqueue_ids; [exact Hnd|]. cbn [timer_id]. now rewrite Fn.
    + intros id E. injection E as <-. rewrite Fn. lia.
    + intros t Hin E. injection E as E. apply AppProps.enqueue_In in Hin.
      destruct Hin as [->|Hin]; [reflexivity|].
      rewrite List.Forall_forall in Hids. specialize (Hids t Hin).
      lia.
    + intros t Hin Hr. apply AppProps.enqueue_In in Hin.
      destruct Hin as [->|Hin].
      * cbn [timer_id]. rewrite Fn. split; [reflexivity|lia].
      * rewrite (Hnone t Hin) in Hr. discriminate.
    + intros _. eexists. split; [apply AppProps.enqueue_In; now left|].
      reflexivity.
    + rewrite Fk. intros Hc. destruct (steady_click s St Hc) as (t & Hin & Hr).
      exists t. split; [|exact Hr].
      apply AppProps.enqueue_In. right. now apply Hkeep.
Qed.

(** The click of an armed Enter on a steady state. *)
Lemma steady_click_pulse now s :
  steady s ->
  steady (snd (setTimeout now 400 ClearClickEffect (set_clickEffect true s))).
Proof.
  intros St.
  split; cbn [enterPressCount timers nextTimer enterPressTimeout
              clickEffect set_clickEffect setTimeout snd set_nextTimer
              set_timers].
  - apply (steady_count s St).
  - pose proof (steady_ids s St) as H. apply List.Forall_forall.
    rewrite List.Forall_forall in H. intros t Hin.
    apply AppProps.enqueue_In in Hin. destruct Hin as [->|Hin].
    + cbn. lia.
    + specialize (H t Hin). lia.
  - apply enqueue_ids; [apply (steady_nodup s St)|apply (steady_ids s St)].
  - intros id E. pose proof (steady_ref s St id E). lia.
  - intros t Hin E. apply AppProps.enqueue_In in Hin.
    destruct Hin as [->|Hin].
    + cbn [timer_id] in E. pose proof (steady_ref s St _ E). lia.
    + now apply (steady_ref_reset s St).
  - intros t Hin Hr. apply AppProps.enqueue_In in Hin.
    destruct Hin as [->|Hin]; [discriminate|].
    now apply (steady_reset s St).
  - intros Hc. destruct (steady_counting s St Hc) as (t & Hin & Hr).
    exists t. split; [|exact Hr]. apply AppProps.enqueue_In. now right.
  - intros _. eexists. split; [apply AppProps.enqueue_In; now left|].
    reflexivity.
Qed.

Lemma steady_showTvCursor b s : steady s -> steady (set_showTvCursor b s).
Proof. intros St. destruct St. split; assumption. Qed.

Lemma steady_handleKeyDown now dom key s :
  steady s -> steady (fst (handleKeyDown now dom key s)).
Proof.
  intros St. unfold handleKeyDown.
  assert (S1 : steady (if (key =? "Enter")%string then countEnter now s
                       else s)).
  { destruct (key =? "Enter")%string; [now apply steady_countEnter|exact St]. }
  destruct (showTvCursor s).
  - destruct (includes arrowKeys key); cbn [fst].
    + now apply steady_showTvCursor.
    + destruct (key =? "Enter")%string; cbn [fst]; [|exact S1].
      now apply steady_click_pulse.
  - exact S1.
Qed.

Lemma steady_handleKeys events :
  forall now s, steady s -> steady (fst (handleKeys now events s)).
Proof.
  induction events as [|e rest IH]; intros now s St; cbn [handleKeys fst].
  - exact St.
  - apply IH. apply steady_handleKeyDown. now apply steady_advance.
Qed.

(** X4. After any sequence of keypresses on the mounted application, with
    any pauses in between: the press counter is 0, 1 or 2; exactly one
    reset timer is pending when the counter is positive and none when it
    is 0, and the ref holds its id; no two pending timers share an id; and
    when the click effect is on, a timer that will switch it off is
    pending. *)
Theorem cursor_controller_steady innerWidth innerHeight now events :
  let s := fst (handleKeys now events (initial innerWidth innerHeight)) in
  (enterPressCount s <= 2)%nat
  /\ length (List.filter isReset (timers s))
     = (if (enterPressCount s =? 0)%nat then 0 else 1)%nat
  /\ (forall t, In t (timers s) -> isReset t = true ->
                enterPressTimeout s = Some (timer_id t))
  /\ NoDup (map timer_id (timers s))
  /\ (clickEffect s = true ->
      exists t, In t (timers s) /\ action t = ClearClickEffect).
Proof.
  intros s.
  assert (St : steady s)
    by (apply steady_handleKeys, steady_initial).
  split; [apply (steady_count s St)|]. split; [|split; [|split]].
  - destruct (enterPressCount s =? 0)%nat eqn:E0.
    + apply Nat.eqb_eq in E0.
      destruct (List.filter isReset (timers s)) as [|t l] eqn:F;
        [reflexivity|].
      assert (In t (List.filter isReset (timers s))) as Hin
        by (rewrite F; now left).
      apply filter_In in Hin. destruct Hin as [Hin Hr].
      destruct (steady_reset s St t Hin Hr) as [_ Hc]. lia.
    + apply Nat.eqb_neq in E0.
      destruct (steady_counting s St ltac:(lia)) as (t & Hin & Hr).
      destruct (List.filter isReset (timers s)) as [|a [|b l]] eqn:F.
      * assert (In t (List.filter isReset (timers s))) as H
          by (apply filter_In; now split).
        rewrite F in H. destruct H.
      * reflexivity.
      * exfalso.
        assert (Ha : In a (List.filter isReset (timers s)))
          by (rewrite F; now left).
        assert (Hb : In b (List.filter isReset (timers s)))
          by (rewrite F; right; now left).
        apply filter_In in Ha. apply filter_In in Hb.
        destruct Ha as [Ha Hra]. destruct Hb as [Hb Hrb].
        destruct (steady_reset s St a Ha Hra) as [Ea _].
        destruct (steady_reset s St b Hb Hrb) as [Eb _].
        assert (Hnd : NoDup (map timer_id (List.filter isReset (timers s))))
          by (apply NoDup_map_filter, (steady_nodup s St)).
        rewrite F in Hnd. cbn [map] in Hnd.
        apply NoDup_cons in Hnd. destruct Hnd as [Hnot _].
        apply Hnot. rewrite list_elem_of_In. left. congruence.
  - intros t Hin Hr. now apply (steady_reset s St).
  - apply (steady_nodup s St).
  - intros Hc. destruct (steady_click s St Hc) as (t & Hin & Hr).
    exists t. split; [exact Hin|]. unfold isReset in Hr.
    now destruct (action t).
Qed.

Lemma cursor_controller_steady_witness :
  (enterPressCount
     (fst (handleKeys 0
             [otherKey 10 "Enter"; otherKey 100 "Enter"; otherKey 100 "Enter";
              otherKey 50 "Enter"]
             (initial 1920 1080))) <= 2)%nat.
Proof.
  exact (proj1 (cursor_controller_steady 1920 1080 0%nat
                  [otherKey 10 "Enter"; otherKey 100 "Enter";
                   otherKey 100 "Enter"; otherKey 50 "Enter"])).
Defined.

End KeysProps.

(** ** Source resolution over sequences of events *)

Module ResolutionProps.
Import JS Player.

Section Runs.
Variable t : string -> string.

(** The requests in flight carry distinct epochs, none of them still to
    be drawn. *)
Definition sound (n : Net) : Prop :=
  Forall (fun r => (fetchId r <= fetchIdRef (session n))%nat) (inflight n)
  /\ NoDup (map fetchId (inflight n)).

Definition isTrigger (e : Event) : bool :=
  match e with Trigger _ => true | _ => false end.

Lemma takeRequest_some id p rs r others :
  takeRequest id p rs = Some (r, others) ->
  In r rs /\ fetchId r = id /\ phase r = p
  /\ others = List.filter (fun r => negb (fetchId r =? id)%nat) rs.
Proof.
  unfold takeRequest.
  destruct (List.find _ rs) as [x|] eqn:F; [|discriminate].
  apply find_some in F. destruct F as [Hin Hid]. apply Nat.eqb_eq in Hid.
  destruct (phase x) eqn:Px, p; intros H; try discriminate;
    injection H as <- <-; auto.
Qed.

Lemma takeRequest_none id p rs :
  Forall (fun r => (fetchId r < id)%nat) rs -> takeRequest id p rs = None.
Proof.
  intros H. unfold takeRequest.
  destruct (List.find _ rs) as [x|] eqn:F; [|reflexivity].
  apply find_some in F. destruct F as [Hin Hid]. apply Nat.eqb_eq in Hid.
  rewrite List.Forall_forall in H. specialize (H x Hin). lia.
Qed.

Lemma startFetch_inflight i n :
  inflight (startFetch i n)
  = inflight n ++
      [{| fetchId := S (fetchIdRef (session n)); req_initialStreamUrl := i;
          phase := AwaitRecommendations |}].
Proof. unfold startFetch. destruct (truthy_str i); reflexivity. Qed.

Lemma others_sound id (rs : list Request) (f : nat) :
  Forall (fun r => (fetchId r <= f)%nat) rs -> NoDup (map fetchId rs) ->
  let others := List.filter (fun r => negb (fetchId r =? id)%nat) rs in
  Forall (fun r => (fetchId r <= f)%nat) others
  /\ NoDup (map fetchId others)
  /\ id ∉ map fetchId others.
Proof.
  intros Hd Hn others. subst others. split; [|split].
  - rewrite List.Forall_forall in *. intros r Hr. apply filter_In in Hr.
    now apply Hd.
  - now apply KeysProps.NoDup_map_filter.
  - rewrite list_elem_of_In, in_map_iff. intros (r & E & Hr).
    apply filter_In in Hr. destruct Hr as [_ Hr].
    apply negb_true_iff, Nat.eqb_neq in Hr. contradiction.
Qed.

Lemma sound_step e n n' : sound n -> step t e n = Some n' -> sound n'.
Proof.
  intros [Hd Hn].
  destruct e as [i|id rs|id msg|id data|id msg]; cbn [step].
  - intros H. injection H as <-. unfold sound.
    rewrite PlayerProps.startFetch_epoch.
    rewrite startFetch_inflight.
    split.
    + apply Forall_app. split.
      * eapply List.Forall_impl; [|exact Hd]. cbn. intros r Hr. lia.
      * constructor; [cbn; lia|constructor].
    + rewrite map_app. cbn [map fetchId]. apply NoDup_app.
      split; [exact Hn|]. split; [|apply NoDup_singleton].
      intros x Hx Hx'. apply list_elem_of_singleton in Hx'. subst x.
      rewrite list_elem_of_In, in_map_iff in Hx.
      destruct Hx as (r & E & Hr).
      rewrite List.Forall_forall in Hd. specialize (Hd r Hr). lia.
  - destruct (takeRequest _ _ _) as [[r others]|] eqn:T; [|discriminate].
    apply takeRequest_some in T. destruct T as (Hin & Hid & _ & ->).
    destruct (others_sound id _ _ Hd Hn) as (Od & On & Oid).
    assert (Hle : (id <= fetchIdRef (session n))%nat).
    { rewrite List.Forall_forall in Hd. specialize (Hd r Hin). lia. }
    destruct (negb _); intros H; injection H as <-; unfold sound;
      cbn [session inflight].
    + cbn [fetchIdRef setRecommendations]. split.
      * apply Forall_app. split; [exact Od|]. now repeat constructor.
      * rewrite map_app. cbn [map fetchId]. apply NoDup_app.
        split; [exact On|]. split; [|apply NoDup_singleton].
        intros x Hx Hx'. apply list_elem_of_singleton in Hx'. now subst x.
    + rewrite PlayerProps.finallyBlock_epoch. now split.
  - destruct (takeRequest _ _ _) as [[r others]|] eqn:T; [|discriminate].
    apply takeRequest_some in T. destruct T as (Hin & Hid & _ & ->).
    destruct (others_sound id _ _ Hd Hn) as (Od & On & Oid).
    intros H. injection H as <-. unfold sound. cbn [session inflight].
    rewrite PlayerProps.finallyBlock_epoch, PlayerProps.catchBlock_epoch.
    now split.
  - destruct (takeRequest _ _ _) as [[r others]|] eqn:T; [|discriminate].
    apply takeRequest_some in T. destruct T as (Hin & Hid & _ & ->).
    destruct (others_sound id _ _ Hd Hn) as (Od & On & Oid).
    intros H. injection H as <-. unfold sound. cbn [session inflight].
    rewrite PlayerProps.streamResolved_epoch. now split.
  - destruct (takeRequest _ _ _) as [[r others]|] eqn:T; [|discriminate].
    apply takeRequest_some in T. destruct T as (Hin & Hid & _ & ->).
    destruct (others_sound id _ _ Hd Hn) as (Od & On & Oid).
    intros H. injection H as <-. unfold sound. cbn [session inflight].
    rewrite PlayerProps.finallyBlock_epoch, PlayerProps.catchBlock_epoch.
    now split.
Qed.

Lemma sound_run es :
  forall n n', sound n -> run t es n = Some n' ->
    sound n'
    /\ fetchIdRef (session n')
       = (fetchIdRef (session n) + length (List.filter isTrigger es))%nat.
Proof.
  induction es as [|e es IH]; intros n n' Hs; cbn [run].
  - intros H. injection H as <-. split; [exact Hs|]. cbn. lia.
  - destruct (step t e n) as [n1|] eqn:E; [|discriminate].
    intros H. destruct (IH n1 n' (sound_step e n n1 Hs E) H) as [S1 F1].
    split; [exact S1|]. rewrite F1, (PlayerProps.step_epoch t e n n1 E).
    destruct e; cbn; lia.
Qed.

Lemma NoDup_at_most_one (rs : list Request) k :
  NoDup (map fetchId rs) ->
  (length (List.filter (fun r => (fetchId r =? k)%nat) rs) <= 1)%nat.
Proof.
  induction rs as [|r rs IH]; intros H; cbn [List.filter length]; [lia|].
  cbn [map] in H. apply NoDup_cons in H. destruct H as [Hr Hn].
  destruct (fetchId r =? k)%nat eqn:E; [|now apply IH].
  apply Nat.eqb_eq in E. cbn [length].
  assert (List.filter (fun r => (fetchId r =? k)%nat) rs = []) as ->;
    [|cbn; lia].
  destruct (List.filter _ rs) as [|x xs] eqn:F; [reflexivity|exfalso].
  assert (Hx : In x (List.filter (fun r => (fetchId r =? k)%nat) rs))
    by (rewrite F; now left).
  apply filter_In in Hx. destruct Hx as [Hx Ex]. apply Nat.eqb_eq in Ex.
  apply Hr. rewrite list_elem_of_In, in_map_iff. exists x. split; [lia|easy].
Qed.

(** The request a trigger has just put in flight is the one its epoch
    names, and taking it out leaves the older ones. *)
Lemma takeRequest_fresh id i p rs :
  Forall (fun r => (fetchId r < id)%nat) rs ->
  takeRequest id p
    (rs ++ [{| fetchId := id; req_initialStreamUrl := i; phase := p |}])
  = Some ({| fetchId := id; req_initialStreamUrl := i; phase := p |}, rs).
Proof.
  intros H. unfold takeRequest.
  assert (F : List.find (fun r => (fetchId r =? id)%nat)
                (rs ++ [{| fetchId := id; req_initialStreamUrl := i;
                           phase := p |}])
              = Some {| fetchId := id; req_initialStreamUrl := i;
                        phase := p |}).
  { induction rs as [|r rs IH]; cbn [app List.find fetchId].
    - now rewrite Nat.eqb_refl.
    - apply Forall_cons in H. destruct H as [Hr H].
      destruct (fetchId r =? id)%nat eqn:E;
        [apply Nat.eqb_eq in E; lia|now apply IH]. }
  assert (G : List.filter (fun r => negb (fetchId r =? id)%nat)
                (rs ++ [{| fetchId := id; req_initialStreamUrl := i;
                           phase := p |}]) = rs).
  { clear F. induction rs as [|r rs IH]; cbn [app List.filter fetchId].
    - now rewrite Nat.eqb_refl.
    - apply Forall_cons in H. destruct H as [Hr H].
      destruct (fetchId r =? id)%nat eqn:E;
        [apply Nat.eqb_eq in E; lia|]. cbn [negb]. now rewrite (IH H). }
  rewrite F, G. cbn [phase]. destruct p; reflexivity.
Qed.

Lemma sound_older n :
  sound n ->
  Forall (fun r => (fetchId r < S (fetchIdRef (session n)))%nat)
    (inflight n).
Proof.
  intros [Hd _]. eapply List.Forall_impl; [|exact Hd]. cbn. intros r Hr. lia.
Qed.

(** X5. Every call of [fetchData] draws an epoch of its own: however the
    triggers and the completions of the two requests interleave,
    [fetchIdRef] counts the triggers, the calls still suspended at an
    [await] carry distinct epochs none of which is ahead of the counter,
    and so at most one of them is the current call; every other
    suspended call is stale. *)
Theorem epochs_count_triggers es n n' :
  sound n -> run t es n = Some n' ->
  fetchIdRef (session n')
  = (fetchIdRef (session n) + length (List.filter isTrigger es))%nat
  /\ Forall (fun r => (fetchId r <= fetchIdRef (session n'))%nat)
       (inflight n')
  /\ NoDup (map fetchId (inflight n'))
  /\ (length (List.filter
                (fun r => (fetchId r =? fetchIdRef (session n'))%nat)
                (inflight n')) <= 1)%nat.
Proof.
  intros Hs H. destruct (sound_run es n n' Hs H) as [[Hd Hn] F].
  split; [exact F|]. split; [exact Hd|]. split; [exact Hn|].
  now apply NoDup_at_most_one.
Qed.


(** X7. With a stream URL handed in, the player resolves nothing: that URL
    is the source, the recommendations are fetched and stored, the call
    ends there (fetching reported begun and ended), no stream request is
    awaited, and the quality list, the active quality and the provider
    are left as they were, while captions are cleared. *)
Theorem given_url_skips_resolution i results n :
  sound n -> truthy_str i = true ->
  let id := S (fetchIdRef (session n)) in
  exists n',
    run t [Trigger i; RecsResolved id results] n = Some n'
    /\ inflight n' = inflight n
    /\ activeStreamUrl (session n') = i
    /\ recommendations (session n') = List.filter hasBackdrop results
    /\ fetchStateLog (session n')
       = fetchStateLog (session n) ++ [true; false]
    /\ streamLinks (session n') = streamLinks (session n)
    /\ activeQuality (session n') = activeQuality (session n)
    /\ providerLog (session n') = providerLog (session n)
    /\ toasts (session n') = toasts (session n)
    /\ subtitles (session n') = [] /\ vttTracks (session n') = []
    /\ (forall data, step t (StreamResolved id data) n' = None).
Proof.
  intros Hs Hi id. pose proof (sound_older n Hs) as Ho.
  eexists. cbn [run step]. rewrite startFetch_inflight.
  fold id. rewrite (takeRequest_fresh id i AwaitRecommendations _ Ho).
  cbn [req_initialStreamUrl]. rewrite Hi. cbn [negb].
  split; [reflexivity|]. cbn [session inflight].
  split; [reflexivity|].
  unfold finallyBlock. cbn [fetchIdRef setRecommendations].
  rewrite PlayerProps.startFetch_epoch. fold id. rewrite Nat.eqb_refl.
  unfold startFetch. rewrite Hi. cbn.
  rewrite <- ?app_assoc; cbn [app].
  repeat (split; [reflexivity|]).
  intros. now rewrite (takeRequest_none _ _ _ Ho).
Qed.

(** X8. Without a stream URL, a call that nothing overtakes applies what
    the resolver returns: the whole list of links is stored, the first
    one becomes the source and names the active quality, the provider is
    reported once, the captions are the resolver's (none when it sends
    none, since the trigger cleared them), no error is shown, and
    nothing of this call stays in flight. *)
Theorem resolution_applies_first_link i results data l ls n :
  sound n -> truthy_str i = false -> links data = Some (l :: ls) ->
  let id := S (fetchIdRef (session n)) in
  exists n',
    run t [Trigger i; RecsResolved id results; StreamResolved id data] n
    = Some n'
    /\ inflight n' = inflight n
    /\ streamLinks (session n') = l :: ls
    /\ activeStreamUrl (session n') = Some (url l)
    /\ activeQuality (session n') = Some (quality l)
    /\ subtitles (session n') = default [] (data_subtitles data)
    /\ vttTracks (session n') = []
    /\ recommendations (session n') = List.filter hasBackdrop results
    /\ providerLog (session n')
       = providerLog (session n) ++ [data_provider data]
    /\ fetchStateLog (session n')
       = fetchStateLog (session n) ++ [true; false]
    /\ toasts (session n') = toasts (session n).
Proof.
  intros Hs Hi Hl id. pose proof (sound_older n Hs) as Ho.
  eexists. cbn [run step]. rewrite startFetch_inflight.
  fold id. rewrite (takeRequest_fresh id i AwaitRecommendations _ Ho).
  cbn [req_initialStreamUrl]. rewrite Hi. cbn [negb inflight].
  rewrite (takeRequest_fresh id i AwaitStream _ Ho).
  split; [reflexivity|]. cbn [session inflight].
  split; [reflexivity|].
  unfold streamResolved, finallyBlock. cbn [fetchIdRef setRecommendations].
  rewrite PlayerProps.startFetch_epoch. fold id. rewrite Nat.eqb_refl.
  cbn [negb].
  rewrite Hl.
  unfold startFetch. rewrite Hi.
  destruct (data_subtitles data) as [subs|]; cbn.
  all: rewrite Nat.eqb_refl; cbn.
  all: rewrite <- ?app_assoc; cbn [app].
  all: repeat (split; [reflexivity|]); reflexivity.
Qed.

End Runs.

Definition linksOf (ls : list StreamLink) : StreamData :=
  {| links := Some ls; data_subtitles := None; data_provider := "p" |}.

Lemma sound_on_mount : sound PlayerProps.netOnMount.
Proof. split; cbn; constructor. Qed.

Lemma epochs_count_triggers_witness :
  fetchIdRef (session (startFetch None (startFetch None
                PlayerProps.netOnMount))) = 2%nat.
Proof.
  pose proof (epochs_count_triggers PlayerProps.lookupText
                [Trigger None; Trigger None] PlayerProps.netOnMount _
                sound_on_mount eq_refl) as H.
  exact (proj1 H).
Defined.


Lemma given_url_skips_resolution_witness :
  exists n',
    run PlayerProps.lookupText
      [Trigger (Some "https://cdn/a.mp4"); RecsResolved 1 []]
      PlayerProps.netOnMount = Some n'
    /\ activeStreamUrl (session n') = Some "https://cdn/a.mp4"
    /\ inflight n' = [].
Proof.
  destruct (given_url_skips_resolution PlayerProps.lookupText
              (Some "https://cdn/a.mp4") [] PlayerProps.netOnMount
              sound_on_mount eq_refl)
    as (n' & R & I & A & _).
  exists n'. split; [exact R|]. split; [exact A|exact I].
Defined.

Lemma resolution_applies_first_link_witness :
  exists n',
    run PlayerProps.lookupText
      [Trigger None; RecsResolved 1 [];
       StreamResolved 1
         (linksOf [PlayerProps.link1080; PlayerProps.link720])]
      PlayerProps.netOnMount = Some n'
    /\ activeStreamUrl (session n') = Some "https://cdn/1080.m3u8"
    /\ activeQuality (session n') = Some "1080p".
Proof.
  destruct (resolution_applies_first_link PlayerProps.lookupText None []
              (linksOf [PlayerProps.link1080; PlayerProps.link720])
              PlayerProps.link1080 [PlayerProps.link720]
              PlayerProps.netOnMount sound_on_mount eq_refl eq_refl)
    as (n' & R & _ & _ & A & Q & _).
  exists n'. split; [exact R|]. split; [exact A|exact Q].
Defined.

End ResolutionProps.

(** ** Attaching sources over time *)

Module PlaybackProps.
Import JS Player.
Local Open Scope Q_scope.

Lemma last_nonempty (l : list Q) :
  forall y d d', List.last (y :: l) d = List.last (y :: l) d'.
Proof.
  induction l as [|z l IH]; intros y d d'; [reflexivity|].
  change (List.last (z :: l) d = List.last (z :: l) d'). apply IH.
Qed.

Lemma last_cons_default (x : Q) (l : list Q) (d : Q) :
  List.last (x :: l) d = List.last l x.
Proof.
  destruct l as [|y l]; [reflexivity|].
  change (List.last (y :: l) d = List.last (y :: l) x). apply last_nonempty.
Qed.

(** What the pending one-shot listeners do to the element, in the
    order they were added. *)
Lemma listeners_run (l : list Q) :
  forall v,
    let v' := fold_left (fun v savedTime => play (set_currentTime savedTime v))
                l v in
    currentTime v' = List.last l (currentTime v)
    /\ playCalls v' = (playCalls v + length l)%nat
    /\ paused v' = (if (length l =? 0)%nat then paused v else false)
    /\ src v' = src v /\ duration v' = duration v
    /\ loadeddata_once v' = loadeddata_once v.
Proof.
  induction l as [|x l IH]; intros v; cbn [fold_left].
  - cbn. repeat split; lia.
  - destruct (IH (play (set_currentTime x v)))
      as (C & P & Pa & Sr & D & L).
    cbv zeta. rewrite C, P, Pa, Sr, D, L.
    cbn [currentTime playCalls paused src duration loadeddata_once play
         set_currentTime length Nat.eqb].
    split; [now rewrite last_cons_default|]. split; [lia|].
    split; [now destruct (length l =? 0)%nat|]. repeat split.
Qed.

Lemma loadedData_video s v :
  video s = Some v ->
  exists v',
    video (loadedData s) = Some v'
    /\ currentTime v' = List.last (loadeddata_once v) (currentTime v)
    /\ playCalls v' = (playCalls v + length (loadeddata_once v))%nat
    /\ src v' = src v /\ loadeddata_once v' = [].
Proof.
  intros Hv. unfold loadedData. rewrite Hv. cbn [video set_video].
  eexists. split; [reflexivity|].
  match goal with
  | |- context [fold_left ?f ?l ?v0] =>
      destruct (listeners_run l v0) as (C & P & _ & Sr & _ & L)
  end.
  cbv zeta in C, P, Sr, L. rewrite C, P, Sr, L. repeat split.
Qed.

(** X9. A one-shot 'loadeddata' listener of Effect 2 is not removed when
    the source changes: it stays on the element and runs at the next
    'loadeddata' with the position it captured.  After a direct attach
    the newest listener runs last, so the position is the right one and
    [play] is called once per listener.  After an attach through the
    streaming engine the engine's handler runs at MANIFEST_PARSED and
    the listeners left from before run after it: with one pending, the
    position ends at the one that listener captured, not at the resume
    position of the source attached. *)
Theorem pending_listeners_outlive_source initialTime hlsSupported s v u :
  video s = Some v -> activeStreamUrl s = Some u -> u <> ""%string ->
  let resume := PlayerProps.resumeTime initialTime (timeOnSwitchRef s) in
  let s1 := attach initialTime hlsSupported s in
  let s2 := loadedData (sourceReady s1) in
  exists v1 v2,
    video s1 = Some v1 /\ video s2 = Some v2
    /\ src v2 = Some u /\ loadeddata_once v2 = []
    /\ if str_includes ".m3u8" u && hlsSupported then
         loadeddata_once v1 = loadeddata_once v
         /\ currentTime v2 = List.last (loadeddata_once v) resume
         /\ playCalls v2 = (playCalls v + 1 + length (loadeddata_once v))%nat
       else
         loadeddata_once v1 = loadeddata_once v ++ [resume]
         /\ currentTime v2 = resume
         /\ playCalls v2 = (playCalls v + length (loadeddata_once v) + 1)%nat.
Proof.
  intros Hv Hu Hne resume s1 s2. subst s1 s2.
  rewrite (PlayerProps.attach_source _ _ s v u Hv Hu Hne).
  cbv zeta. fold resume. unfold sourceReady.
  destruct (str_includes ".m3u8" u && hlsSupported).
  - cbn [hls set_hls]. unfold manifestParsed.
    cbn [hls set_hls video set_video hls_resume].
    match goal with
    | |- context [loadedData ?x] =>
        destruct (loadedData_video x _ eq_refl) as (v2 & V & C & P & Sr & L)
    end.
    cbn [loadeddata_once play set_currentTime load currentTime src
         playCalls] in C, P, Sr.
    exists (load u v), v2. split; [reflexivity|]. split; [exact V|].
    split; [exact Sr|]. split; [exact L|]. split; [reflexivity|].
    split; [exact C|]. rewrite P. lia.
  - cbn [hls set_hls set_video set_timeOnSwitchRef].
    match goal with
    | |- context [loadedData (loadedData ?x)] =>
        destruct (loadedData_video x _ eq_refl)
          as (v1' & V1 & C1 & P1 & Sr1 & L1)
    end.
    destruct (loadedData_video _ _ V1) as (v2 & V & C & P & Sr & L).
    cbn [loadeddata_once addLoadedDataOnce load currentTime src playCalls]
      in C1, P1, Sr1.
    rewrite L1 in C, P. cbn [List.last length] in C, P.
    exists (addLoadedDataOnce resume (load u v)), v2.
    split; [reflexivity|]. split; [exact V|].
    split; [now rewrite Sr, Sr1|]. split; [exact L|].
    split; [reflexivity|].
    split; [now rewrite C, C1, List.last_last|].
    rewrite P, P1, List.length_app. cbn [length]. lia.
Qed.

(** A quality switch through the engine, made before the direct source
    attached first has loaded. *)
Definition switchedEarly : Session :=
  setActiveStreamUrl (Some "https://cdn/1080.m3u8"%string)
    (set_timeOnSwitchRef 42
       (attach (Some 7) true
          (setActiveStreamUrl (Some "https://cdn/a.mp4"%string)
             (mount None (Some 7))))).

Lemma pending_listeners_outlive_source_witness :
  option_map currentTime
    (video (loadedData (sourceReady (attach (Some 7) true switchedEarly))))
  = Some 7.
Proof.
  destruct (pending_listeners_outlive_source (Some 7) true switchedEarly
              {| currentTime := 0; duration := NaN; paused := true;
                 src := Some "https://cdn/a.mp4"%string;
                 loadeddata_once := [7]; playCalls := 0 |}
              "https://cdn/1080.m3u8"%string eq_refl eq_refl)
    as (v1 & v2 & _ & -> & _ & _ & H); [discriminate|].
  cbn in H. destruct H as (_ & C & _). cbn [option_map]. rewrite C.
  reflexivity.
Defined.

(** X10. A new resolution without a stream URL clears the source but
    neither the list of links nor the active quality.  So, when the link
    of the active quality was playing, the quality effect, which runs
    because the source has changed, finds that link and makes it the
    source again, saving the position for it: the previous stream is
    attached anew while the new one is still being resolved. *)
Theorem refetch_restores_previous_link i initialTime hlsSupported n v q l :
  truthy_str i = false ->
  video (session n) = Some v ->
  activeQuality (session n) = Some q -> q <> ""%string ->
  find (fun link => (quality link =? q)%string) (streamLinks (session n))
  = Some l ->
  url l <> ""%string ->
  activeStreamUrl (session n) = Some (url l) ->
  let s1 := session (startFetch i n) in
  let s2 := qualityEffect (attach initialTime hlsSupported s1) in
  let s3 := attach initialTime hlsSupported s2 in
  activeStreamUrl s1 = None
  /\ activeStreamUrl s2 = Some (url l)
  /\ timeOnSwitchRef s2 = currentTime v
  /\ activeStreamUrl s3 = Some (url l)
  /\ option_map src (video s3) = Some (Some (url l))
  /\ fetchIdRef s3 = S (fetchIdRef (session n)).
Proof.
  intros Hi Hv Hq Hne Hf Hu _ s1 s2 s3.
  assert (A1 : activeStreamUrl s1 = None).
  { subst s1. unfold startFetch. rewrite Hi. reflexivity. }
  assert (V1 : video s1 = Some v).
  { subst s1. unfold startFetch. rewrite Hi. exact Hv. }
  assert (Q1 : activeQuality s1 = Some q).
  { subst s1. unfold startFetch. rewrite Hi. exact Hq. }
  assert (L1 : streamLinks s1 = streamLinks (session n)).
  { subst s1. unfold startFetch. rewrite Hi. reflexivity. }
  assert (F1 : fetchIdRef s1 = S (fetchIdRef (session n))).
  { subst s1. apply PlayerProps.startFetch_epoch. }
  assert (E2 : s2 = setActiveStreamUrl (Some (url l))
                      (set_timeOnSwitchRef (currentTime v)
                         (setIsBuffering true (set_hls None s1)))).
  { subst s2. rewrite (PlayerProps.attach_without_source _ _ s1 A1).
    apply (PlayerProps.qualityEffect_switch q
             (setIsBuffering true (set_hls None s1)) v l).
    - exact V1.
    - exact Q1.
    - exact Hne.
    - cbn [streamLinks setIsBuffering set_hls]. rewrite L1. exact Hf.
    - cbn [activeStreamUrl setIsBuffering set_hls]. rewrite A1.
      reflexivity. }
  split; [exact A1|]. split; [now rewrite E2|]. split; [now rewrite E2|].
  subst s3.
  rewrite (PlayerProps.attach_source _ _ s2 v (url l));
    [|now rewrite E2|now rewrite E2|exact Hu].
  cbv zeta. rewrite E2.
  destruct (str_includes ".m3u8" (url l) && hlsSupported); cbn;
    repeat split; exact F1.
Qed.

(** The 1080p rendition is playing at second 42 when the episode
    changes. *)
Definition playing1080 : Net :=
  {| session :=
       set_video
         (Some {| currentTime := 42; duration := Finite 600;
                  paused := false;
                  src := Some "https://cdn/1080.m3u8"%string;
                  loadeddata_once := []; playCalls := 1 |})
         (setActiveQuality (Some "1080p"%string)
            (setActiveStreamUrl (Some "https://cdn/1080.m3u8"%string)
               (setStreamLinks [PlayerProps.link1080; PlayerProps.link720]
                  (mount None None))));
     inflight := [] |}.

Lemma refetch_restores_previous_link_witness :
  let s2 :=
    qualityEffect (attach None true (session (startFetch None playing1080)))
  in
  activeStreamUrl s2 = Some "https://cdn/1080.m3u8"%string
  /\ timeOnSwitchRef s2 = 42.
Proof.
  destruct (refetch_restores_previous_link None None true playing1080
              {| currentTime := 42; duration := Finite 600;
                 paused := false;
                 src := Some "https://cdn/1080.m3u8"%string;
                 loadeddata_once := []; playCalls := 1 |}
              "1080p"%string PlayerProps.link1080
              eq_refl eq_refl eq_refl)
    as (_ & A & T & _);
    [discriminate|reflexivity|discriminate|reflexivity|].
  split; [exact A|exact T].
Defined.

End PlaybackProps.

(** ** The key handler of the player *)

Module RemoteProps.
Import JS Player.
Local Open Scope Q_scope.

(** The focus lies on an element the layout has. *)
Definition inLayout (lay : Layout) (r : Region) : Prop :=
  match r with
  | InInfo i => (i < infoCount lay)%nat
  | InControls i => (i < controlsCount lay)%nat
  | InRecs i => (i < recsCount lay)%nat
  | OnProgressBar => progressMounted lay = true
  | OtherElement _ | Body => True
  end.

(** The three tiers of the overlay, top to bottom. *)
Definition tier (r : Region) : option nat :=
  match r with
  | InInfo _ | InControls _ => Some 0%nat
  | OnProgressBar => Some 1%nat
  | InRecs _ => Some 2%nat
  | OtherElement _ | Body => None
  end.

(** The position inside a row. *)
Definition column (r : Region) : nat :=
  match r with
  | InControls i => S i
  | InRecs i => i
  | _ => 0
  end.

Definition press (lay : Layout) (keys : list string) (u : Ui) : Ui :=
  fold_left (fun u key => playerKeyDown lay key u) keys u.

Definition panelsClosed (u : Ui) : Prop :=
  showSettingsPanel (overlay u) = false
  /\ showSubtitlesPanel (overlay u) = false.

Ltac key_cases :=
  unfold playerKeyDown, togglePlay, focusAt, focusProgress, seek;
  cbn [overlay media active];
  repeat match goal with
         | |- context [if ?b then _ else _] =>
             let E := fresh "E" in destruct b eqn:E
         | |- context [match ?x with _ => _ end] =>
             let E := fresh "E" in destruct x eqn:E
         end.

(** X11. The handler keeps the focus on elements that exist: from a
    focus inside the layout every key leaves it inside the layout.  The
    horizontal keys stay in their tier and move by at most one place,
    so a row never wraps around; the vertical keys move by at most one
    tier. *)
Theorem focus_stays_in_layout lay key u :
  inLayout lay (active u) ->
  let r' := active (playerKeyDown lay key u) in
  inLayout lay r'
  /\ (key = "ArrowLeft"%string \/ key = "ArrowRight"%string ->
      tier r' = tier (active u)
      /\ (column r' <= column (active u) + 1)%nat
      /\ (column (active u) <= column r' + 1)%nat)
  /\ (forall a b, tier (active u) = Some a -> tier r' = Some b ->
        (a <= b + 1)%nat /\ (b <= a + 1)%nat).
Proof.
  destruct u as [o m r]. cbn [active]. intros H. split; [|split].
  - destruct r; cbn [inLayout] in H; key_cases;
      cbn [active with_active with_overlay with_media inLayout];
      repeat match goal with
             | L : (_ <? _)%nat = true |- _ => apply Nat.ltb_lt in L
             end;
      try assumption; try exact I; try lia.
  - intros [-> | ->]; destruct r; cbn [inLayout] in H;
      unfold playerKeyDown, togglePlay, focusAt, focusProgress, seek;
      cbn [overlay media active String.eqb Ascii.eqb Bool.eqb includes
           handledKeys existsb orb andb negb inTopTier isInputElement];
      repeat match goal with
             | |- context [if ?b then _ else _] => destruct b
             | |- context [match ?x with _ => _ end] => destruct x
             end;
      cbn [active with_active with_overlay with_media tier column];
      repeat split; lia.
  - intros a b. destruct r; cbn [inLayout] in H; key_cases;
      cbn [active with_active with_overlay with_media tier];
      intros Ha Hb; try discriminate;
      injection Ha as <-; injection Hb as <-; lia.
Qed.

Definition someLayout : Layout :=
  {| infoCount := 1; controlsCount := 4; recsCount := 3;
     progressMounted := true |}.

Lemma focus_stays_in_layout_witness :
  active (playerKeyDown someLayout "ArrowRight"
            {| overlay := overlayOnMount; media := None;
               active := InRecs 2 |}) = InRecs 2.
Proof.
  pose proof (focus_stays_in_layout someLayout "ArrowRight"
                {| overlay := overlayOnMount; media := None;
                   active := InRecs 2 |}) as H.
  cbn [active inLayout someLayout recsCount] in H.
  destruct (H ltac:(lia)) as (_ & _ & _). reflexivity.
Defined.

(** X12. The handler touches the media element in two situations only:
    Enter or Space while the overlay is hidden (play or pause), and
    ArrowLeft or ArrowRight while the progress bar has the focus (seek).
    In particular Enter and Space do nothing to playback while the
    overlay is shown, and no key does while a panel is open. *)
Theorem playback_touched_only_by lay key u :
  media (playerKeyDown lay key u) <> media u ->
  panelsClosed u
  /\ ((isOverlayVisible (overlay u) = false
       /\ (key = "Enter"%string \/ key = " "%string))
      \/ (isOverlayVisible (overlay u) = true
          /\ active u = OnProgressBar
          /\ (key = "ArrowLeft"%string \/ key = "ArrowRight"%string))).
Proof.
  destruct u as [o m r]. unfold panelsClosed. cbn [overlay media active].
  key_cases; cbn [media with_media with_overlay with_active];
    intros Hm; try (exfalso; apply Hm; reflexivity);
    repeat match goal with
           | L : _ || _ = false |- _ => apply orb_false_iff in L; destruct L
           | L : _ || _ = true |- _ => apply orb_true_iff in L
           | L : negb _ = false |- _ => apply negb_false_iff in L
           | L : negb _ = true |- _ => apply negb_true_iff in L
           | L : (_ =? _)%string = true |- _ => apply String.eqb_eq in L
           end;
    (split; [split; assumption|]);
    try (left; split; [assumption|];
         match goal with
         | L : _ \/ _ |- _ =>
             destruct L as [L|L]; apply String.eqb_eq in L; auto
         end);
    auto 6.
Qed.

Definition hiddenOverlay : Overlay :=
  {| showSettingsPanel := false; showSubtitlesPanel := false;
     isOverlayVisible := false; isRecsFocused := false; view := ViewMain |}.

Definition pausedVideo : Video :=
  {| currentTime := 12; duration := Finite 600; paused := true;
     src := Some "https://cdn/a.mp4"%string; loadeddata_once := [];
     playCalls := 0 |}.

Lemma playback_touched_only_by_witness :
  panelsClosed
    {| overlay := hiddenOverlay; media := Some pausedVideo; active := Body |}.
Proof.
  refine (proj1 (playback_touched_only_by someLayout "Enter"
                   {| overlay := hiddenOverlay; media := Some pausedVideo;
                      active := Body |} _)).
  cbn. intros E. discriminate E.
Defined.



(** X14. Going down from the progress bar raises the recommendations
    flag whether or not a recommendation takes the focus, and going up
    from the progress bar does not lower it.  So with an empty row the
    round trip down, down, up ends on the title with the flag still
    raised; with a row that has an entry, the way back passes through
    the row and lowers it. *)
Theorem flag_raised_without_recommendations lay u :
  panelsClosed u -> isOverlayVisible (overlay u) = true ->
  inTopTier (active u) = true ->
  progressMounted lay = true -> (0 < infoCount lay)%nat ->
  (recsCount lay = 0%nat ->
   let u' := press lay ["ArrowDown"; "ArrowDown"; "ArrowUp"]%string u in
   active u' = InInfo 0 /\ isRecsFocused (overlay u') = true
   /\ isOverlayVisible (overlay u') = true)
  /\ ((0 < recsCount lay)%nat ->
      let u' :=
        press lay ["ArrowDown"; "ArrowDown"; "ArrowUp"; "ArrowUp"]%string u
      in
      active u' = InInfo 0 /\ isRecsFocused (overlay u') = false
      /\ isOverlayVisible (overlay u') = true).
Proof.
  destruct u as [[a b c d e] m r], lay as [ic cc rc pm].
  unfold panelsClosed.
  cbn [overlay media active showSettingsPanel showSubtitlesPanel
       isOverlayVisible progressMounted infoCount recsCount].
  intros [-> ->] -> Ht -> Hi. destruct ic as [|ic]; [lia|].
  split; intros Hr.
  - subst rc. destruct r; try discriminate Ht; vm_compute; repeat split.
  - destruct rc as [|rc]; [lia|].
    destruct r; try discriminate Ht; vm_compute; repeat split.
Qed.

Definition noRecsLayout : Layout :=
  {| infoCount := 1; controlsCount := 4; recsCount := 0;
     progressMounted := true |}.

Lemma flag_raised_without_recommendations_witness :
  isRecsFocused
    (overlay
       (press noRecsLayout ["ArrowDown"; "ArrowDown"; "ArrowUp"]%string
          {| overlay := overlayOnMount; media := None;
             active := InControls 2 |})) = true.
Proof.
  destruct (flag_raised_without_recommendations noRecsLayout
              {| overlay := overlayOnMount; media := None;
                 active := InControls 2 |}
              (conj eq_refl eq_refl) eq_refl eq_refl eq_refl)
    as [H _]; [cbn; lia|].
  exact (proj1 (proj2 (H eq_refl))).
Defined.

End RemoteProps.

(** ** Effect 3: what a run publishes *)

Module CaptionProps.
Import JS Player.
#[local] Set Warnings "-clear-no-such-hyp".

(** The runs that are still active are exactly the mounted one. *)
Record orderly (c : Captions) : Prop := {
  orderly_active : forall i p,
    passes c !! i = Some p -> active_flag p = true -> mounted c = Some i;
  orderly_mounted : forall i,
    mounted c = Some i ->
    exists p, passes c !! i = Some p /\ active_flag p = true
}.

Lemma orderly_on_mount : orderly captionsOnMount.
Proof. split; cbn; intros; discriminate. Qed.

Lemma orderly_cleanup c i :
  orderly c -> mounted c = Some i ->
  mounted (cleanup i c) = None
  /\ forall j p, passes (cleanup i c) !! j = Some p -> active_flag p = false.
Proof.
  intros O Hi. destruct (orderly_mounted c O i Hi) as (p & Hp & Ha).
  unfold cleanup. rewrite Hp. cbn [mounted passes]. split; [reflexivity|].
  intros j q Hq. apply list_lookup_insert_Some in Hq.
  destruct Hq as [(-> & <- & _)|(Hne & Hq)]; [reflexivity|].
  destruct (active_flag q) eqn:E; [|reflexivity].
  pose proof (orderly_active c O j q Hq E). congruence.
Qed.

Lemma orderly_runEffect3 subs c :
  mounted c = None ->
  (forall j p, passes c !! j = Some p -> active_flag p = false) ->
  orderly (runEffect3 subs c).
Proof.
  intros Hm Hall. unfold runEffect3.
  destruct subs as [|sub subs]; split; cbn [passes mounted];
    intros i; intros.
  all: try match goal with
           | H : (_ ++ [_]) !! _ = Some _ |- _ =>
               apply lookup_snoc_Some in H;
               destruct H as [[_ H]|[<- <-]]; [|reflexivity];
               pose proof (Hall _ _ H); congruence
           end.
  all: match goal with
       | H : Some _ = Some _ |- _ => injection H as <-
       end;
       eexists; split;
         [apply list_lookup_middle; reflexivity|reflexivity].
Qed.

Lemma orderly_rewrite c i p q b ts :
  orderly c -> passes c !! i = Some p -> active_flag q = active_flag p ->
  orderly {| passes := <[ i := q ]> (passes c); mounted := mounted c;
             store := b; tracks := ts |}.
Proof.
  intros O Hp Ha.
  assert (Hlt : i < length (passes c)) by (eapply lookup_lt_Some; eauto).
  split; cbn [passes mounted].
  - intros j r Hr Har. apply list_lookup_insert_Some in Hr.
    destruct Hr as [(-> & <- & _)|(Hne & Hr)].
    + apply (orderly_active c O j p Hp). congruence.
    + now apply (orderly_active c O j r).
  - intros j Hj. destruct (orderly_mounted c O j Hj) as (r & Hr & Har).
    destruct (decide (i = j)) as [->|Hne].
    + exists q. split; [now apply list_lookup_insert_eq|]. congruence.
    + exists r. split; [|exact Har].
      now rewrite list_lookup_insert_ne.
Qed.

Lemma orderly_continueWith c i p created made rest b :
  orderly c -> passes c !! i = Some p ->
  orderly (continueWith i p created made rest b c).
Proof.
  intros O Hp. unfold continueWith.
  destruct rest; now apply (orderly_rewrite c i p).
Qed.

Lemma orderly_step e c c' :
  orderly c -> captionStep e c = Some c' -> orderly c'.
Proof.
  intros O. destruct e as [subs| |i ok|i txt]; cbn [captionStep].
  - intros H. injection H as <-.
    destruct (mounted c) as [i|] eqn:Hi.
    + destruct (orderly_cleanup c i O Hi) as [Hm Hall].
      now apply orderly_runEffect3.
    + apply orderly_runEffect3; [exact Hi|].
      intros j p Hp. destruct (active_flag p) eqn:E; [|reflexivity].
      pose proof (orderly_active c O j p Hp E). congruence.
  - destruct (mounted c) as [i|] eqn:Hi; [|discriminate].
    intros H. injection H as <-.
    destruct (orderly_cleanup c i O Hi) as [Hm Hall].
    split.
    + intros j p Hp Ha. rewrite (Hall j p Hp) in Ha. discriminate.
    + intros j Hj. congruence.
  - destruct (passes c !! i) as [p|] eqn:Hp; [|discriminate].
    destruct (awaiting p); try discriminate.
    destruct (remaining p) as [|sub rest]; [discriminate|].
    destruct ok as [[|]|]; [destruct (active_flag p) eqn:Ha| |];
      intros H; injection H as <-;
      try (now apply orderly_continueWith).
    now apply (orderly_rewrite c i p).
  - destruct (passes c !! i) as [p|] eqn:Hp; [|discriminate].
    destruct (awaiting p); try discriminate.
    destruct (remaining p) as [|sub rest]; [discriminate|].
    destruct txt as [s|]; cbn; intros H; injection H as <-;
      now apply orderly_continueWith.
Qed.

Lemma orderly_run es :
  forall c c', orderly c -> captionRun es c = Some c' -> orderly c'.
Proof.
  induction es as [|e es IH]; intros c c' O; cbn [captionRun].
  - intros H. now injection H as <-.
  - destruct (captionStep e c) as [c1|] eqn:E; [|discriminate].
    apply IH. now apply (orderly_step e c).
Qed.

(** The pass an event of the conversion belongs to. *)
Definition passOf (e : CaptionEvent) : option nat :=
  match e with
  | FetchSettled i _ | TextSettled i _ => Some i
  | _ => None
  end.

(** X15. A run of Effect 3 that has been cleaned up never publishes:
    whatever the schedule, a completion of a fetch or of a text read
    that belongs to a run other than the mounted one leaves the track
    list, and the mounted run, as they are. *)
Theorem superseded_run_never_publishes es c e i c' :
  captionRun es captionsOnMount = Some c ->
  passOf e = Some i -> mounted c <> Some i ->
  captionStep e c = Some c' ->
  tracks c' = tracks c /\ mounted c' = mounted c
  /\ forall j, j <> i -> passes c' !! j = passes c !! j.
Proof.
  intros Hrun He Hm Hs.
  pose proof (orderly_run es _ _ orderly_on_mount Hrun) as O.
  assert (K : forall p created made rest b,
             passes c !! i = Some p ->
             let c1 := continueWith i p created made rest b c in
             tracks c1 = tracks c /\ mounted c1 = mounted c
             /\ forall j, j <> i -> passes c1 !! j = passes c !! j).
  { intros p created made rest b Hp.
    assert (Ha : active_flag p = false).
    { destruct (active_flag p) eqn:E; [|reflexivity].
      pose proof (orderly_active c O i p Hp E). contradiction. }
    unfold continueWith. rewrite Ha.
    destruct rest; cbn [tracks mounted passes];
      (split; [reflexivity|]); (split; [reflexivity|]);
      intros j Hj; now rewrite list_lookup_insert_ne. }
  destruct e as [subs| |k ok|k txt]; try discriminate He;
    injection He as ->; cbn [captionStep] in Hs.
  - destruct (passes c !! i) as [p|] eqn:Hp; [|discriminate].
    assert (Ha : active_flag p = false).
    { destruct (active_flag p) eqn:E; [|reflexivity].
      pose proof (orderly_active c O i p Hp E). contradiction. }
    destruct (awaiting p); try discriminate.
    destruct (remaining p) as [|sub rest]; [discriminate|].
    rewrite Ha in Hs.
    destruct ok as [[|]|]; injection Hs as <-; now apply K.
  - destruct (passes c !! i) as [p|] eqn:Hp; [|discriminate].
    destruct (awaiting p); try discriminate.
    destruct (remaining p) as [|sub rest]; [discriminate|].
    destruct txt as [s|]; cbn in Hs; injection Hs as <-; now apply K.
Qed.

Lemma superseded_run_never_publishes_witness :
  exists c c',
    captionRun [SubtitlesChanged [PlayerProps.subEn];
                SubtitlesChanged [PlayerProps.subEn]] captionsOnMount
    = Some c
    /\ captionStep (FetchSettled 0 (Some true)) c = Some c'
    /\ tracks c' = tracks c.
Proof.
  eexists. eexists. split; [reflexivity|]. split; [reflexivity|].
  refine (proj1 (superseded_run_never_publishes
                   [SubtitlesChanged [PlayerProps.subEn];
                    SubtitlesChanged [PlayerProps.subEn]]
                   _ (FetchSettled 0 (Some true)) 0 _
                   eq_refl eq_refl _ eq_refl)).
  cbn. discriminate.
Defined.

(** How the conversion of one descriptor ends. *)
Inductive Outcome :=
| FetchFailed                 (* [fetch] rejects *)
| NotOk                       (* the response is not [ok] *)
| TextFailed                  (* [res.text()] rejects *)
| Text (srtText : string).

Definition eventsOf (i : nat) (o : Outcome) : list CaptionEvent :=
  match o with
  | FetchFailed => [FetchSettled i None]
  | NotOk => [FetchSettled i (Some false)]
  | TextFailed => [FetchSettled i (Some true); TextSettled i None]
  | Text srtText =>
      [FetchSettled i (Some true); TextSettled i (Some srtText)]
  end.

(** The batch an undisturbed run makes of its descriptors: the ones
    whose text arrived, in order, each with the next object URL. *)
Fixpoint converted (next : nat) (work : list (SubtitleTrack * Outcome))
  : list VttTrack :=
  match work with
  | [] => []
  | (sub, Text _) :: rest =>
      {| lang := language sub; vtt_url := next; label := display sub |}
        :: converted (S next) rest
  | _ :: rest => converted next rest
  end.

Lemma captionRun_app es1 es2 c :
  captionRun (es1 ++ es2) c
  = match captionRun es1 c with
    | Some c' => captionRun es2 c'
    | None => None
    end.
Proof.
  revert c. induction es1 as [|e es1 IH]; intros c; cbn [app captionRun];
    [reflexivity|].
  destruct (captionStep e c); [apply IH|reflexivity].
Qed.

(** What is known of a run between two descriptors. *)
Definition between (i : nat) (c : Captions) (created : list nat)
  (made : list VttTrack) (rest : list SubtitleTrack) : Prop :=
  passes c !! i
  = Some {| active_flag := true; createdUrls := created; newTracks := made;
            remaining := rest;
            awaiting := match rest with [] => Settled | _ => AwaitFetch end |}
  /\ (rest = [] -> tracks c = made).

(** One descriptor of an active run, from its [fetch] to the next. *)
Lemma one_descriptor i c created made sub rest o :
  between i c created made (sub :: rest) ->
  exists c',
    captionRun (eventsOf i o) c = Some c'
    /\ between i c' (created ++ map vtt_url (converted (nextBlob (store c))
                                              [(sub, o)]))
         (made ++ converted (nextBlob (store c)) [(sub, o)]) rest
    /\ nextBlob (store c')
       = nextBlob (store c) + length (converted 0 [(sub, o)])
    /\ live (store c')
       = live (store c)
         ∪ list_to_set (map vtt_url
                          (converted (nextBlob (store c)) [(sub, o)]))
    /\ revokeLog (store c') = revokeLog (store c)
    /\ mounted c' = mounted c
    /\ length (passes c') = length (passes c)
    /\ (rest <> [] -> tracks c' = tracks c).
Proof.
  intros [Hp _].
  assert (Hlt : i < length (passes c)) by (eapply lookup_lt_Some; eauto).
  destruct o as [| | |srtText]; cbn [eventsOf captionRun captionStep];
    rewrite Hp; cbn [awaiting remaining active_flag createdUrls newTracks].
  1,2: unfold continueWith; cbn [active_flag converted map length];
       rewrite !app_nil_r, Nat.add_0_r;
       destruct rest as [|sub' rest']; eexists; (split; [reflexivity|]);
       unfold between; cbn [passes tracks store mounted];
       rewrite list_lookup_insert_eq by exact Hlt;
       rewrite length_insert;
       repeat split; try reflexivity; try set_solver; try congruence.
  - cbn [passes]. rewrite list_lookup_insert_eq by exact Hlt.
    cbn [awaiting remaining active_flag createdUrls newTracks].
    unfold continueWith; cbn [active_flag converted map length].
    rewrite !app_nil_r, Nat.add_0_r.
    destruct rest as [|sub' rest']; eexists; (split; [reflexivity|]);
      unfold between; cbn [passes tracks store mounted];
      rewrite list_insert_insert_eq;
      rewrite list_lookup_insert_eq by exact Hlt;
      rewrite length_insert;
      repeat split; try reflexivity; try set_solver; try congruence.
  - cbn [passes]. rewrite list_lookup_insert_eq by exact Hlt.
    cbn [awaiting remaining active_flag createdUrls newTracks store].
    unfold createObjectURL.
    unfold continueWith; cbn [active_flag converted map length vtt_url].
    destruct rest as [|sub' rest']; eexists; (split; [reflexivity|]);
      unfold between; cbn [passes tracks store mounted nextBlob live
                           revokeLog];
      rewrite list_insert_insert_eq;
      rewrite list_lookup_insert_eq by exact Hlt;
      rewrite length_insert;
      repeat split; try reflexivity; try set_solver; try congruence;
      try lia.
Qed.

Lemma converted_urls work :
  forall n,
    map vtt_url (converted n work) = seq n (length (converted 0 work)).
Proof.
  induction work as [|[sub o] work IH]; intros n; [reflexivity|].
  destruct o; cbn [converted]; try apply IH.
  cbn [map vtt_url length seq]. f_equal.
  rewrite (IH (S n)). f_equal.
  rewrite <- (length_map vtt_url (converted 1 work)), (IH 1).
  now rewrite length_seq.
Qed.

Lemma converted_length work n :
  length (converted n work) = length (converted 0 work).
Proof.
  rewrite <- (length_map vtt_url), converted_urls. apply length_seq.
Qed.

Lemma converted_cons n x work :
  converted n (x :: work)
  = converted n [x] ++ converted (n + length (converted 0 [x])) work.
Proof.
  destruct x as [sub o]. destruct o; cbn [converted app length];
    rewrite ?Nat.add_0_r; try reflexivity.
  now rewrite Nat.add_1_r.
Qed.

Definition schedule (i : nat) (work : list (SubtitleTrack * Outcome))
  : list CaptionEvent :=
  concat (map (fun w => eventsOf i (snd w)) work).

(** An active run that nothing disturbs, from any descriptor to the end
    of its loop. *)
Lemma run_to_end i work :
  forall c created made,
    work <> [] -> between i c created made (map fst work) ->
    exists c',
      captionRun (schedule i work) c = Some c'
      /\ between i c'
           (created ++ map vtt_url (converted (nextBlob (store c)) work))
           (made ++ converted (nextBlob (store c)) work) []
      /\ nextBlob (store c')
         = nextBlob (store c) + length (converted 0 work)
      /\ live (store c')
         = live (store c)
           ∪ list_to_set (map vtt_url (converted (nextBlob (store c)) work))
      /\ revokeLog (store c') = revokeLog (store c)
      /\ mounted c' = mounted c
      /\ length (passes c') = length (passes c).
Proof.
  induction work as [|[sub o] work IH]; intros c created made Hne Hb;
    [contradiction|].
  cbn [map fst] in Hb.
  destruct (one_descriptor i c created made sub (map fst work) o Hb)
    as (c1 & R1 & B1 & N1 & L1 & G1 & M1 & P1 & T1).
  unfold schedule. cbn [map concat snd]. rewrite captionRun_app, R1.
  destruct work as [|w work'].
  - cbn [map concat captionRun]. exists c1.
    repeat split; try assumption; apply B1.
  - destruct (IH c1 _ _ ltac:(discriminate) B1)
      as (c2 & R2 & B2 & N2 & L2 & G2 & M2 & P2).
    exists c2. split; [exact R2|].
    rewrite (converted_cons (nextBlob (store c)) (sub, o) (w :: work')).
    rewrite N1 in B2, L2, N2.
    rewrite !map_app, !app_assoc.
    rewrite <- !app_assoc in B2. rewrite <- !app_assoc.
    split; [exact B2|].
    split.
    { rewrite N2, (converted_cons 0 (sub, o) (w :: work')), length_app.
      rewrite (converted_length (w :: work')
                 (0 + length (converted 0 [(sub, o)]))). lia. }
    split.
    { rewrite L2, L1, list_to_set_app_L. set_solver. }
    split; [congruence|]. split; congruence.
Qed.

Lemma cleanup_keeps i c :
  length (passes (cleanup i c)) = length (passes c)
  /\ nextBlob (store (cleanup i c)) = nextBlob (store c)
  /\ forall u, u ∈ live (store (cleanup i c)) -> u ∈ live (store c).
Proof.
  unfold cleanup. destruct (passes c !! i) as [p|]; cbn [passes store].
  - split; [apply length_insert|].
    split; [apply PlayerProps.revoke_all_next|].
    intros u Hu. now apply PlayerProps.revoke_all_live in Hu.
  - repeat split. tauto.
Qed.

(** X16. A run of Effect 3 that nothing disturbs publishes exactly the
    descriptors whose text arrived, in their order, each with an object
    URL of its own that is live; a descriptor whose fetch or text read
    fails, or whose response is not ok, is skipped without ending the
    run.  One URL is allocated per published track and none besides,
    and unmounting afterwards revokes every one of them. *)
Theorem undisturbed_run_publishes work c :
  work <> [] ->
  let i := length (passes c) in
  exists c' c'',
    captionRun (SubtitlesChanged (map fst work) :: schedule i work) c
    = Some c'
    /\ tracks c' = converted (nextBlob (store c)) work
    /\ mounted c' = Some i
    /\ nextBlob (store c') = nextBlob (store c) + length (tracks c')
    /\ NoDup (map vtt_url (tracks c'))
    /\ (forall tr, tr ∈ tracks c' -> vtt_url tr ∈ live (store c'))
    /\ captionStep Unmount c' = Some c''
    /\ (forall tr, tr ∈ tracks c' -> vtt_url tr ∉ live (store c''))
    /\ revokeLog (store c'')
       = revokeLog (store c') ++ map vtt_url (tracks c').
Proof.
  intros Hne i.
  set (c0 := match mounted c with Some j => cleanup j c | None => c end).
  assert (K : length (passes c0) = i
              /\ nextBlob (store c0) = nextBlob (store c)).
  { subst c0. destruct (mounted c) as [j|]; [|split; reflexivity].
    destruct (cleanup_keeps j c) as (A & B & _). split; assumption. }
  destruct K as [K1 K2].
  assert (Hw : exists w work', work = w :: work')
    by (destruct work as [|w work']; [contradiction|eauto]).
  destruct Hw as (w & work' & Hw).
  assert (B : between i (runEffect3 (map fst work) c0) [] [] (map fst work)).
  { unfold runEffect3. rewrite K1, Hw. cbn [map]. split; [|discriminate].
    cbn [passes]. apply list_lookup_middle. now rewrite K1. }
  destruct (run_to_end i work _ [] [] Hne B)
    as (c' & R & [Bp Bt] & N & L & G & M & P).
  assert (S0 : store (runEffect3 (map fst work) c0) = store c0).
  { unfold runEffect3. now destruct (map fst work). }
  assert (M0 : mounted (runEffect3 (map fst work) c0) = Some i).
  { unfold runEffect3. rewrite K1. now destruct (map fst work). }
  rewrite S0, K2 in Bp, Bt, N, L. cbn [app] in Bp, Bt.
  specialize (Bt eq_refl).
  assert (Hm : mounted c' = Some i) by congruence.
  exists c', (cleanup i c'). cbn [captionRun captionStep]. fold c0.
  split; [exact R|]. split; [exact Bt|]. split; [exact Hm|].
  split;
    [now rewrite N, Bt, (converted_length work (nextBlob (store c)))|].
  split; [rewrite Bt, converted_urls; apply NoDup_seq|].
  split.
  { intros tr Htr. rewrite L, <- Bt. apply elem_of_union_r.
    apply elem_of_list_to_set, list_elem_of_fmap. eauto. }
  rewrite Hm. split; [reflexivity|].
  destruct (PlayerProps.cleanup_revokes i _ c' Bp) as [Hlog Hlive].
  cbn [createdUrls] in Hlog, Hlive. rewrite <- Bt in Hlog, Hlive.
  split; [|exact Hlog].
  intros tr Htr. apply Hlive. apply list_elem_of_fmap. eauto.
Qed.

Definition subAr : SubtitleTrack :=
  {| sub_url := "https://subs/ar.srt"; language := "ar";
     display := "Arabic" |}.

Lemma undisturbed_run_publishes_witness :
  exists c',
    captionRun
      [SubtitlesChanged [PlayerProps.subEn; subAr];
       FetchSettled 0 (Some false);
       FetchSettled 0 (Some true); TextSettled 0 (Some "1"%string)]
      captionsOnMount = Some c'
    /\ tracks c' = [{| lang := "ar"; vtt_url := 0; label := "Arabic" |}].
Proof.
  destruct (undisturbed_run_publishes
              [(PlayerProps.subEn, NotOk); (subAr, Text "1")]
              captionsOnMount)
    as (c' & _ & R & T & _); [discriminate|].
  exists c'. split; [exact R|exact T].
Defined.

End CaptionProps.

(** ** The time labels *)

Module ClockProps.
Import JS Player Clock.
Local Open Scope Z_scope.

(** The two decimal digits of a number below one hundred. *)
Definition twoDigits (n : Z) : string :=
  String (Ascii.ascii_of_nat (48 + Z.to_nat (n / 10)))
    (String (Ascii.ascii_of_nat (48 + Z.to_nat (n mod 10))) "").

(** The whole seconds in [q]. *)
Definition wholeSeconds (q : Q) : Z := Qnum q / Z.pos (Qden q).

(** What a clock shows after [s] seconds: minutes and seconds, with the
    hours of the day in front once there is one. *)
Definition clock (s : Z) : string :=
  let h := (s / 3600) mod 24 in
  (if 0 <? h then twoDigits h +:+ ":" else "")
    +:+ twoDigits ((s / 60) mod 60) +:+ ":" +:+ twoDigits (s mod 60).

Lemma pad_two_digits_upto (k : nat) :
  forallb
    (fun n =>
       String.eqb (padStart 2 "0"%char (toString (Some (Z.of_nat n))))
         (twoDigits (Z.of_nat n)))
    (seq 0 k) = true ->
  forall n, 0 <= n < Z.of_nat k ->
    padStart 2 "0"%char (toString (Some n)) = twoDigits n.
Proof.
  intros H n Hn. rewrite forallb_forall in H.
  specialize (H (Z.to_nat n)). rewrite Z2Nat.id in H by lia.
  apply String.eqb_eq, H, in_seq. lia.
Qed.

Lemma pad_two_digits n :
  0 <= n < 100 -> padStart 2 "0"%char (toString (Some n)) = twoDigits n.
Proof. apply (pad_two_digits_upto 100). vm_compute. reflexivity. Qed.

Lemma wholeSeconds_ms (q : Q) :
  (0 <= q)%Q ->
  let t := Z.quot (Qnum (q * 1000)) (Z.pos (Qden (q * 1000))) in
  t / 1000 = wholeSeconds q
  /\ t / 60000 = wholeSeconds q / 60
  /\ t / 3600000 = wholeSeconds q / 3600.
Proof.
  intros Hq t. subst t. destruct q as [n d]. unfold Qle in Hq. cbn in Hq.
  assert (Hn : 0 <= n) by lia.
  unfold wholeSeconds. cbn [Qnum Qden Qmult].
  replace (Z.pos (d * 1)) with (Z.pos d) by lia.
  rewrite Z.quot_div_nonneg by lia.
  assert (E : n * 1000 / Z.pos d / 1000 = n / Z.pos d).
  { rewrite Z.div_div by lia. now rewrite Z.div_mul_cancel_r by lia. }
  split; [exact E|]. split.
  - change 60000 with (1000 * 60). rewrite <- Z.div_div by lia.
    now rewrite E.
  - change 3600000 with (1000 * 3600). rewrite <- Z.div_div by lia.
    now rewrite E.
Qed.

Lemma formatTime_valid (q : Q) :
  (0 <= q)%Q -> (q * 1000 <= 8640000000000000)%Q ->
  formatTime (Finite q) = clock (wholeSeconds q).
Proof.
  intros Hq Hb. unfold formatTime, notATime.
  assert (N : Qltb q 0 = false) by now apply AppProps.Qltb_ge.
  rewrite N. cbn [times1000 newDate].
  assert (A : Qltb 8640000000000000 (Qabs (q * 1000)) = false).
  { apply AppProps.Qltb_ge. rewrite Qabs_pos; [exact Hb|].
    apply Qmult_le_0_compat; [exact Hq|discriminate]. }
  rewrite A. cbv zeta.
  destruct (wholeSeconds_ms q Hq) as (E1 & E2 & E3).
  unfold getUTCHours, getUTCMinutes, getUTCSeconds, positive.
  cbn [option_map]. rewrite E1, E2, E3. unfold clock. cbv zeta.
  set (s := wholeSeconds q).
  rewrite (pad_two_digits (s mod 60))
    by (pose proof (Z.mod_pos_bound s 60); lia).
  rewrite (pad_two_digits (s / 60 mod 60))
    by (pose proof (Z.mod_pos_bound (s / 60) 60); lia).
  destruct (0 <? s / 3600 mod 24) eqn:H; [|reflexivity].
  rewrite (pad_two_digits (s / 3600 mod 24))
    by (pose proof (Z.mod_pos_bound (s / 3600) 24); lia).
  reflexivity.
Qed.

Lemma wholeSeconds_inject_Z (z : Z) : wholeSeconds (inject_Z z) = z.
Proof. unfold wholeSeconds. cbn [inject_Z Qnum Qden]. apply Z.div_1_r. Qed.

Lemma wholeSeconds_plus_day (q : Q) :
  wholeSeconds (q + 86400) = wholeSeconds q + 86400.
Proof.
  destruct q as [n d]. unfold wholeSeconds. cbn [Qnum Qden Qplus].
  replace (Z.pos (d * 1)) with (Z.pos d) by lia.
  replace (n * 1 + 86400 * Z.pos d) with (n + 86400 * Z.pos d) by lia.
  now rewrite Z.div_add by lia.
Qed.

Lemma clock_plus_day (s : Z) : clock (s + 86400) = clock s.
Proof.
  unfold clock.
  replace ((s + 86400) / 3600 mod 24) with (s / 3600 mod 24).
  2:{ replace (s + 86400) with (s + 24 * 3600) by lia.
      rewrite Z.div_add by lia.
      replace (s / 3600 + 24) with (s / 3600 + 1 * 24) by lia.
      now rewrite Z.mod_add by lia. }
  replace ((s + 86400) / 60 mod 60) with (s / 60 mod 60).
  2:{ replace (s + 86400) with (s + 1440 * 60) by lia.
      rewrite Z.div_add by lia.
      replace (s / 60 + 1440) with (s / 60 + 24 * 60) by lia.
      now rewrite Z.mod_add by lia. }
  replace ((s + 86400) mod 60) with (s mod 60).
  2:{ replace (s + 86400) with (s + 1440 * 60) by lia.
      now rewrite Z.mod_add by lia. }
  reflexivity.
Qed.

(** X17. For a time that is not negative and within the range of a date
    the label is the clock of its whole seconds: fractions are dropped,
    minutes and seconds always have two digits, and the hours appear,
    with two digits, exactly when the hour of the day is not zero; the
    label has five characters without the hours and eight with them. *)
Theorem formatTime_clock (q : Q) :
  (0 <= q)%Q -> (q * 1000 <= 8640000000000000)%Q ->
  formatTime (Finite q) = clock (wholeSeconds q)
  /\ formatTime (Finite q) = formatTime (Finite (inject_Z (wholeSeconds q)))
  /\ String.length (formatTime (Finite q))
     = if 0 <? (wholeSeconds q / 3600) mod 24 then 8%nat else 5%nat.
Proof.
  intros Hq Hb. rewrite (formatTime_valid q Hq Hb).
  assert (Hs : 0 <= wholeSeconds q).
  { unfold wholeSeconds. apply Z.div_pos; [|lia].
    unfold Qle in Hq. cbn in Hq. lia. }
  split; [reflexivity|]. split.
  - rewrite formatTime_valid.
    + now rewrite wholeSeconds_inject_Z.
    + unfold Qle. cbn. lia.
    + eapply Qle_trans; [|exact Hb].
      apply Qmult_le_compat_r; [|discriminate].
      unfold wholeSeconds, Qle. cbn [inject_Z Qnum Qden].
      rewrite Z.mul_1_r, Z.mul_comm. apply Z.mul_div_le. lia.
  - unfold clock. cbv zeta.
    destruct (0 <? wholeSeconds q / 3600 mod 24); reflexivity.
Qed.

Lemma formatTime_clock_witness :
  formatTime (Finite (7384.9)%Q) = "02:03:04"%string.
Proof.
  destruct (formatTime_clock (7384.9)%Q) as (-> & _).
  - unfold Qle. cbn. lia.
  - unfold Qle. cbn. lia.
  - vm_compute. reflexivity.
Defined.

(** X18. The label shows the time of day, not the time elapsed: a whole
    day more changes nothing, so a position of 24 hours reads as 00:00
    and one of 25 hours as 01:00:00. *)
Theorem formatTime_wraps_at_a_day (q : Q) :
  (0 <= q)%Q -> ((q + 86400) * 1000 <= 8640000000000000)%Q ->
  formatTime (Finite (q + 86400)) = formatTime (Finite q).
Proof.
  intros Hq Hb.
  assert (Hq' : (0 <= q + 86400)%Q) by lra.
  assert (Hb' : (q * 1000 <= 8640000000000000)%Q) by lra.
  rewrite (formatTime_valid _ Hq' Hb), (formatTime_valid _ Hq Hb').
  rewrite wholeSeconds_plus_day. apply clock_plus_day.
Qed.

Lemma formatTime_wraps_at_a_day_witness :
  formatTime (Finite (3600 + 86400)%Q) = "01:00:00"%string.
Proof.
  rewrite (formatTime_wraps_at_a_day 3600%Q).
  - vm_compute. reflexivity.
  - discriminate.
  - unfold Qle. cbn. lia.
Defined.

(** X19. What is not a time gets one of two fixed labels.  [NaN] and a
    negative number read 00:00.  [Infinity], which is the duration of
    an unbounded stream, and a number beyond the range of a date make
    an invalid date, whose components are [NaN]: the label is then
    NaN:NaN. *)
Theorem formatTime_not_a_time (seconds : Duration) :
  match seconds with
  | NaN => formatTime seconds = "00:00"%string
  | PosInfinity => formatTime seconds = "NaN:NaN"%string
  | Finite q =>
      ((q < 0)%Q -> formatTime seconds = "00:00"%string)
      /\ ((8640000000000000 < q * 1000)%Q ->
          formatTime seconds = "NaN:NaN"%string)
  end.
Proof.
  destruct seconds as [| |q]; [reflexivity|reflexivity|]. split.
  - intros H. unfold formatTime, notATime.
    apply AppProps.Qltb_lt in H. now rewrite H.
  - intros H. unfold formatTime, notATime.
    assert (P : (0 < q)%Q).
    { destruct (Qlt_le_dec 0 q) as [L|L]; [exact L|exfalso].
      apply (Qlt_not_le _ _ H).
      apply (Qle_trans _ (0 * 1000)); [|discriminate].
      apply Qmult_le_compat_r; [exact L|discriminate]. }
    assert (N : Qltb q 0 = false)
      by (apply AppProps.Qltb_ge; now apply Qlt_le_weak).
    rewrite N. cbn [times1000 newDate].
    assert (A : Qltb 8640000000000000 (Qabs (q * 1000)) = true).
    { apply AppProps.Qltb_lt. rewrite Qabs_pos; [exact H|].
      apply Qmult_le_0_compat; [now apply Qlt_le_weak|discriminate]. }
    rewrite A. reflexivity.
Qed.

Lemma formatTime_not_a_time_witness :
  formatTime (Finite (-3)%Q) = "00:00"%string
  /\ formatTime PosInfinity = "NaN:NaN"%string.
Proof.
  split.
  - exact (proj1 (formatTime_not_a_time (Finite (-3)%Q)) eq_refl).
  - exact (formatTime_not_a_time PosInfinity).
Defined.

End ClockProps.

(** ** The focus trap of a side panel *)

Module TrapProps.
Import JS Trap.
Local Open Scope Z_scope.

Lemma indexFrom_absent x l : forall k, x ∉ l -> indexFrom k x l = -1.
Proof.
  induction l as [|y l IH]; intros k H; cbn [indexFrom]; [reflexivity|].
  apply not_elem_of_cons in H. destruct H as [Hne H].
  destruct (Nat.eqb_spec y x) as [E|_]; [congruence|]. now apply IH.
Qed.

Lemma indexFrom_lookup x l :
  forall k i, NoDup l -> l !! i = Some x -> indexFrom k x l = k + Z.of_nat i.
Proof.
  induction l as [|y l IH]; intros k i Hn Hi; [discriminate|].
  apply NoDup_cons in Hn. destruct Hn as [Hy Hn]. cbn [indexFrom].
  destruct i as [|i]; cbn in Hi.
  - injection Hi as ->. rewrite Nat.eqb_refl. lia.
  - destruct (Nat.eqb_spec y x) as [->|_].
    + exfalso. apply Hy. eapply list_elem_of_lookup_2. exact Hi.
    + rewrite (IH (k + 1) i Hn Hi). lia.
Qed.

Lemma focusables_NoDup panel :
  NoDup (map node panel) -> NoDup (focusableElements panel).
Proof.
  intros H. unfold focusableElements.
  assert (G : forall (f : Descendant -> bool) l,
             NoDup (map node l) -> NoDup (map node (List.filter f l))).
  { intros f l. induction l as [|x l IH]; cbn [List.filter map]; intros Hl;
      [constructor|].
    apply NoDup_cons in Hl. destruct Hl as [Hx Hl].
    destruct (f x); [|now apply IH]. cbn [map]. apply NoDup_cons.
    split; [|now apply IH]. intros Hin. apply Hx.
    rewrite list_elem_of_In, in_map_iff in Hin.
    destruct Hin as (y & E & Hy). apply filter_In in Hy.
    rewrite list_elem_of_In, in_map_iff. exists y. tauto. }
  now apply G, G.
Qed.

(** The arrow keys on a focused member of the panel. *)
Lemma arrow_from_member panel a i :
  let l := focusableElements panel in
  let n := Z.of_nat (length l) in
  NoDup l -> l !! i = Some a ->
  forall shiftKey,
    handleKeyDown panel (Some a) "ArrowDown" shiftKey
    = StopPropagation :: PreventDefault
        :: focusAt l ((Z.of_nat i + 1) mod n)
    /\ handleKeyDown panel (Some a) "ArrowUp" shiftKey
       = StopPropagation :: PreventDefault
           :: focusAt l ((Z.of_nat i - 1) mod n).
Proof.
  cbv zeta. intros Hn Hi sh. unfold handleKeyDown.
  assert (Hlt : (i < length (focusableElements panel))%nat)
    by (eapply lookup_lt_Some; eauto).
  destruct (focusableElements panel) as [|firstElement rest];
    [cbn in Hlt; lia|].
  set (l := firstElement :: rest) in *.
  set (n := Z.of_nat (length l)) in *.
  cbn [String.eqb Ascii.eqb Bool.eqb orb].
  unfold indexOf. rewrite (indexFrom_lookup a l 0 i Hn Hi).
  assert (Hpos : 0 < n) by lia.
  assert (Hi' : Z.of_nat i < n) by lia.
  destruct (0 + Z.of_nat i =? -1) eqn:E; [lia|]. split.
  - rewrite Z.rem_mod_nonneg by lia. now rewrite Z.add_0_l.
  - rewrite Z.rem_mod_nonneg by lia. do 3 f_equal.
    replace (0 + Z.of_nat i - 1 + n) with (Z.of_nat i - 1 + 1 * n) by lia.
    now rewrite Z.mod_add by lia.
Qed.

Lemma focusAt_member (l : list nat) (j : Z) :
  0 <= j < Z.of_nat (length l) ->
  exists b, l !! Z.to_nat j = Some b /\ focusAt l j = [Focus b].
Proof.
  intros Hj. unfold focusAt.
  destruct (j <? 0) eqn:E; [lia|].
  destruct (lookup_lt_is_Some_2 l (Z.to_nat j)) as [b Hb]; [lia|].
  exists b. now rewrite Hb.
Qed.

(** One step of [press] from the member at index [i]. *)
Lemma press_step panel (down : bool) a i :
  let l := focusableElements panel in
  let n := Z.of_nat (length l) in
  NoDup l -> l !! i = Some a ->
  let key := if down then "ArrowDown"%string else "ArrowUp"%string in
  let j := Z.to_nat ((Z.of_nat i + if down then 1 else -1) mod n) in
  exists b,
    l !! j = Some b
    /\ focusAfter (Some a) (handleKeyDown panel (Some a) key false) = Some b.
Proof.
  intros l n Hn Hi key j.
  assert (Hlt : (i < length l)%nat) by (eapply lookup_lt_Some; eauto).
  assert (Hpos : 0 < n) by (subst n; lia).
  destruct (arrow_from_member panel a i Hn Hi false) as [D U].
  fold l n in D, U. subst key j. destruct down.
  - destruct (focusAt_member l ((Z.of_nat i + 1) mod n)) as (b & Hb & F).
    { apply Z.mod_pos_bound. lia. }
    exists b. split; [exact Hb|]. rewrite D, F. reflexivity.
  - destruct (focusAt_member l ((Z.of_nat i - 1) mod n)) as (b & Hb & F).
    { apply Z.mod_pos_bound. lia. }
    exists b. split; [exact Hb|]. rewrite U, F. reflexivity.
Qed.

Lemma press_downs panel k :
  let l := focusableElements panel in
  let n := Z.of_nat (length l) in
  NoDup l ->
  forall a i, l !! i = Some a ->
    exists b,
      l !! Z.to_nat ((Z.of_nat i + Z.of_nat k) mod n) = Some b
      /\ press panel (repeat "ArrowDown"%string k) (Some a) = Some b.
Proof.
  intros l n Hn. induction k as [|k IH]; intros a i Hi.
  - assert (Hlt : (i < length l)%nat) by (eapply lookup_lt_Some; eauto).
    exists a. cbn [repeat press fold_left]. split; [|reflexivity].
    rewrite Z.add_0_r, Z.mod_small by (subst n; lia).
    now rewrite Nat2Z.id.
  - assert (Hlt : (i < length l)%nat) by (eapply lookup_lt_Some; eauto).
    assert (Hpos : 0 < n) by (subst n; lia).
    destruct (press_step panel true a i Hn Hi) as (b & Hb & F).
    cbv zeta in Hb, F. fold l n in Hb.
    destruct (IH b _ Hb) as (c & Hc & P).
    exists c. split.
    + rewrite <- Hc. f_equal. f_equal.
      rewrite Z2Nat.id by (apply Z.mod_pos_bound; lia).
      rewrite Zplus_mod_idemp_l. f_equal. lia.
    + cbn [repeat]. unfold press in *. cbn [fold_left]. now rewrite F.
Qed.

(** X20. Inside the panel the arrow keys walk the focusable elements as
    a ring: ArrowDown goes to the next one and from the last to the
    first, ArrowUp to the previous one and from the first to the last.
    So either key undoes the other, and as many ArrowDown presses as
    there are elements lead back to where the focus was. *)
Theorem trap_arrows_cycle panel a i :
  let l := focusableElements panel in
  let n := Z.of_nat (length l) in
  NoDup (map node panel) -> l !! i = Some a ->
  (exists b,
     l !! Z.to_nat ((Z.of_nat i + 1) mod n) = Some b
     /\ handleKeyDown panel (Some a) "ArrowDown" false
        = [StopPropagation; PreventDefault; Focus b])
  /\ (exists b,
        l !! Z.to_nat ((Z.of_nat i - 1) mod n) = Some b
        /\ handleKeyDown panel (Some a) "ArrowUp" false
           = [StopPropagation; PreventDefault; Focus b])
  /\ press panel ["ArrowDown"; "ArrowUp"]%string (Some a) = Some a
  /\ press panel ["ArrowUp"; "ArrowDown"]%string (Some a) = Some a
  /\ press panel (repeat "ArrowDown"%string (length l)) (Some a) = Some a.
Proof.
  intros l n Hp Hi. pose proof (focusables_NoDup panel Hp) as Hn. fold l in Hn.
  assert (Hlt : (i < length l)%nat) by (eapply lookup_lt_Some; eauto).
  assert (Hpos : 0 < n) by (subst n; lia).
  destruct (arrow_from_member panel a i Hn Hi false) as [D U].
  fold l n in D, U.
  destruct (focusAt_member l ((Z.of_nat i + 1) mod n)) as (b & Hb & Fb);
    [apply Z.mod_pos_bound; lia|].
  destruct (focusAt_member l ((Z.of_nat i - 1) mod n)) as (c & Hc & Fc);
    [apply Z.mod_pos_bound; lia|].
  split; [exists b; split; [exact Hb|now rewrite D, Fb]|].
  split; [exists c; split; [exact Hc|now rewrite U, Fc]|].
  split; [|split].
  - destruct (press_step panel true a i Hn Hi) as (b1 & Hb1 & F1).
    cbv zeta in Hb1, F1. fold l n in Hb1.
    destruct (press_step panel false b1 _ Hn Hb1) as (b2 & Hb2 & F2).
    cbv zeta in Hb2, F2. fold l n in Hb2.
    unfold press. cbn [fold_left]. rewrite F1, F2. rewrite <- Hi, <- Hb2.
    f_equal. rewrite Z2Nat.id by (apply Z.mod_pos_bound; lia).
    rewrite Zplus_mod_idemp_l.
    replace (Z.of_nat i + 1 + -1) with (Z.of_nat i) by lia.
    rewrite Z.mod_small by (subst n; lia). now rewrite Nat2Z.id.
  - destruct (press_step panel false a i Hn Hi) as (b1 & Hb1 & F1).
    cbv zeta in Hb1, F1. fold l n in Hb1.
    destruct (press_step panel true b1 _ Hn Hb1) as (b2 & Hb2 & F2).
    cbv zeta in Hb2, F2. fold l n in Hb2.
    unfold press. cbn [fold_left]. rewrite F1, F2. rewrite <- Hi, <- Hb2.
    f_equal. rewrite Z2Nat.id by (apply Z.mod_pos_bound; lia).
    rewrite Zplus_mod_idemp_l.
    replace (Z.of_nat i + -1 + 1) with (Z.of_nat i) by lia.
    rewrite Z.mod_small by (subst n; lia). now rewrite Nat2Z.id.
  - destruct (press_downs panel (length l) Hn a i Hi) as (b1 & Hb1 & P).
    fold l in Hb1. rewrite P, <- Hi, <- Hb1. f_equal. subst n.
    replace (Z.of_nat i + Z.of_nat (length l))
      with (Z.of_nat i + 1 * Z.of_nat (length l)) by lia.
    rewrite Z.mod_add by lia.
    rewrite Z.mod_small by lia. now rewrite Nat2Z.id.
Qed.

Definition button (n : nat) (disabled : bool) : Descendant :=
  {| node := n; selected := true; hasDisabled := disabled |}.

(** A back button, a heading that the query does not select, and three
    options of which the second is disabled. *)
Definition somePanel : list Descendant :=
  [button 1 false; {| node := 2; selected := false; hasDisabled := false |};
   button 3 false; button 4 true; button 5 false].

Lemma trap_arrows_cycle_witness :
  handleKeyDown somePanel (Some 5%nat) "ArrowDown" false
  = [StopPropagation; PreventDefault; Focus 1].
Proof.
  destruct (trap_arrows_cycle somePanel 5%nat 2%nat) as ((b & Hb & D) & _).
  - apply (bool_decide_unpack _). vm_compute. exact I.
  - reflexivity.
  - vm_compute in Hb. injection Hb as <-. exact D.
Defined.

Lemma last_member (l : list nat) :
  forall x d, In (List.last (x :: l) d) (x :: l).
Proof.
  induction l as [|y l IH]; intros x d; [now left|].
  right. apply (IH y d).
Qed.

(** X21. The handler keeps the focus in the panel and every key to
    itself: each keypress is stopped from propagating, and an element
    the handler focuses is one of the panel's focusable elements.
    Escape asks the panel to close, unless the panel has no focusable
    element: then the handler returns before it looks at the key.  Tab
    is left to the browser except on the last element, and Shift+Tab
    except on the first, where the focus wraps to the other end.  With
    the focus outside the panel an arrow key brings it to the first
    element. *)
Theorem trap_holds_focus panel activeElement key shiftKey :
  let l := focusableElements panel in
  let effects := handleKeyDown panel activeElement key shiftKey in
  (exists rest, effects = StopPropagation :: rest)
  /\ (forall el, In (Focus el) effects -> In el l)
  /\ (l = [] -> effects = [StopPropagation])
  /\ (l <> [] -> key = "Escape"%string ->
      effects = [StopPropagation; OnClose])
  /\ (key = "Tab"%string ->
      forall firstElement,
        l !! 0%nat = Some firstElement ->
        let lastElement := List.last l firstElement in
        effects
        = if isActive activeElement
               (if shiftKey then firstElement else lastElement)
          then [StopPropagation; PreventDefault;
                Focus (if shiftKey then lastElement else firstElement)]
          else [StopPropagation])
  /\ (key = "ArrowDown"%string \/ key = "ArrowUp"%string ->
      (forall a, activeElement = Some a -> ~ In a l) ->
      forall firstElement,
        l !! 0%nat = Some firstElement ->
        effects = [StopPropagation; PreventDefault; Focus firstElement]).
Proof.
  intros l effects. subst effects. unfold handleKeyDown. fold l.
  destruct l as [|firstElement rest] eqn:El.
  { split; [eauto|]. split; [intros el [H|[]]; discriminate H|].
    split; [reflexivity|]. split; [congruence|].
    split; intros; discriminate. }
  rewrite <- El. cbv zeta.
  assert (Hfirst : In firstElement l) by (rewrite El; now left).
  assert (Hlast : In (List.last l firstElement) l).
  { rewrite El. apply last_member. }
  split; [eauto|]. split; [|split; [rewrite El; discriminate|split; [|split]]].
  - intros el [H|H]; [discriminate H|].
    destruct (key =? "Escape")%string; [destruct H as [H|[]]; discriminate|].
    destruct (key =? "Tab")%string.
    { destruct shiftKey;
        match goal with
        | H : In _ (if ?b then _ else _) |- _ => destruct b
        end; cbn in H; try tauto;
        destruct H as [H|[H|[]]]; try discriminate H;
        injection H as <-; assumption. }
    destruct ((key =? "ArrowDown")%string || (key =? "ArrowUp")%string);
      [|destruct H].
    destruct H as [H|H]; [discriminate H|].
    destruct (indexOf activeElement l =? -1).
    { destruct H as [H|[]]. injection H as <-. exact Hfirst. }
    assert (G : forall j, In (Focus el) (focusAt l j) -> In el l).
    { intros j. unfold focusAt. destruct (j <? 0); [intros []|].
      destruct (l !! Z.to_nat j) as [b|] eqn:Hb; [|intros []].
      intros [Hj|[]]. injection Hj as <-.
      apply list_elem_of_In. eapply list_elem_of_lookup_2. exact Hb. }
    destruct (key =? "ArrowDown")%string; eapply G; exact H.
  - intros _ ->. reflexivity.
  - intros -> f Hf. rewrite El in Hf. cbn in Hf. injection Hf as <-.
    cbn [String.eqb Ascii.eqb Bool.eqb].
    destruct shiftKey; cbv zeta;
      destruct (isActive activeElement _); reflexivity.
  - intros Hk Hout f Hf. rewrite El in Hf. cbn in Hf. injection Hf as <-.
    assert (Hidx : indexOf activeElement l = -1).
    { destruct activeElement as [a|]; [|reflexivity]. cbn [indexOf].
      apply indexFrom_absent. rewrite list_elem_of_In. now apply Hout. }
    rewrite Hidx. destruct Hk as [-> | ->]; reflexivity.
Qed.

Lemma trap_holds_focus_witness :
  handleKeyDown somePanel (Some 5%nat) "Tab" false
  = [StopPropagation; PreventDefault; Focus 1]
  /\ handleKeyDown [button 4 true] None "Escape" false = [StopPropagation].
Proof.
  split.
  - destruct (trap_holds_focus somePanel (Some 5%nat) "Tab" false)
      as (_ & _ & _ & _ & H & _).
    exact (H eq_refl 1%nat eq_refl).
  - destruct (trap_holds_focus [button 4 true] None "Escape" false)
      as (_ & _ & H & _).
    exact (H eq_refl).
Defined.

End TrapProps.

(** ** Seeking with the pointer *)

Module PointerProps.
Import JS Pointer.
Local Open Scope Q_scope.

Lemma sign_spec (q : Q) :
  match sign q with
  | Eq => q == 0
  | Lt => q < 0
  | Gt => 0 < q
  end.
Proof.
  unfold sign. destruct (q ?= 0) eqn:E.
  - now apply Qeq_alt.
  - now apply Qlt_alt.
  - now apply Qgt_alt.
Qed.

Ltac signs :=
  repeat match goal with
         | |- context [sign ?q] =>
             let S := fresh "S" in
             pose proof (sign_spec q) as S; destruct (sign q)
         end.

(** The value the handler computes, with the bar present and a
    duration that is not zero. *)
Definition newTime (duration : Number) (clientX left width : Q) : Number :=
  max (Finite 0)
    (min (mul (div (Finite (clientX - left)) (Finite width)) duration)
       duration).

Lemma handler_newTime duration clientX left width v :
  isZero duration = false ->
  handleProgressInteraction true duration clientX left width (Some v)
  = match newTime duration clientX left width with
    | Finite x =>
        {| stopped := true; element := Some (Player.set_currentTime x v);
           typeError := false |}
    | _ => {| stopped := true; element := Some v; typeError := true |}
    end.
Proof.
  intros Hz. unfold handleProgressInteraction, newTime. rewrite Hz.
  reflexivity.
Qed.

Lemma newTime_bounds duration clientX left width x :
  newTime duration clientX left width = Finite x ->
  0 <= x
  /\ match duration with
     | Finite d => 0 <= d -> x <= d
     | _ => x == 0
     end.
Proof.
  unfold newTime.
  destruct (div (Finite (clientX - left)) (Finite width)) as [| | |c];
    destruct duration as [| | |d]; cbn [mul min max];
    signs; cbn [min max]; intros H; try discriminate H;
    injection H as <-.
  all: split; [first [apply Qle_refl|apply Q.le_max_l]|].
  all: first
         [ reflexivity
         | intros Hd;
           first
             [ lra
             | apply Q.max_lub;
               [exact Hd|first [apply Q.le_min_r|apply Qle_refl]] ] ].
Qed.

(** X22. Wherever the pointer is and whatever the rectangle of the bar,
    the handler never moves playback outside the media: it leaves the
    element as it is, or sets a position that is not negative and not
    past a duration that is finite; with an unbounded duration the only
    position it can set is zero.  With a duration of zero, or without
    the bar, it does nothing at all and lets the event propagate. *)
Theorem pointer_seek_within_bounds progressBar duration clientX left
  width video :
  let r := handleProgressInteraction progressBar duration clientX left width
             video in
  match video with
  | None => element r = None
  | Some v =>
      element r = Some v
      \/ exists x,
           element r = Some (Player.set_currentTime x v)
           /\ typeError r = false /\ 0 <= x
           /\ match duration with
              | Finite d => 0 <= d -> x <= d
              | _ => x == 0
              end
  end
  /\ (progressBar = false \/ isZero duration = true ->
      r = {| stopped := false; element := video; typeError := false |}).
Proof.
  intros r. subst r. split.
  - destruct video as [v|].
    + destruct progressBar; [|left; reflexivity].
      destruct (isZero duration) eqn:Hz.
      { left. unfold handleProgressInteraction. now rewrite Hz. }
      rewrite (handler_newTime _ _ _ _ _ Hz).
      destruct (newTime duration clientX left width) as [| | |x] eqn:E;
        try (left; reflexivity).
      right. exists x. cbn [element typeError].
      destruct (newTime_bounds _ _ _ _ _ E) as [H0 Hd]. auto.
    + unfold handleProgressInteraction.
      destruct (negb progressBar || isZero duration); reflexivity.
  - intros [-> | Hz]; unfold handleProgressInteraction; [reflexivity|].
    rewrite Hz, orb_true_r. reflexivity.
Qed.

Definition someVideo : Player.Video :=
  {| Player.currentTime := 12; Player.duration := Player.Finite 600;
     Player.paused := false; Player.src := Some "https://cdn/a.mp4"%string;
     Player.loadeddata_once := []; Player.playCalls := 1 |}.

Lemma pointer_seek_within_bounds_witness :
  handleProgressInteraction true (Finite 0) 40 10 300 (Some someVideo)
  = {| stopped := false; element := Some someVideo; typeError := false |}.
Proof.
  exact (proj2 (pointer_seek_within_bounds true (Finite 0) 40 10 300
                  (Some someVideo)) (or_intror eq_refl)).
Defined.



(** X24. Two ways to a position that is not a number.  On a bar whose
    width is zero the pointer right of its left edge seeks to the end,
    left of it to zero, and exactly on it the assignment raises a
    TypeError.  With an unbounded duration the pointer left of the edge
    seeks to zero, and from the edge on the assignment raises a
    TypeError, on a bar of any positive width. *)
Theorem pointer_seek_degenerate clientX left v :
  (forall d, 0 < d ->
     let r := handleProgressInteraction true (Finite d) clientX left 0
                (Some v) in
     match clientX ?= left with
     | Gt => r = {| stopped := true;
                    element := Some (Player.set_currentTime (Qmax 0 d) v);
                    typeError := false |}
     | Lt => r = {| stopped := true;
                    element := Some (Player.set_currentTime 0 v);
                    typeError := false |}
     | Eq => r = {| stopped := true; element := Some v;
                    typeError := true |}
     end)
  /\ (forall width, 0 < width ->
        let r := handleProgressInteraction true PosInfinity clientX left
                   width (Some v) in
        match clientX ?= left with
        | Lt => r = {| stopped := true;
                       element := Some (Player.set_currentTime 0 v);
                       typeError := false |}
        | _ => r = {| stopped := true; element := Some v;
                      typeError := true |}
        end).
Proof.
  assert (C : match clientX ?= left with
              | Eq => clientX - left == 0
              | Lt => clientX - left < 0
              | Gt => 0 < clientX - left
              end).
  { destruct (clientX ?= left) eqn:E.
    - apply Qeq_alt in E. lra.
    - apply Qlt_alt in E. lra.
    - apply Qgt_alt in E. lra. }
  split.
  - intros d Hd r. subst r.
    assert (Hz : isZero (Finite d) = false).
    { cbn [isZero]. pose proof (sign_spec d) as S.
      destruct (sign d); [|reflexivity|reflexivity]. lra. }
    rewrite (handler_newTime _ _ _ _ _ Hz). unfold newTime. cbn [div].
    change (sign 0) with Eq. cbv iota.
    pose proof (sign_spec (clientX - left)) as S.
    pose proof (sign_spec d) as Sd.
    destruct (clientX ?= left); destruct (sign (clientX - left));
      try lra; cbn [mul]; destruct (sign d); try lra; reflexivity.
  - intros width Hw r. subst r.
    rewrite (handler_newTime PosInfinity _ _ _ _ eq_refl).
    unfold newTime. cbn [div].
    pose proof (sign_spec width) as S. destruct (sign width); try lra.
    cbn [mul]. pose proof (sign_spec ((clientX - left) / width)) as T.
    assert (Hdiv : (clientX - left) / width * width == clientX - left).
    { field. lra. }
    assert (Hinv : 0 < / width) by now apply Qinv_lt_0_compat.
    set (share := (clientX - left) / width) in *.
    destruct (clientX ?= left); destruct (sign share); cbn [min max];
      try reflexivity; exfalso; nra.
Qed.

Lemma pointer_seek_degenerate_witness :
  handleProgressInteraction true (Finite 600) 40 10 0 (Some someVideo)
  = {| stopped := true;
       element := Some (Player.set_currentTime (Qmax 0 600) someVideo);
       typeError := false |}.
Proof.
  exact (proj1 (pointer_seek_degenerate 40 10 someVideo) 600 eq_refl).
Defined.

End PointerProps.

(** ** From SubRip to WebVTT *)

Module VttProps.
Import Vtt.
Local Open Scope N_scope.
#[local] Set Warnings "-clear-no-such-hyp".

(** The conversion of the text after the header. *)
Definition body (srtText : Text) : Text :=
  replaceTimestampLines (removeCarriageReturns srtText).

(** A timestamp of SubRip or of WebVTT, and the same with a dot before
    the milliseconds. *)
Definition isStamp (s : Text) : Prop := timestamp s = Some (s, []).
Definition dotted (s : Text) : Text := firstn 8 s ++ [46] ++ skipn 9 s.

(** A unit that no part of a timestamp line can match. *)
Definition foreign (c : N) : bool :=
  negb (isDigit c || isSpace c
        || existsb (N.eqb c) [58; 44; 46; 45; 62]).

Lemma units_shape classes :
  forall l matched rest,
    units classes l = Some (matched, rest) ->
    l = matched ++ rest /\ length matched = length classes
    /\ Forall2 (fun class c => class c = true) classes matched.
Proof.
  induction classes as [|class classes IH]; intros l matched rest;
    cbn [units].
  - intros H. injection H as <- <-. repeat split. constructor.
  - destruct l as [|c l]; [discriminate|].
    destruct (class c) eqn:Hc; [|discriminate].
    destruct (units classes l) as [[m r]|] eqn:E; [|discriminate].
    intros H. injection H as <- <-.
    destruct (IH _ _ _ E) as (-> & Hl & Hf).
    repeat split; cbn; [now rewrite Hl|now constructor].
Qed.

Lemma units_complete classes matched :
  Forall2 (fun (class : N -> bool) c => class c = true) classes matched ->
  units classes matched = Some (matched, []).
Proof.
  induction 1 as [|class c classes matched Hc _ IH]; cbn [units];
    [reflexivity|].
  now rewrite Hc, IH.
Qed.

Lemma units_app classes :
  forall l matched rest more,
    units classes l = Some (matched, rest) ->
    units classes (l ++ more) = Some (matched, rest ++ more).
Proof.
  induction classes as [|class classes IH]; intros l matched rest more;
    cbn [units].
  - intros H. now injection H as <- <-.
  - destruct l as [|c l]; [discriminate|]. cbn [app].
    destruct (class c); [|discriminate].
    destruct (units classes l) as [[m r]|] eqn:E; [|discriminate].
    intros H. injection H as <- <-. now rewrite (IH _ _ _ more E).
Qed.

Lemma units_cut classes c :
  Forall (fun class : N -> bool => class c = false) classes ->
  forall a b,
    units classes a = None ->
    units classes (a ++ c :: b) = None.
Proof.
  induction 1 as [|class classes Hc Hf IH]; intros a b; cbn [units];
    [discriminate|].
  destruct a as [|x a]; cbn [app]; [now rewrite Hc|].
  destruct (class x); [|reflexivity].
  destruct (units classes a) as [[m r]|] eqn:E; [discriminate|].
  intros _. now rewrite (IH a b E).
Qed.

Lemma spaces_suffix l :
  exists ws, l = ws ++ spaces l /\ Forall (fun c => isSpace c = true) ws.
Proof.
  induction l as [|c l (ws & E & F)]; [exists []; split; [easy|constructor]|].
  cbn [spaces]. destruct (isSpace c) eqn:Hc.
  - exists (c :: ws). split; [cbn; now f_equal|now constructor].
  - exists []. split; [reflexivity|constructor].
Qed.

Lemma spaces_app l c more :
  isSpace c = false -> spaces (l ++ c :: more) = spaces l ++ c :: more.
Proof.
  intros Hc. induction l as [|x l IH]; cbn [app spaces]; [now rewrite Hc|].
  destruct (isSpace x); [exact IH|reflexivity].
Qed.

Lemma spaces_skip ws l :
  Forall (fun c => isSpace c = true) ws -> spaces (ws ++ l) = spaces l.
Proof.
  induction 1 as [|c ws Hc _ IH]; [reflexivity|].
  cbn [app spaces]. now rewrite Hc.
Qed.

(** The shape of a match. *)
Lemma regex_shape l s e rest :
  srtTimestampLineRegex l = Some (s, e, rest) ->
  exists ws1 ws2,
    l = s ++ ws1 ++ [45; 45; 62] ++ ws2 ++ e ++ rest
    /\ isStamp s /\ isStamp e
    /\ Forall (fun c => isSpace c = true) ws1
    /\ Forall (fun c => isSpace c = true) ws2.
Proof.
  unfold srtTimestampLineRegex, arrow.
  destruct (timestamp l) as [[s' r1]|] eqn:T1; [|discriminate].
  destruct (units _ (spaces r1)) as [[m r2]|] eqn:A; [|discriminate].
  cbn [option_map snd].
  destruct (timestamp (spaces r2)) as [[e' r3]|] eqn:T2; [|discriminate].
  intros H. injection H as <- <- <-.
  destruct (spaces_suffix r1) as (ws1 & E1 & F1).
  destruct (spaces_suffix r2) as (ws2 & E2 & F2).
  pose proof (units_shape _ _ _ _ T1) as (L1 & N1 & C1).
  pose proof (units_shape _ _ _ _ T2) as (L2 & N2 & C2).
  pose proof (units_shape _ _ _ _ A) as (L3 & N3 & C3).
  assert (m = [45; 45; 62]) as ->.
  { destruct m as [|x1 [|x2 [|x3 [|]]]]; try discriminate N3.
    apply Forall2_cons_1 in C3. destruct C3 as [X1 C3].
    apply Forall2_cons_1 in C3. destruct C3 as [X2 C3].
    apply Forall2_cons_1 in C3. destruct C3 as [X3 _].
    apply N.eqb_eq in X1, X2, X3. now subst. }
  exists ws1, ws2. split.
  - rewrite L1 at 1. f_equal. rewrite E1 at 1. f_equal.
    rewrite L3. cbn [app]. do 3 f_equal. rewrite E2 at 1. f_equal.
    exact L2.
  - split; [exact (units_complete _ _ C1)|].
    split; [exact (units_complete _ _ C2)|]. now split.
Qed.

Lemma regex_consumes l s e rest :
  srtTimestampLineRegex l = Some (s, e, rest) ->
  (length rest < length l)%nat.
Proof.
  intros H. destruct (regex_shape _ _ _ _ H) as (ws1 & ws2 & -> & _).
  rewrite !length_app. cbn [length]. lia.
Qed.

(** Enough fuel is as good as any larger amount. *)
Lemma replaceFrom_fuel f1 :
  forall f2 l,
    (length l <= f1)%nat -> (length l <= f2)%nat ->
    replaceFrom f1 l = replaceFrom f2 l.
Proof.
  induction f1 as [|f1 IH]; intros f2 l H1 H2.
  - destruct l; [|cbn in H1; lia]. now destruct f2.
  - destruct l as [|c tail]; [now destruct f2|].
    destruct f2 as [|f2]; [cbn in H2; lia|]. cbn [replaceFrom].
    destruct (srtTimestampLineRegex (c :: tail)) as [[[s e] rest]|] eqn:E.
    + apply regex_consumes in E. cbn [length] in *.
      f_equal. apply IH; lia.
    + cbn [length] in *. f_equal. apply IH; lia.
Qed.

Lemma foreign_classes c :
  foreign c = true ->
  isDigit c = false /\ isSpace c = false
  /\ Forall (fun class : N -> bool => class c = false) timestampClasses
  /\ Forall (fun class : N -> bool => class c = false)
       [N.eqb 45; N.eqb 45; N.eqb 62].
Proof.
  unfold foreign. intros H. apply negb_true_iff in H.
  apply orb_false_iff in H. destruct H as [H He].
  apply orb_false_iff in H. destruct H as [Hd Hs].
  cbn [existsb] in He.
  repeat (apply orb_false_iff in He; destruct He as [? He]).
  split; [exact Hd|]. split; [exact Hs|].
  split; repeat constructor; cbn beta; rewrite ?Hd, ?(N.eqb_sym _ c);
    try assumption.
  now apply orb_false_iff.
Qed.

(** A foreign unit ends every attempt to match that has reached it. *)
Lemma regex_app a c b :
  foreign c = true ->
  srtTimestampLineRegex (a ++ c :: b)
  = match srtTimestampLineRegex a with
    | Some (s, e, rest) => Some (s, e, rest ++ c :: b)
    | None => None
    end.
Proof.
  intros Hc. destruct (foreign_classes c Hc) as (Hd & Hs & Ft & Fa).
  unfold srtTimestampLineRegex, timestamp, arrow.
  destruct (units timestampClasses a) as [[s r1]|] eqn:T1.
  2:{ now rewrite (units_cut _ _ Ft a b T1). }
  rewrite (units_app _ _ _ _ (c :: b) T1), (spaces_app _ _ _ Hs).
  destruct (units _ (spaces r1)) as [[m r2]|] eqn:A.
  2:{ now rewrite (units_cut _ _ Fa _ b A). }
  rewrite (units_app _ _ _ _ (c :: b) A). cbn [option_map snd].
  rewrite (spaces_app _ _ _ Hs).
  destruct (units timestampClasses (spaces r2)) as [[e r3]|] eqn:T2.
  - now rewrite (units_app _ _ _ _ (c :: b) T2).
  - now rewrite (units_cut _ _ Ft _ b T2).
Qed.

Lemma replaceFrom_app f :
  forall a c b,
    foreign c = true -> (length (a ++ c :: b) <= f)%nat ->
    replaceFrom f (a ++ c :: b) = replaceFrom f a ++ c :: replaceFrom f b.
Proof.
  induction f as [|f IH]; intros a c b Hc Hl.
  - rewrite length_app in Hl. cbn in Hl. lia.
  - rewrite length_app in Hl. cbn [length] in Hl.
    assert (Hb : replaceFrom f b = replaceFrom (S f) b)
      by (apply replaceFrom_fuel; lia).
    destruct a as [|x a].
    + cbn [app]. change (c :: b) with ([] ++ c :: b) at 1.
      cbn [replaceFrom]. change (c :: b) with ([] ++ c :: b) at 1.
      rewrite (regex_app [] c b Hc).
      replace (srtTimestampLineRegex []) with (@None (Text * Text * Text))
        by reflexivity.
      cbn [app]. now rewrite Hb.
    + cbn [app replaceFrom]. change (x :: a ++ c :: b)
        with ((x :: a) ++ c :: b).
      rewrite (regex_app (x :: a) c b Hc).
      destruct (srtTimestampLineRegex (x :: a)) as [[[s e] rest]|] eqn:E.
      * apply regex_consumes in E. cbn [length] in *.
        rewrite IH;
          [|exact Hc|rewrite length_app; cbn [length]; lia].
        now rewrite <- app_assoc, Hb.
      * cbn [length] in *.
        rewrite IH;
          [|exact Hc|rewrite length_app; cbn [length]; lia].
        now rewrite Hb.
Qed.

Lemma replaceComma_free (x : Text) (u : N) :
  u <> 46 -> u ∉ x -> u ∉ replaceComma x.
Proof.
  intros Hu. induction x as [|c x IH]; intros Hx; [exact Hx|].
  apply not_elem_of_cons in Hx. destruct Hx as [Hc Hx].
  cbn [replaceComma]. destruct (c =? 44); set_solver.
Qed.

Lemma replaceFrom_free (u : N) f :
  u <> 46 -> u <> 32 -> u <> 45 -> u <> 62 ->
  forall l, u ∉ l -> u ∉ replaceFrom f l.
Proof.
  intros H46 H32 H45 H62. induction f as [|f IH]; intros l Hl; [exact Hl|].
  destruct l as [|c tail]; [exact Hl|]. cbn [replaceFrom].
  destruct (srtTimestampLineRegex (c :: tail)) as [[[s e] rest]|] eqn:E.
  - destruct (regex_shape _ _ _ _ E) as (ws1 & ws2 & Esh & _).
    rewrite Esh in Hl. unfold replacer.
    rewrite !not_elem_of_app in Hl.
    destruct Hl as (Hs & _ & _ & _ & He & Hrest).
    rewrite !not_elem_of_app.
    split; [|now apply IH].
    split; [now apply replaceComma_free|].
    split; [set_solver|now apply replaceComma_free].
  - apply not_elem_of_cons in Hl. destruct Hl as [Hc Ht].
    apply not_elem_of_cons. split; [exact Hc|]. now apply IH.
Qed.

Lemma removeCarriageReturns_app a b :
  removeCarriageReturns (a ++ b)
  = removeCarriageReturns a ++ removeCarriageReturns b.
Proof. unfold removeCarriageReturns. apply List.filter_app. Qed.

Lemma removeCarriageReturns_free l :
  13 ∉ l -> removeCarriageReturns l = l.
Proof.
  induction l as [|c l IH]; intros H; [reflexivity|].
  apply not_elem_of_cons in H. destruct H as [Hc Hl].
  unfold removeCarriageReturns in *. cbn [List.filter].
  destruct (N.eqb_spec c 13) as [->|_]; [congruence|].
  cbn [negb]. now rewrite (IH Hl).
Qed.

(** X25. The conversion works piece by piece.  A unit that cannot be
    part of a timestamp line, which is every unit but the digits, the
    white space and the five signs of such a line, stays where it is,
    and the text before it and the text after it are converted on
    their own.  The content begins with the WebVTT header, has no
    carriage return left in it, and a text without the sign that ends
    an arrow is kept as it is but for its carriage returns. *)
Theorem conversion_is_local a c b :
  foreign c = true ->
  body (a ++ c :: b) = body a ++ c :: body b
  /\ vttContent (a ++ c :: b) = vttContent a ++ c :: body b
  /\ (13 ∉ body (a ++ c :: b))
  /\ ((62 ∉ a) -> body a = removeCarriageReturns a).
Proof.
  intros Hc. destruct (foreign_classes c Hc) as (_ & Hs & _).
  assert (H13 : (c =? 13) = false).
  { destruct (N.eqb_spec c 13) as [->|_]; [discriminate Hs|reflexivity]. }
  assert (B : body (a ++ c :: b) = body a ++ c :: body b).
  { unfold body. rewrite removeCarriageReturns_app.
    unfold removeCarriageReturns at 2. cbn [List.filter]. rewrite H13.
    cbn [negb]. fold (removeCarriageReturns b).
    unfold replaceTimestampLines.
    rewrite replaceFrom_app; [|exact Hc|lia].
    rewrite length_app. cbn [length]. f_equal.
    - apply replaceFrom_fuel; lia.
    - f_equal. apply replaceFrom_fuel; lia. }
  split; [exact B|]. split.
  { unfold vttContent. fold (body (a ++ c :: b)) (body a).
    now rewrite B, <- app_assoc. }
  split.
  - unfold body, replaceTimestampLines.
    apply replaceFrom_free; try discriminate.
    unfold removeCarriageReturns. rewrite list_elem_of_In, filter_In.
    intros [_ H]. discriminate H.
  - intros H62. unfold body, replaceTimestampLines.
    assert (G : forall f l, 62 ∉ l -> replaceFrom f l = l).
    { induction f as [|f IH]; intros l Hl; [reflexivity|].
      destruct l as [|x tail]; [reflexivity|]. cbn [replaceFrom].
      destruct (srtTimestampLineRegex (x :: tail)) as [[[s e] rest]|] eqn:E.
      - exfalso. destruct (regex_shape _ _ _ _ E) as (ws1 & ws2 & Esh & _).
        rewrite Esh in Hl. set_solver.
      - f_equal. apply IH. set_solver. }
    apply G. unfold removeCarriageReturns.
    rewrite list_elem_of_In, filter_In, <- list_elem_of_In. tauto.
Qed.

(** "00:00:01,000 --> 00:00:02,000" *)
Definition srtLine : Text :=
  [48; 48; 58; 48; 48; 58; 48; 49; 44; 48; 48; 48;
   32; 45; 45; 62; 32;
   48; 48; 58; 48; 48; 58; 48; 50; 44; 48; 48; 48].

Lemma conversion_is_local_witness :
  body (srtLine ++ 10 :: 72 :: [105; 13; 10])
  = body (srtLine ++ [10]) ++ 72 :: [105; 10].
Proof.
  change (srtLine ++ 10 :: 72 :: [105; 13; 10])
    with ((srtLine ++ [10]) ++ 72 :: [105; 13; 10]).
  rewrite (proj1 (conversion_is_local (srtLine ++ [10]) 72 [105; 13; 10]
                    eq_refl)).
  reflexivity.
Defined.

Lemma digit_bounds c : isDigit c = true -> 48 <= c <= 57.
Proof.
  unfold isDigit. intros H. apply andb_true_iff in H.
  destruct H as [H1 H2]. apply N.leb_le in H1, H2. lia.
Qed.

Lemma digit_not_space c : isDigit c = true -> isSpace c = false.
Proof.
  intros H. apply digit_bounds in H. unfold isSpace. cbn [existsb].
  repeat match goal with
         | |- context [c =? ?k] =>
             destruct (N.eqb_spec c k); [lia|]
         end.
  cbn [orb]. apply andb_false_iff. left. apply N.leb_gt. lia.
Qed.

(** The twelve units of a timestamp. *)
Lemma stamp_units s :
  isStamp s ->
  exists h1 h2 m1 m2 s1 s2 sep f1 f2 f3,
    s = [h1; h2; 58; m1; m2; 58; s1; s2; sep; f1; f2; f3]
    /\ Forall (fun c => isDigit c = true)
         [h1; h2; m1; m2; s1; s2; f1; f2; f3]
    /\ (sep = 44 \/ sep = 46).
Proof.
  intros H. apply units_shape in H. destruct H as (_ & Hn & Hf).
  unfold timestampClasses in *.
  do 13 (destruct s as [|? s]; try discriminate Hn).
  repeat match goal with
         | H : Forall2 _ (_ :: _) (_ :: _) |- _ =>
             apply Forall2_cons_1 in H; destruct H as [? H]
         end.
  repeat match goal with
         | H : (58 =? _) = true |- _ => apply N.eqb_eq in H; subst
         end.
  do 10 eexists. split; [reflexivity|].
  split; [repeat constructor; assumption|].
  match goal with
  | H : _ || _ = true |- _ =>
      apply orb_true_iff in H; destruct H as [H|H]; apply N.eqb_eq in H; auto
  end.
Qed.

Lemma stamp_dotted s :
  isStamp s ->
  replaceComma s = dotted s /\ isStamp (dotted s) /\ (13 ∉ s)
  /\ exists d rest, s = d :: rest /\ isDigit d = true.
Proof.
  intros H.
  destruct (stamp_units s H)
    as (h1 & h2 & m1 & m2 & s1 & s2 & sep & f1 & f2 & f3 & -> & Hd & Hsep).
  repeat match goal with
         | H : Forall _ (_ :: _) |- _ =>
             apply Forall_cons in H; destruct H as [? H]
         end.
  assert (NC : forall c, isDigit c = true -> (c =? 44) = false).
  { intros c Hc. apply digit_bounds in Hc. apply N.eqb_neq. lia. }
  assert (N13 : forall c, isDigit c = true -> c <> 13).
  { intros c Hc. apply digit_bounds in Hc. lia. }
  split; [|split; [|split]].
  - cbn [replaceComma].
    rewrite (NC h1), (NC h2), (NC m1), (NC m2), (NC s1), (NC s2)
      by assumption.
    change (58 =? 44) with false. cbv iota.
    destruct Hsep as [-> | ->]; [reflexivity|].
    change (46 =? 44) with false.
    now rewrite (NC f1), (NC f2), (NC f3) by assumption.
  - unfold isStamp, timestamp, dotted. cbn [firstn skipn app].
    apply units_complete. unfold timestampClasses.
    repeat constructor; try assumption.
  - rewrite !not_elem_of_cons.
    repeat split; try (apply not_eq_sym, N13; assumption);
      try discriminate; try apply not_elem_of_nil.
    destruct Hsep as [-> | ->]; discriminate.
  - eauto.
Qed.

Lemma spaces_removeCarriageReturns ws :
  Forall (fun c => isSpace c = true) ws ->
  Forall (fun c => isSpace c = true) (removeCarriageReturns ws).
Proof.
  intros H. unfold removeCarriageReturns. rewrite List.Forall_forall in *.
  intros c Hc. apply filter_In in Hc. now apply H.
Qed.

(** A timestamp line at the head of a text without carriage returns. *)
Lemma regex_line s e ws1 ws2 post :
  isStamp s -> isStamp e ->
  Forall (fun c => isSpace c = true) ws1 ->
  Forall (fun c => isSpace c = true) ws2 ->
  srtTimestampLineRegex (s ++ ws1 ++ [45; 45; 62] ++ ws2 ++ e ++ post)
  = Some (s, e, post).
Proof.
  intros Hs He H1 H2. unfold srtTimestampLineRegex, arrow.
  unfold isStamp, timestamp in *.
  rewrite (units_app _ _ _ _ _ Hs). cbn [app].
  rewrite (spaces_skip _ _ H1). cbn [spaces].
  change (isSpace 45) with false. cbv iota.
  cbn [units]. cbn [N.eqb Pos.eqb option_map snd].
  rewrite (spaces_skip _ _ H2).
  destruct (stamp_dotted e He) as (_ & _ & _ & d & rest & -> & Hd).
  cbn [app spaces]. rewrite (digit_not_space d Hd).
  change (d :: rest ++ post) with ((d :: rest) ++ post).
  now rewrite (units_app _ _ _ _ _ He).
Qed.

(** X26. A timestamp line of SubRip, which is two timestamps with a
    comma or a dot before the milliseconds and an arrow between them,
    set off by any white space or none, comes out as a timestamp line
    of WebVTT: both timestamps with a dot, and one space on either side
    of the arrow.  What follows the line is converted on its own, and a
    line that is converted already is left as it is. *)
Theorem timestamp_line_converted s e ws1 ws2 post :
  isStamp s -> isStamp e ->
  Forall (fun c => isSpace c = true) ws1 ->
  Forall (fun c => isSpace c = true) ws2 ->
  vttContent (s ++ ws1 ++ [45; 45; 62] ++ ws2 ++ e ++ post)
  = header ++ dotted s ++ [32; 45; 45; 62; 32] ++ dotted e ++ body post
  /\ body (dotted s ++ [32; 45; 45; 62; 32] ++ dotted e ++ post)
     = dotted s ++ [32; 45; 45; 62; 32] ++ dotted e ++ body post.
Proof.
  intros Hs He H1 H2.
  assert (G : forall s e ws1 ws2,
             isStamp s -> isStamp e ->
             Forall (fun c => isSpace c = true) ws1 ->
             Forall (fun c => isSpace c = true) ws2 ->
             body (s ++ ws1 ++ [45; 45; 62] ++ ws2 ++ e ++ post)
             = dotted s ++ [32; 45; 45; 62; 32] ++ dotted e ++ body post).
  { clear. intros s e ws1 ws2 Hs He H1 H2.
    destruct (stamp_dotted s Hs) as (Ds & _ & Cs & ds & rs & Es & _).
    destruct (stamp_dotted e He) as (De & _ & Ce & _).
    unfold body. rewrite !removeCarriageReturns_app.
    rewrite (removeCarriageReturns_free s Cs).
    rewrite (removeCarriageReturns_free e Ce).
    change (removeCarriageReturns [45; 45; 62]) with [45; 45; 62].
    apply spaces_removeCarriageReturns in H1, H2.
    set (w1 := removeCarriageReturns ws1) in *.
    set (w2 := removeCarriageReturns ws2) in *.
    set (p := removeCarriageReturns post).
    unfold replaceTimestampLines.
    pose proof (regex_line s e w1 w2 p Hs He H1 H2) as R.
    set (L := s ++ w1 ++ [45; 45; 62] ++ w2 ++ e ++ p) in *.
    assert (HL : exists n, length L = S n).
    { subst L. rewrite Es. cbn [app length]. eauto. }
    destruct HL as [n HL]. rewrite HL.
    assert (EL : exists x tail, L = x :: tail).
    { subst L. rewrite Es. cbn [app]. eauto. }
    destruct EL as (x & tail & EL). rewrite EL in R |- *.
    cbn [replaceFrom]. rewrite R. unfold replacer. rewrite Ds, De.
    rewrite <- !app_assoc. do 3 f_equal.
    apply replaceFrom_fuel; [|lia].
    apply regex_consumes in R. rewrite <- EL, HL in R. lia. }
  split.
  - unfold vttContent.
    fold (body (s ++ ws1 ++ [45; 45; 62] ++ ws2 ++ e ++ post)).
    now rewrite (G s e ws1 ws2 Hs He H1 H2).
  - destruct (stamp_dotted s Hs) as (_ & Ss & _).
    destruct (stamp_dotted e He) as (_ & Se & _).
    assert (I : forall x, isStamp x -> dotted (dotted x) = dotted x).
    { intros x Hx. destruct (stamp_units x Hx)
        as (? & ? & ? & ? & ? & ? & ? & ? & ? & ? & -> & _). reflexivity. }
    pose proof (G (dotted s) (dotted e) [32] [32] Ss Se) as K.
    rewrite (I s Hs), (I e He) in K. apply K; repeat constructor.
Qed.

Lemma timestamp_line_converted_witness :
  vttContent srtLine
  = header
    ++ [48; 48; 58; 48; 48; 58; 48; 49; 46; 48; 48; 48;
        32; 45; 45; 62; 32;
        48; 48; 58; 48; 48; 58; 48; 50; 46; 48; 48; 48].
Proof.
  pose proof (timestamp_line_converted
                [48; 48; 58; 48; 48; 58; 48; 49; 44; 48; 48; 48]
                [48; 48; 58; 48; 48; 58; 48; 50; 44; 48; 48; 48]
                [32] [32] [] eq_refl eq_refl) as H.
  destruct H as [H _]; [repeat constructor|repeat constructor|].
  exact H.
Defined.

End VttProps.

(** ** The glow behind the focused card *)

Module GlowProps.
Import JS Glow.
#[local] Set Warnings "-clear-no-such-hyp".

(** The load was started for an element other than the focused one. *)
Definition foreignTo (focused : option nat) (l : Load) : Prop :=
  forall n, focused = Some n -> target l <> n /\ card l <> n.

Definition isCompletion (e : Event) : bool :=
  match e with
  | ImageLoaded _ _ _ _ | ImageFailed _ => true
  | _ => false
  end.

Lemma applyColor_foreign l color s :
  foreignTo (activeElement s) l ->
  applyColor l color s = s.
Proof.
  intros H. unfold applyColor. destruct s as [c g a f ls n].
  cbn [activeElement glowColor] in *. destruct f as [m|]; [|reflexivity].
  destruct (H m eq_refl) as [Ht Hc].
  apply not_eq_sym, Nat.eqb_neq in Ht, Hc. now rewrite Ht, Hc.
Qed.

Lemma find_In (id : nat) (ls : list Load) (l : Load) :
  List.find (fun l => (load_id l =? id)%nat) ls = Some l -> In l ls.
Proof. intros H. now apply find_some in H. Qed.

(** X27. A colour that arrives late does not touch the glow of another
    card: as long as none of the images being loaded was asked for by
    the element that has the focus now, or by its card, no completion,
    success or failure, in any number and order, changes the colour of
    the glow, its visibility or the focus, and no colour that is in the
    cache is lost. *)
Theorem late_colour_keeps_glow context es s s' :
  Forall (foreignTo (activeElement s)) (loading s) ->
  forallb isCompletion es = true ->
  run context es s = Some s' ->
  glowColor s' = glowColor s /\ glowActive s' = glowActive s
  /\ activeElement s' = activeElement s
  /\ (forall u, is_Some (colorCache s !! u) -> is_Some (colorCache s' !! u)).
Proof.
  revert s. induction es as [|e es IH]; intros s Hf Hc; cbn [run].
  - intros H. injection H as <-. repeat split; auto.
  - cbn [forallb] in Hc. apply andb_true_iff in Hc. destruct Hc as [He Hc].
    destruct (step context e s) as [s1|] eqn:E; [|discriminate].
    intros Hrun.
    assert (K : glowColor s1 = glowColor s /\ glowActive s1 = glowActive s
                /\ activeElement s1 = activeElement s
                /\ (forall u, is_Some (colorCache s !! u) ->
                              is_Some (colorCache s1 !! u))
                /\ forall l, In l (loading s1) -> In l (loading s)).
    { destruct e as [t| |id r g b|id]; try discriminate He;
        cbn [step] in E;
        destruct (List.find _ (loading s)) as [l|] eqn:F; try discriminate E;
        pose proof (find_In _ _ _ F) as Hin;
        assert (Hl : foreignTo (activeElement s) l)
          by (rewrite List.Forall_forall in Hf; now apply Hf).
      - destruct context; injection E as <-.
        + rewrite applyColor_foreign by exact Hl.
          cbn. repeat split; try reflexivity.
          * intros u Hu. destruct (decide (imageUrl l = u)) as [->|Hne].
            -- rewrite lookup_insert_eq. eauto.
            -- now rewrite lookup_insert_ne.
          * intros x Hx. now apply filter_In in Hx.
        + cbn. repeat split; try reflexivity; auto.
          intros x Hx. now apply filter_In in Hx.
      - injection E as <-. rewrite applyColor_foreign by exact Hl.
        cbn. repeat split; try reflexivity.
        + intros u Hu. destruct (decide (imageUrl l = u)) as [->|Hne].
          * rewrite lookup_insert_eq. eauto.
          * now rewrite lookup_insert_ne.
        + intros x Hx. now apply filter_In in Hx. }
    destruct K as (K1 & K2 & K3 & K4 & K5).
    destruct (IH s1) as (I1 & I2 & I3 & I4); try assumption.
    { rewrite K3. rewrite List.Forall_forall in *. auto. }
    repeat split; try congruence. auto.
Qed.

Definition poster (n : nat) (src : string) : Target :=
  {| target_node := n;
     focusableCard := Some {| card_node := n; img_src := Some src |} |}.

(** The poster of card 1 is being loaded when the focus moves on to
    card 3, whose image has no source. *)
Definition movedOn : State :=
  handleFocusIn (poster 3 "") (handleFocusIn (poster 1 "a.jpg") initial).

Lemma late_colour_keeps_glow_witness :
  exists s',
    run true [ImageLoaded 0 10 20 30] movedOn = Some s'
    /\ glowColor s' = Some defaultColor
    /\ colorCache s' !! "a.jpg"%string = Some "rgba(10, 20, 30, 0.75)"%string.
Proof.
  eexists. split; [reflexivity|].
  split.
  - refine (proj1 (late_colour_keeps_glow true [ImageLoaded 0 10 20 30]
                     movedOn _ _ eq_refl eq_refl)).
    repeat constructor; cbn in *; congruence.
  - cbn. apply lookup_insert_eq.
Defined.

Lemma step_cache context e s s' u :
  is_Some (colorCache s !! u) -> step context e s = Some s' ->
  is_Some (colorCache s' !! u)
  /\ (forall l, In l (loading s') -> imageUrl l = u -> In l (loading s)).
Proof.
  intros Hu. destruct e as [t| |id r g b|id]; cbn [step].
  - intros H. injection H as <-. unfold handleFocusIn.
    destruct (focusableCard t) as [c|]; [|now split].
    destruct (img_src c) as [src|]; [|now split].
    destruct (truthy_str (Some src)); [|now split].
    cbn [colorCache loading]. split; [exact Hu|].
    intros l Hl El. case_bool_decide as Hc; [exact Hl|].
    apply in_app_or in Hl. destruct Hl as [Hl|[<-|[]]]; [exact Hl|].
    cbn [imageUrl] in El. subst src. contradiction.
  - intros H. injection H as <-. now split.
  - destruct (List.find _ (loading s)) as [l|]; [|discriminate].
    destruct context; intros H; injection H as <-; cbn; split;
      try (intros x Hx _; now apply filter_In in Hx); try exact Hu.
    destruct (decide (imageUrl l = u)) as [->|Hne].
    + rewrite lookup_insert_eq. eauto.
    + now rewrite lookup_insert_ne.
  - destruct (List.find _ (loading s)) as [l|]; [|discriminate].
    intros H; injection H as <-; cbn; split;
      try (intros x Hx _; now apply filter_In in Hx).
    destruct (decide (imageUrl l = u)) as [->|Hne].
    + rewrite lookup_insert_eq. eauto.
    + now rewrite lookup_insert_ne.
Qed.

(** X28. The cache never forgets and is never asked twice.  A failed
    load puts the default grey in the cache under the URL of the image.
    From the moment a URL has a colour in the cache, whatever happens,
    it keeps one, no focus starts a load for it again, and a card with
    that image shows the colour of the cache as soon as it takes the
    focus.  So an image that failed to load once is not tried again. *)
Theorem cached_url_never_reloaded context es s s' u :
  is_Some (colorCache s !! u) -> run context es s = Some s' ->
  is_Some (colorCache s' !! u)
  /\ (forall l, In l (loading s') -> imageUrl l = u -> In l (loading s))
  /\ (forall t c,
        focusableCard t = Some c -> img_src c = Some u ->
        truthy_str (Some u) = true ->
        loading (handleFocusIn t s') = loading s'
        /\ glowColor (handleFocusIn t s')
           = Some (immediateColor (colorCache s') u))
  /\ (forall id l s'',
        List.find (fun l => (load_id l =? id)%nat) (loading s')
        = Some l ->
        step context (ImageFailed id) s' = Some s'' ->
        colorCache s'' !! imageUrl l = Some defaultColor).
Proof.
  intros Hu Hrun.
  assert (K : is_Some (colorCache s' !! u)
              /\ forall l, In l (loading s') -> imageUrl l = u ->
                           In l (loading s)).
  { revert s Hu Hrun. induction es as [|e es IH]; intros s Hu; cbn [run].
    - intros H. injection H as <-. now split.
    - destruct (step context e s) as [s1|] eqn:E; [|discriminate].
      intros Hrun. destruct (step_cache _ _ _ _ _ Hu E) as [H1 H2].
      destruct (IH s1 H1 Hrun) as [I1 I2]. split; [exact I1|]. auto. }
  destruct K as [K1 K2]. split; [exact K1|]. split; [exact K2|]. split.
  - intros t c Ht Hc Htr. unfold handleFocusIn. rewrite Ht, Hc, Htr.
    cbn [loading glowColor]. now rewrite bool_decide_eq_true_2.
  - intros id l s'' F. cbn [step]. rewrite F. intros H. injection H as <-.
    cbn. apply lookup_insert_eq.
Qed.

(** The poster of card 1 has failed to load. *)
Definition failedOnce : State :=
  let l := {| load_id := 0; imageUrl := "a.jpg"; target := 1; card := 1 |} in
  applyColor l defaultColor
    (setCache "a.jpg" defaultColor
       (settle 0 (handleFocusIn (poster 1 "a.jpg") initial))).

Lemma cached_url_never_reloaded_witness :
  run true [FocusIn (poster 1 "a.jpg"); ImageFailed 0] initial
  = Some failedOnce
  /\ map imageUrl
       (loading (handleFocusIn (poster 1 "a.jpg")
                   (handleFocusIn (poster 2 "b.jpg") failedOnce)))
     = ["b.jpg"%string].
Proof.
  split; [reflexivity|].
  assert (Hs : colorCache failedOnce !! "a.jpg"%string = Some defaultColor)
    by apply lookup_insert_eq.
  assert (Hb : colorCache failedOnce !! "b.jpg"%string = None).
  { unfold failedOnce. cbv zeta. cbn [colorCache applyColor setCache].
    rewrite lookup_insert_ne by discriminate. apply lookup_empty. }
  destruct (cached_url_never_reloaded true [FocusIn (poster 2 "b.jpg")]
              failedOnce (handleFocusIn (poster 2 "b.jpg") failedOnce)
              "a.jpg" ltac:(rewrite Hs; eauto) eq_refl)
    as (_ & _ & F & _).
  destruct (F (poster 1 "a.jpg") _ eq_refl eq_refl eq_refl) as [-> _].
  unfold handleFocusIn at 1. cbn [poster focusableCard img_src].
  change (truthy_str (Some "b.jpg"%string)) with true. cbv iota.
  cbn [loading].
  rewrite bool_decide_eq_false_2 by (rewrite Hb; apply is_Some_None).
  reflexivity.
Defined.

End GlowProps.

(** ** Showing and hiding a side panel *)

Module SlideProps.
Import Slide.

(** What holds of a panel between two events. *)
Definition settled (p : Panel) : Prop :=
  if show p then
    isRendered p = true /\ isAnimatingOut p = false /\ timer p = None
  else
    isAnimatingOut p = isRendered p
    /\ if isRendered p then
         exists due, timer p = Some due /\ now p < due <= now p + 300
       else timer p = None.

Lemma settled_mount b t : settled (mount b t).
Proof. destruct b; cbn; auto. Qed.

Lemma settled_step e p : settled p -> settled (step e p).
Proof.
  destruct p as [sh r a tm t]. unfold settled. cbn [show isRendered].
  destruct e as [b|d]; cbn [step].
  - unfold setShow. cbn [show]. destruct sh, b; cbn [Bool.eqb];
      try (intros H; exact H).
    + intros (-> & -> & ->). cbn. split; [reflexivity|].
      exists (t + 300). split; [reflexivity|lia].
    + destruct r; intros [-> H]; cbn; auto.
  - unfold wait. cbn [timer now show isRendered isAnimatingOut].
    destruct sh.
    + intros (-> & -> & ->). cbn. auto.
    + destruct r; intros [-> H].
      * destruct H as (due & -> & Hd).
        destruct (due <=? t + d) eqn:E; cbn; [auto|].
        apply Nat.leb_gt in E. split; [reflexivity|].
        exists due. split; [reflexivity|lia].
      * rewrite H. cbn. auto.
Qed.

Lemma settled_run es : forall p, settled p -> settled (run es p).
Proof.
  induction es as [|e es IH]; intros p H; [exact H|].
  apply (IH (step e p)). now apply settled_step.
Qed.

(** X29. A side panel is in the document while it is shown and for the
    300 ms of its exit animation, and its key handler is on the
    document exactly while it is shown.  Whatever the sequence of
    shows, hides and waits: the handler is attached if and only if
    [show] is set; a shown panel is rendered and has no timer pending;
    a hidden panel is rendered only while its timer is pending, which
    is due within 300 ms.  After a hide the panel leaves the document
    when 300 ms have passed and not before, unless it is shown again
    in between, which cancels the timer for good. *)
Theorem panel_visibility es b t0 :
  let p := run es (mount b t0) in
  trapping p = show p
  /\ (show p = true -> inDocument p = true /\ timer p = None)
  /\ (show p = false ->
      if inDocument p then
        exists due, timer p = Some due /\ now p < due <= now p + 300
      else timer p = None)
  /\ (show p = true ->
      forall d,
        let q := run [SetShow false; Wait d] p in
        inDocument q = (d <? 300) /\ trapping q = false)
  /\ (show p = true ->
      forall d1 d2,
        d1 < 300 ->
        let q := run [SetShow false; Wait d1; SetShow true; Wait d2] p in
        inDocument q = true /\ trapping q = true /\ timer q = None).
Proof.
  intros p. pose proof (settled_run es _ (settled_mount b t0)) as H.
  fold p in H. clearbody p. destruct p as [sh r a tm t].
  unfold settled in H. unfold trapping, inDocument.
  cbn [show isRendered isAnimatingOut timer now] in *.
  destruct sh.
  - destruct H as (-> & -> & ->).
    split; [reflexivity|]. split; [auto|]. split; [discriminate|].
    split.
    + intros _ d. cbn -[Nat.ltb Nat.leb Nat.add].
      destruct (t + 300 <=? t + d) eqn:E; cbn -[Nat.ltb Nat.leb Nat.add].
      * apply Nat.leb_le in E. split; [|reflexivity].
        symmetry. apply Nat.ltb_ge. lia.
      * apply Nat.leb_gt in E. split; [|reflexivity].
        symmetry. apply Nat.ltb_lt. lia.
    + intros _ d1 d2 Hd. cbn -[Nat.ltb Nat.leb Nat.add].
      destruct (t + 300 <=? t + d1) eqn:E;
        [apply Nat.leb_le in E; lia|]. cbn. auto.
  - destruct H as [-> H]. destruct r.
    + split; [reflexivity|]. split; [discriminate|].
      split; [intros _; exact H|]. split; discriminate.
    + split; [reflexivity|]. split; [discriminate|].
      split; [intros _; exact H|]. split; discriminate.
Qed.

Lemma panel_visibility_witness :
  inDocument (run [SetShow true; Wait 1000; SetShow false; Wait 299]
                (mount false 0)) = true
  /\ inDocument (run [SetShow true; Wait 1000; SetShow false; Wait 300]
                   (mount false 0)) = false.
Proof.
  destruct (panel_visibility [SetShow true; Wait 1000] false 0)
    as (_ & _ & _ & H & _).
  split.
  - exact (proj1 (H eq_refl 299)).
  - exact (proj1 (H eq_refl 300)).
Defined.

End SlideProps.

(** ** Films of the followed actors *)

Module YouProps.
Import JS You.
Local Open Scope Q_scope.

(** No element is more popular than one before it. *)
Fixpoint descending (l : list Credit) : Prop :=
  match l with
  | [] => True
  | a :: rest =>
      Forall (fun b => popularity b <= popularity a) rest /\ descending rest
  end.

Lemma insert_In a l x : In x (insert a l) <-> x = a \/ In x l.
Proof.
  induction l as [|b l IH]; cbn [insert]; [cbn; intuition|].
  destruct (Qle_bool _ _); cbn [In]; [intuition|].
  rewrite IH. cbn [In]. intuition.
Qed.

Lemma sort_In l x : In x (sort l) <-> In x l.
Proof.
  induction l as [|a l IH]; [reflexivity|].
  cbn [sort fold_right]. fold (sort l). rewrite insert_In, IH. cbn.
  intuition.
Qed.

Lemma insert_descending a l : descending l -> descending (insert a l).
Proof.
  induction l as [|b l IH]; intros H; cbn [insert]; [cbn; auto|].
  destruct H as [Hb Hl].
  destruct (Qle_bool (popularity b) (popularity a)) eqn:E.
  - apply Qle_bool_iff in E. cbn [descending]. split; [|now split].
    constructor; [exact E|].
    eapply List.Forall_impl; [|exact Hb]. cbn. intros c Hc.
    now apply (Qle_trans _ (popularity b)).
  - assert (L : popularity a <= popularity b).
    { apply Qlt_le_weak, Qnot_le_lt. intros N.
      apply Qle_bool_iff in N. congruence. }
    cbn [descending]. split; [|now apply IH].
    rewrite List.Forall_forall. intros x Hx. apply insert_In in Hx.
    destruct Hx as [->|Hx]; [exact L|].
    rewrite List.Forall_forall in Hb. now apply Hb.
Qed.

Lemma sort_descending l : descending (sort l).
Proof.
  induction l as [|a l IH]; [exact I|]. now apply insert_descending.
Qed.

(** *** The map *)

Definition keys (m : list (nat * Credit)) : list nat := map fst m.
Definition values (m : list (nat * Credit)) : list Credit := map snd m.

Lemma mapSet_In key value m e :
  In e (mapSet key value m) -> e = (key, value) \/ In e m.
Proof.
  induction m as [|[k v] m IH]; cbn [mapSet In]; [intuition|].
  destruct (Nat.eqb_spec k key) as [->|_]; cbn [In]; intuition.
Qed.

Lemma mapSet_keys key value m :
  keys (mapSet key value m)
  = if bool_decide (key ∈ keys m) then keys m else keys m ++ [key].
Proof.
  induction m as [|[k v] m IH]; cbn [mapSet keys map fst].
  - now rewrite bool_decide_eq_false_2 by apply not_elem_of_nil.
  - destruct (Nat.eqb_spec k key) as [->|Hne].
    + rewrite bool_decide_eq_true_2 by apply list_elem_of_here.
      reflexivity.
    + cbn [map fst]. fold (keys (mapSet key value m)) (keys m).
      rewrite IH. case_bool_decide as H.
      * rewrite bool_decide_eq_true_2 by now apply list_elem_of_further.
        reflexivity.
      * rewrite bool_decide_eq_false_2; [reflexivity|].
        rewrite not_elem_of_cons. split; [congruence|exact H].
Qed.

Lemma mapSet_keys_In key value m :
  In key (keys (mapSet key value m))
  /\ forall k, In k (keys m) -> In k (keys (mapSet key value m)).
Proof.
  rewrite mapSet_keys. case_bool_decide as E.
  - split; [now apply list_elem_of_In|auto].
  - split; [apply in_or_app; right; now left|].
    intros k Hk. apply in_or_app. now left.
Qed.

Lemma mapSet_NoDup key value m :
  NoDup (keys m) -> NoDup (keys (mapSet key value m)).
Proof.
  intros H. rewrite mapSet_keys. case_bool_decide as E; [exact H|].
  apply NoDup_app. split; [exact H|]. split; [|apply NoDup_singleton].
  intros x Hx Hx'. apply list_elem_of_singleton in Hx'. now subst x.
Qed.

Lemma mapSet_descending key value m :
  descending (values m) ->
  (forall v, In v (values m) -> popularity value <= popularity v) ->
  (forall v, In (key, v) m -> popularity v == popularity value) ->
  descending (values (mapSet key value m)).
Proof.
  induction m as [|[k v] m IH]; intros Hd Hlow Hsame;
    cbn [mapSet values map snd]; [cbn; auto|].
  cbn [values map snd descending] in Hd. destruct Hd as [Hv Hd].
  destruct (Nat.eqb_spec k key) as [->|Hne].
  - cbn [map snd descending]. split; [|exact Hd].
    assert (E : popularity v == popularity value)
      by (apply Hsame; now left).
    eapply List.Forall_impl; [|exact Hv]. cbn. intros c Hc. now rewrite <- E.
  - cbn [map snd descending]. fold (values (mapSet key value m)).
    split.
    + rewrite List.Forall_forall. intros x Hx.
      apply in_map_iff in Hx. destruct Hx as ([k' v'] & <- & Hx).
      apply mapSet_In in Hx. destruct Hx as [Hx|Hx].
      * injection Hx as _ ->. apply Hlow. now left.
      * rewrite List.Forall_forall in Hv. apply Hv.
        apply in_map_iff. exists (k', v'). now split.
    + apply IH; [exact Hd| |].
      * intros c Hc. apply Hlow. now right.
      * intros c Hc. apply Hsame. now right.
Qed.

Section Entries.
Variable credits : list Credit.
Hypothesis consistent :
  forall a b, In a credits -> In b credits -> id a = id b ->
    popularity a == popularity b.

(** The map while the entries [rest] are still to be set. *)
Record building (m : list (nat * Credit)) (rest : list Credit) : Prop := {
  b_sorted : descending (values m);
  b_entry : forall k v, In (k, v) m -> id v = k /\ In v credits;
  b_above : forall v c,
    In v (values m) -> In c rest -> popularity c <= popularity v;
  b_rest : descending rest;
  b_credits : forall c, In c rest -> In c credits
}.

Lemma building_step m c rest :
  building m (c :: rest) -> building (mapSet (id c) c m) rest.
Proof.
  intros [Hs He Ha Hr Hc]. cbn [descending] in Hr. destruct Hr as [Hlow Hr].
  split.
  - apply mapSet_descending; [exact Hs| |].
    + intros v Hv. apply (Ha v c Hv). now left.
    + intros v Hv. destruct (He _ _ Hv) as [Hid Hin].
      apply consistent; [exact Hin|apply Hc; now left|exact Hid].
  - intros k v Hin. apply mapSet_In in Hin. destruct Hin as [E|Hin].
    + injection E as -> ->. split; [reflexivity|]. apply Hc. now left.
    + now apply He.
  - intros v x Hv Hx. apply in_map_iff in Hv.
    destruct Hv as ([k v'] & <- & Hv). apply mapSet_In in Hv.
    destruct Hv as [E|Hv].
    + injection E as _ ->. rewrite List.Forall_forall in Hlow.
      now apply Hlow.
    + apply (Ha v' x); [|now right].
      apply in_map_iff. exists (k, v'). now split.
  - exact Hr.
  - intros x Hx. apply Hc. now right.
Qed.

Lemma building_run rest :
  forall m,
    building m rest -> NoDup (keys m) ->
    let final :=
      fold_left (fun m entry => mapSet (fst entry) (snd entry) m)
        (map (fun c => (id c, c)) rest) m in
    building final [] /\ NoDup (keys final)
    /\ (forall k, In k (keys m) -> In k (keys final))
    /\ (forall c, In c rest -> In (id c) (keys final)).
Proof.
  induction rest as [|c rest IH]; intros m Hb Hn final; subst final;
    cbn [map fold_left].
  - split; [exact Hb|]. split; [exact Hn|]. split; [auto|]. intros c [].
  - cbn [fst snd].
    destruct (IH (mapSet (id c) c m) (building_step _ _ _ Hb)
                (mapSet_NoDup _ _ _ Hn)) as (B & N & K & R).
    destruct (mapSet_keys_In (id c) c m) as [Hc Hk].
    split; [exact B|]. split; [exact N|]. split; [auto|].
    intros x [<-|Hx]; auto.
Qed.

End Entries.

Lemma In_firstn {A} (x : A) n l : In x (firstn n l) -> In x l.
Proof.
  revert n. induction l as [|a l IH]; intros [|n]; cbn; try tauto.
  intros [->|H]; [now left|right; eauto].
Qed.

Lemma In_skipn {A} (x : A) n l : In x (skipn n l) -> In x l.
Proof.
  revert n. induction l as [|a l IH]; intros [|n]; cbn; try tauto.
  intros H. right. eauto.
Qed.

Lemma descending_firstn n l : descending l -> descending (firstn n l).
Proof.
  revert n. induction l as [|a l IH]; intros n H; [now destruct n|].
  destruct n as [|n]; [exact I|]. destruct H as [Ha Hl].
  cbn [firstn descending]. split; [|now apply IH].
  rewrite List.Forall_forall in *. intros x Hx. apply Ha.
  eapply In_firstn. exact Hx.
Qed.

Lemma descending_split n l a b :
  descending l -> In a (firstn n l) -> In b (skipn n l) ->
  popularity b <= popularity a.
Proof.
  revert n. induction l as [|x l IH]; intros n H Ha Hb.
  - now destruct n.
  - destruct n as [|n]; [destruct Ha|]. destruct H as [Hx Hl].
    cbn [firstn skipn In] in Ha, Hb. destruct Ha as [->|Ha].
    + rewrite List.Forall_forall in Hx. apply Hx.
      eapply In_skipn. exact Hb.
    + now apply (IH n).
Qed.

(** X30. The carousel shows the ten most popular films of the followed
    actors, each once.  At most ten films are shown, no film twice,
    each one a credit with a poster; when fewer than ten are shown,
    every such credit is among them.  When the credits of one film
    agree on its popularity, the films are in order of falling
    popularity, and no film left out is more popular than one that is
    shown. *)
Theorem followed_actors_top_ten results :
  let credits :=
    List.filter (fun m => truthy_str (poster_path m))
      (flat_map castOf results) in
  let shown := uniqueMovies results in
  (length shown <= 10)%nat
  /\ NoDup (map id shown)
  /\ (forall m, In m shown -> In m credits)
  /\ (forall c, In c credits -> (length shown < 10)%nat ->
        In (id c) (map id shown))
  /\ ((forall a b, In a credits -> In b credits -> id a = id b ->
         popularity a == popularity b) ->
      descending shown
      /\ forall c m, In c credits -> ~ In (id c) (map id shown) ->
           In m shown -> popularity c <= popularity m).
Proof.
  intros credits shown.
  set (entries := map (fun c => (id c, c)) (sort credits)).
  set (m := newMap entries).
  assert (Hshown : shown = firstn 10 (values m)) by reflexivity.
  (* what holds without any assumption on the popularities *)
  assert (Hent : forall k v, In (k, v) m -> id v = k /\ In v credits).
  { subst m. unfold newMap.
    assert (G : forall es acc,
               (forall k v, In (k, v) acc -> id v = k /\ In v credits) ->
               (forall e, In e es ->
                  id (snd e) = fst e /\ In (snd e) credits) ->
               forall k v,
                 In (k, v)
                   (fold_left (fun m e => mapSet (fst e) (snd e) m) es acc) ->
                 id v = k /\ In v credits).
    { induction es as [|e es IH]; intros acc Ha He; [exact Ha|].
      cbn [fold_left]. apply IH.
      - intros k v Hin. apply mapSet_In in Hin. destruct Hin as [E|Hin].
        + injection E as -> ->. apply He. now left.
        + now apply Ha.
      - intros x Hx. apply He. now right. }
    apply G; [intros k v []|].
    intros e He. subst entries. apply in_map_iff in He.
    destruct He as (c & <- & Hc). cbn [fst snd]. split; [reflexivity|].
    exact (proj1 (sort_In _ _) Hc). }
  assert (Hrun := building_run credits).
  assert (Hnd : NoDup (keys m)
                /\ forall c, In c credits -> In (id c) (keys m)).
  { subst m. unfold newMap.
    assert (G : forall es acc,
               NoDup (keys acc) ->
               let final :=
                 fold_left (fun m e => mapSet (fst e) (snd e) m) es acc in
               NoDup (keys final)
               /\ (forall k, In k (keys acc) -> In k (keys final))
               /\ forall e, In e es -> In (fst e) (keys final)).
    { induction es as [|e es IH]; intros acc Ha final; subst final;
        cbn [fold_left].
      - split; [exact Ha|]. split; [auto|]. intros e [].
      - destruct (IH (mapSet (fst e) (snd e) acc)
                    (mapSet_NoDup _ _ _ Ha)) as (N & K & R).
        destruct (mapSet_keys_In (fst e) (snd e) acc) as [Hc Hk].
        split; [exact N|]. split; [auto|].
        intros x [<-|Hx]; [|now apply R]. now apply K. }
    destruct (G entries [] (NoDup_nil_2)) as (N & _ & R).
    split; [exact N|]. intros c Hc.
    apply (R (id c, c)). subst entries. apply in_map_iff.
    exists c. split; [reflexivity|]. exact (proj2 (sort_In _ _) Hc). }
  destruct Hnd as [Hnd Hcover].
  assert (Hids : map id (values m) = keys m).
  { unfold values, keys. rewrite map_map. apply map_ext_in.
    intros [k v] Hin. cbn. now destruct (Hent k v Hin). }
  split; [rewrite Hshown; apply firstn_le_length|].
  split.
  { rewrite Hshown, <- firstn_map, Hids.
    rewrite <- (firstn_skipn 10 (keys m)) in Hnd.
    now apply NoDup_app in Hnd. }
  split.
  { intros x Hx. rewrite Hshown in Hx. apply In_firstn in Hx.
    apply in_map_iff in Hx. destruct Hx as ([k v] & <- & Hin).
    now destruct (Hent k v Hin). }
  split.
  { intros c Hc Hlt.
    assert (L : (length (values m) <= 10)%nat)
      by (rewrite Hshown, length_firstn in Hlt; lia).
    rewrite Hshown, (firstn_all2 _ L), Hids. now apply Hcover. }
  intros Hcons.
  destruct (Hrun Hcons (sort credits) []) as (B & _ & _ & _).
  { split; cbn; try tauto.
    - apply sort_descending.
    - intros c Hc. exact (proj1 (sort_In _ _) Hc). }
  { constructor. }
  fold entries in B. change (fold_left _ entries []) with m in B.
  pose proof (b_sorted _ _ _ B) as Hs.
  split; [rewrite Hshown; now apply descending_firstn|].
  intros c x Hc Hout Hx.
  pose proof (Hcover c Hc) as Hk. rewrite <- Hids in Hk.
  apply in_map_iff in Hk. destruct Hk as (v & Hv & Hin).
  assert (Hvc : In v credits).
  { apply in_map_iff in Hin. destruct Hin as ([k v'] & <- & Hin).
    now destruct (Hent k v' Hin). }
  rewrite (Hcons c v Hc Hvc (eq_sym Hv)).
  rewrite <- (firstn_skipn 10 (values m)) in Hin.
  apply in_app_or in Hin. destruct Hin as [Hin|Hin].
  - exfalso. apply Hout. rewrite Hshown, <- Hv. now apply in_map.
  - rewrite Hshown in Hx. now apply (descending_split 10 (values m)).
Qed.

Definition film (n : nat) (p : Q) : Credit :=
  {| id := n; title := "film"; poster_path := Some "/p.jpg"%string;
     popularity := p |}.

(** Two actors who share film 2; film 3 has no poster. *)
Definition twoActors : list (option (list Credit)) :=
  [Some [film 1 5; film 2 9];
   None;
   Some [film 2 9;
         {| id := 3; title := "bare"; poster_path := None;
            popularity := 20 |};
         film 4 7]].

Lemma followed_actors_top_ten_witness :
  descending (uniqueMovies twoActors)
  /\ map id (uniqueMovies twoActors) = [2; 4; 1]%nat.
Proof.
  split; [|reflexivity].
  refine (proj1 (proj2 (proj2 (proj2 (proj2
            (followed_actors_top_ten twoActors)))) _)).
  intros a b Ha Hb. cbn in Ha, Hb.
  repeat match goal with
         | H : _ \/ _ |- _ => destruct H as [H|H]
         | H : False |- _ => destruct H
         end; subst; cbn; intros E; try discriminate E; reflexivity.
Defined.

End YouProps.
